(** * Terra::Base16 / Base32 / Base45 / Base58 / Base64

    A shallow embedding of the five binary-to-text codecs of the
    terrapane/bases library, and the properties checked against it.

    Conventions of the embedding:
    - [std::uint8_t] octets are [byte]; [char] is [ascii]; a [std::string]
      is a [string] at the interface and a [list ascii] inside the loops;
      a [std::vector<std::uint8_t>] is a [list byte];
    - machine integers are [Z], every left shift that can leave the word is
      reduced modulo the word size ([shl]);
    - each [Decode] of the source signals an error with [return {}].  The
      embedding keeps, next to [Decode], a function [Decode_run] that returns
      [None] exactly on those error returns; [Decode] is [Decode_run] with
      [None] collapsed to the empty vector, as the source does. *)

From Stdlib Require Import ZArith List Ascii String Strings.Byte Lia Bool.
Import ListNotations.
Local Open Scope Z_scope.

(** ** Machine words *)

(** Widths on the LP64 targets the library is built for. *)
Definition size_t_bits : Z := 64.
Definition uint_fast32_bits : Z := 64.
Definition uint_fast16_bits : Z := 64.
Definition uint32_bits : Z := 32.

Definition wrap (w x : Z) : Z := x mod 2 ^ w.

(** [x << k] on an unsigned [w]-bit word. *)
Definition shl (w x k : Z) : Z := wrap w (Z.shiftl x k).

(** The value of an octet, and [static_cast<std::uint8_t>] of a [char]. *)
Definition u8 (b : byte) : Z := Z.of_N (Byte.to_N b).
Definition char_u8 (c : ascii) : Z := Z.of_N (N_of_ascii c).

(** Conversion of an integer to [std::uint8_t] (as [push_back] does). *)
Definition to_u8 (z : Z) : byte :=
  match Byte.of_N (Z.to_N (z mod 256)) with
  | Some b => b
  | None => x00
  end.

(** Conversion of an integer to [char]. *)
Definition to_char (z : Z) : ascii := ascii_of_N (Z.to_N (z mod 256)).

(** ** Tables *)

(** [T[i]] for a forward alphabet table. *)
Definition table_at (T : string) (i : Z) : ascii :=
  match String.get (Z.to_nat i) T with
  | Some c => c
  | None => zero
  end.

(** The [BnnToInt] macros are chains [(x) == c0 ? v0 : (x) == c1 ? v1 : ... :
    invalid]; [cond_chain] evaluates such a chain. *)
Fixpoint cond_chain (chain : list (ascii * Z)) (invalid : Z) (x : Z) : Z :=
  match chain with
  | [] => invalid
  | (c, v) :: chain' =>
      if x =? char_u8 c then v else cond_chain chain' invalid x
  end.

(** Consecutive entries [c0 -> v, c1 -> v+1, ...] of a chain. *)
Fixpoint run_from (v : Z) (cs : list ascii) : list (ascii * Z) :=
  match cs with
  | [] => []
  | c :: cs' => (c, v) :: run_from (v + 1) cs'
  end.

Definition run (cs : string) (v : Z) : list (ascii * Z) :=
  run_from v (list_ascii_of_string cs).

Definition len {A} (l : list A) : Z := Z.of_nat (List.length l).

(** ** Terra::Base16 *)
Module Base16.

Definition Base16Table : string := "0123456789ABCDEF".

Definition InvalidBase16Character : Z := 255.

Definition B16ToInt (x : Z) : Z :=
  cond_chain (run "0123456789ABCDEF" 0 ++ run "abcdef" 10)
             InvalidBase16Character x.

Definition Base16ReverseTable (i : Z) : Z := B16ToInt i.

Fixpoint Encode_loop (input : list byte) (output : list ascii) : list ascii :=
  match input with
  | [] => output
  | octet :: input' =>
      let output :=
        output ++ [table_at Base16Table (Z.land (Z.shiftr (u8 octet) 4) 0x0f)] in
      let output :=
        output ++ [table_at Base16Table (Z.land (u8 octet) 0x0f)] in
      Encode_loop input' output
  end.

Definition Encode (input : list byte) : string :=
  if len input =? 0 then EmptyString
  else string_of_list_ascii (Encode_loop input []).

(** [Encode(std::string_view)] reinterprets the characters as octets. *)
Definition Encode_sv (input : string) : string :=
  Encode (map byte_of_ascii (list_ascii_of_string input)).

Record state : Type := mkState {
  output : list byte;
  group : Z;
  group_size : Z
}.

Definition Decode_step (st : state) (c : ascii) : state :=
  let octet := Base16ReverseTable (char_u8 c) in
  if octet =? InvalidBase16Character then st
  else
    let group := shl uint_fast32_bits (group st) 4 in
    let group := Z.lor group (Z.land octet 0x0f) in
    let group_size := group_size st + 4 in
    if group_size =? 8
    then mkState (output st ++ [to_u8 (Z.land group 0xff)]) group 0
    else mkState (output st) group group_size.

Definition Decode_loop (input : list ascii) (st : state) : state :=
  fold_left Decode_step input st.

Definition Decode_run (input : string) : option (list byte) :=
  let input := list_ascii_of_string input in
  if len input =? 0 then Some []
  else
    let st := Decode_loop input (mkState [] 0 0) in
    if 0 <? group_size st then None else Some (output st).

Definition Decode (input : string) : list byte :=
  match Decode_run input with
  | Some output => output
  | None => []
  end.

End Base16.

(** ** Terra::Base32 *)
Module Base32.

Definition Base32Table : string := "ABCDEFGHIJKLMNOPQRSTUVWXYZ234567".

Definition Base32PaddingCharacter : ascii := "="%char.

Definition InvalidBase32Character : Z := 255.

Definition B32ToInt (x : Z) : Z :=
  cond_chain (run "ABCDEFGHIJKLMNOPQRSTUVWXYZ" 0 ++
              run "abcdefghijklmnopqrstuvwxyz" 0 ++
              run "234567" 26)
             InvalidBase32Character x.

Definition Base32ReverseTable (i : Z) : Z := B32ToInt i.

Record enc_state : Type := mkEnc {
  e_output : list ascii;
  e_group : Z;
  e_group_size : Z;
  e_quantum : Z
}.

(** The [do { ... } while (group_size >= 5)] loop.  Every round takes 5 bits
    off [group_size], so [fuel] rounds after the first are enough when
    [fuel] is at least [group_size]. *)
Fixpoint emit (fuel : nat) (st : enc_state) : enc_state :=
  let output :=
    e_output st ++
    [table_at Base32Table
       (Z.land (Z.shiftr (e_group st) (e_group_size st - 5)) 0x1f)] in
  let quantum := e_quantum st + 1 in
  let group_size := e_group_size st - 5 in
  let st' := mkEnc output (e_group st) group_size quantum in
  match fuel with
  | O => st'
  | S fuel' => if 5 <=? group_size then emit fuel' st' else st'
  end.

Definition Encode_step (st : enc_state) (octet : byte) : enc_state :=
  let group := shl size_t_bits (e_group st) 8 in
  let group := Z.lor group (u8 octet) in
  let group_size := e_group_size st + 8 in
  let st := emit (Z.to_nat group_size)
                 (mkEnc (e_output st) group group_size (e_quantum st)) in
  if e_quantum st =? 8
  then mkEnc (e_output st) (e_group st) (e_group_size st) 0
  else st.

Definition Encode_loop (input : list byte) (st : enc_state) : enc_state :=
  fold_left Encode_step input st.

Definition Encode_finish (st : enc_state) : list ascii :=
  if 0 <? e_group_size st then
    let group := shl size_t_bits (e_group st) (5 - e_group_size st mod 5) in
    let output := e_output st ++ [table_at Base32Table (Z.land group 0x1f)] in
    let quantum := e_quantum st + 1 in
    if quantum <? 8
    then output ++ repeat Base32PaddingCharacter (Z.to_nat (8 - quantum))
    else output
  else e_output st.

Definition Encode (input : list byte) : string :=
  if len input =? 0 then EmptyString
  else string_of_list_ascii
         (Encode_finish (Encode_loop input (mkEnc [] 0 0 0))).

Definition Encode_sv (input : string) : string :=
  Encode (map byte_of_ascii (list_ascii_of_string input)).

Record state : Type := mkState {
  output : list byte;
  group : Z;
  group_size : Z
}.

Definition Decode_step (st : state) (c : ascii) : state :=
  let octet := Base32ReverseTable (char_u8 c) in
  if octet =? InvalidBase32Character then st
  else
    let group := shl uint_fast32_bits (group st) 5 in
    let group := Z.lor group (Z.land octet 0x1f) in
    let group_size := group_size st + 5 in
    if 8 <=? group_size
    then mkState
           (output st ++ [to_u8 (Z.land (Z.shiftr group (group_size - 8)) 0xff)])
           group (group_size - 8)
    else mkState (output st) group group_size.

(** The [for] loop over the input, left at the first padding character. *)
Fixpoint Decode_loop (input : list ascii) (st : state) : state :=
  match input with
  | [] => st
  | c :: input' =>
      if Ascii.eqb c Base32PaddingCharacter then st
      else Decode_loop input' (Decode_step st c)
  end.

Definition Decode_run (input : string) : option (list byte) :=
  let input := list_ascii_of_string input in
  if len input =? 0 then Some []
  else
    let st := Decode_loop input (mkState [] 0 0) in
    if 0 <? group_size st then
      let mask := 2 ^ uint_fast32_bits - 1 in
      let mask := shl uint_fast32_bits mask (group_size st) in
      if negb (Z.land (group st) (wrap uint_fast32_bits (Z.lnot mask)) =? 0)
      then None
      else Some (output st)
    else Some (output st).

Definition Decode (input : string) : list byte :=
  match Decode_run input with
  | Some output => output
  | None => []
  end.

End Base32.

(** ** Terra::Base45 *)
Module Base45.

Definition Base45Table : string :=
  "0123456789ABCDEFGHIJKLMNOPQRSTUVWXYZ $%*+-./:".

Definition InvalidBase45Character : Z := 255.

Definition B45ToInt (x : Z) : Z :=
  cond_chain (run "0123456789ABCDEFGHIJKLMNOPQRSTUVWXYZ $%*+-./:" 0)
             InvalidBase45Character x.

Definition Base45ReverseTable (i : Z) : Z := B45ToInt i.

Record enc_state : Type := mkEnc {
  e_output : list ascii;
  e_group : Z;
  e_group_size : Z
}.

Definition Encode_step (st : enc_state) (octet : byte) : enc_state :=
  let group := shl size_t_bits (e_group st) 8 in
  let group := Z.lor group (u8 octet) in
  let group_size := e_group_size st + 1 in
  if group_size =? 2 then
    let output := e_output st ++ [table_at Base45Table (group mod 45)] in
    let output := output ++ [table_at Base45Table ((group / 45) mod 45)] in
    let output := output ++ [table_at Base45Table ((group / 2025) mod 45)] in
    mkEnc output 0 0
  else mkEnc (e_output st) group group_size.

Definition Encode_loop (input : list byte) (st : enc_state) : enc_state :=
  fold_left Encode_step input st.

Definition Encode_finish (st : enc_state) : list ascii :=
  if 0 <? e_group_size st then
    let output := e_output st ++ [table_at Base45Table (e_group st mod 45)] in
    output ++ [table_at Base45Table ((e_group st / 45) mod 45)]
  else e_output st.

Definition Encode (input : list byte) : string :=
  if len input =? 0 then EmptyString
  else string_of_list_ascii
         (Encode_finish (Encode_loop input (mkEnc [] 0 0))).

Definition Encode_sv (input : string) : string :=
  Encode (map byte_of_ascii (list_ascii_of_string input)).

Record state : Type := mkState {
  output : list byte;
  group : Z;
  group_size : Z
}.

Definition Decode_step (st : state) (c : ascii) : state :=
  let octet := Base45ReverseTable (char_u8 c) in
  if octet =? InvalidBase45Character then st
  else
    let group := shl uint_fast32_bits (group st) 8 in
    let group := Z.lor group octet in
    let group_size := group_size st + 1 in
    if group_size =? 3 then
      let octet_pair :=
        wrap uint_fast16_bits
          (Z.land (Z.shiftr group 16) 0xff +
           Z.land (Z.shiftr group 8) 0xff * 45 +
           Z.land group 0xff * 2025) in
      let output := output st ++ [to_u8 (Z.land (Z.shiftr octet_pair 8) 0xff)] in
      let output := output ++ [to_u8 (Z.land octet_pair 0xff)] in
      mkState output 0 0
    else mkState (output st) group group_size.

Definition Decode_loop (input : list ascii) (st : state) : state :=
  fold_left Decode_step input st.

Definition Decode_run (input : string) : option (list byte) :=
  let input := list_ascii_of_string input in
  if len input =? 0 then Some []
  else
    let st := Decode_loop input (mkState [] 0 0) in
    if 0 <? group_size st then
      if negb (group_size st =? 2) then None
      else Some (output st ++
                 [to_u8 (Z.land (Z.land (Z.shiftr (group st) 8) 0xff +
                                 Z.land (group st) 0xff * 45) 0xff)])
    else Some (output st).

Definition Decode (input : string) : list byte :=
  match Decode_run input with
  | Some output => output
  | None => []
  end.

End Base45.

(** ** Terra::Base64 *)
Module Base64.

Definition Base64Table : string :=
  "ABCDEFGHIJKLMNOPQRSTUVWXYZabcdefghijklmnopqrstuvwxyz0123456789+/".

Definition Base64PaddingCharacter : ascii := "="%char.

Definition InvalidBase64Character : Z := 255.

Definition B64ToInt (x : Z) : Z :=
  cond_chain
    (run "ABCDEFGHIJKLMNOPQRSTUVWXYZabcdefghijklmnopqrstuvwxyz0123456789+/" 0)
    InvalidBase64Character x.

Definition Base64ReverseTable (i : Z) : Z := B64ToInt i.

Record enc_state : Type := mkEnc {
  e_output : list ascii;
  e_group : Z;
  e_group_size : Z
}.

Definition sym (group k : Z) : ascii :=
  table_at Base64Table (Z.land (Z.shiftr group k) 0x3f).

Definition Encode_step (st : enc_state) (octet : byte) : enc_state :=
  let group := shl size_t_bits (e_group st) 8 in
  let group := Z.lor group (u8 octet) in
  let group_size := e_group_size st + 8 in
  if group_size =? 24 then
    mkEnc (e_output st ++
           [sym group 18; sym group 12; sym group 6; sym group 0]) 0 0
  else mkEnc (e_output st) group group_size.

Definition Encode_loop (input : list byte) (st : enc_state) : enc_state :=
  fold_left Encode_step input st.

Definition Encode_finish (st : enc_state) : list ascii :=
  if 0 <? e_group_size st then
    let group := shl size_t_bits (e_group st) (24 - e_group_size st) in
    let output := e_output st ++ [sym group 18; sym group 12] in
    if e_group_size st =? 8
    then output ++ [Base64PaddingCharacter; Base64PaddingCharacter]
    else output ++ [sym group 6; Base64PaddingCharacter]
  else e_output st.

Definition Encode (input : list byte) : string :=
  if len input =? 0 then EmptyString
  else string_of_list_ascii
         (Encode_finish (Encode_loop input (mkEnc [] 0 0))).

Definition Encode_sv (input : string) : string :=
  Encode (map byte_of_ascii (list_ascii_of_string input)).

Record state : Type := mkState {
  output : list byte;
  group : Z;
  group_size : Z
}.

Definition oct (group k : Z) : byte := to_u8 (Z.land (Z.shiftr group k) 0xff).

Definition Decode_step (st : state) (c : ascii) : state :=
  let octet := Base64ReverseTable (char_u8 c) in
  if octet =? InvalidBase64Character then st
  else
    let group := shl uint_fast32_bits (group st) 6 in
    let group := Z.lor group (Z.land octet 0x3f) in
    let group_size := group_size st + 6 in
    if group_size =? 24
    then mkState (output st ++ [oct group 16; oct group 8; oct group 0]) 0 0
    else mkState (output st) group group_size.

Fixpoint Decode_loop (input : list ascii) (st : state) : state :=
  match input with
  | [] => st
  | c :: input' =>
      if Ascii.eqb c Base64PaddingCharacter then st
      else Decode_loop input' (Decode_step st c)
  end.

Definition Decode_finish (st : state) : list byte :=
  if 0 <? group_size st then
    let group := shl uint_fast32_bits (group st) (24 - group_size st) in
    let output := output st ++ [oct group 16] in
    if 16 <=? group_size st then
      let output := output ++ [oct group 8] in
      if group_size st =? 24 then output ++ [oct group 0] else output
    else output
  else output st.

(** No path of [Base64::Decode] returns an error: the only [return {}] is the
    one for an empty input. *)
Definition Decode_run (input : string) : option (list byte) :=
  let input := list_ascii_of_string input in
  if len input =? 0 then Some []
  else Some (Decode_finish (Decode_loop input (mkState [] 0 0))).

Definition Decode (input : string) : list byte :=
  match Decode_run input with
  | Some output => output
  | None => []
  end.

End Base64.

(** ** Terra::Base58 *)

(** [l[i] = x] on a sequence; nothing is stored outside [0, length). *)
Fixpoint set_nth {A} (l : list A) (i : nat) (x : A) : list A :=
  match l, i with
  | [], _ => []
  | _ :: l', O => x :: l'
  | a :: l', S i' => a :: set_nth l' i' x
  end.

(** [resize(n, x)] of a [std::string] or [std::vector]. *)
Definition resize_to {A} (l : list A) (n : Z) (x : A) : list A :=
  firstn (Z.to_nat n) l ++ repeat x (Z.to_nat n - List.length l).

(** The operations [Base58::Encode] applies to its [std::string output].
    Two implementations follow: [plain_string] keeps the characters of the
    string, [traced_string] also records, for every [output[i] = c], the index
    [i] and the size of the string at that moment.  In the source every read
    of [output[i]] is in the statement before a write to the same [output[i]],
    so the recorded indices are all the indices the function uses. *)
Record string_ops : Type := mkStringOps {
  str : Type;
  make : Z -> ascii -> str;
  at_ : str -> Z -> ascii;
  assign : str -> Z -> ascii -> str;
  resize : str -> Z -> str;
  reverse : str -> str;
  chars : str -> list ascii
}.

(** The element at [size()] of a [std::string] is its terminator, which reads
    as the null character; a store there leaves the characters [0, size)
    as they are. *)
Definition plain_string : string_ops :=
  {| str := list ascii;
     make := fun n c => repeat c (Z.to_nat n);
     at_ := fun s i => nth (Z.to_nat i) s zero;
     assign := fun s i c => set_nth s (Z.to_nat i) c;
     resize := fun s n => resize_to s n zero;
     reverse := fun s => rev s;
     chars := fun s => s |}.

Definition traced_string : string_ops :=
  {| str := list ascii * list (Z * Z);
     make := fun n c => (repeat c (Z.to_nat n), []);
     at_ := fun s i => nth (Z.to_nat i) (fst s) zero;
     assign := fun s i c =>
       (set_nth (fst s) (Z.to_nat i) c, snd s ++ [(i, len (fst s))]);
     resize := fun s n => (resize_to (fst s) n zero, snd s);
     reverse := fun s => (rev (fst s), snd s);
     chars := fun s => fst s |}.

Module Base58.

Definition Base58Table : string :=
  "123456789ABCDEFGHJKLMNPQRSTUVWXYZabcdefghijkmnopqrstuvwxyz".

Definition InvalidBase58Character : Z := 255.

Definition B58ToInt (x : Z) : Z :=
  cond_chain
    (run "123456789ABCDEFGHJKLMNPQRSTUVWXYZabcdefghijkmnopqrstuvwxyz" 0)
    InvalidBase58Character x.

Definition Base58ReverseTable (i : Z) : Z := B58ToInt i.

(** [for (i = 0; (i < input_length) && (input[i] == 0); i++) zeros++;] *)
Fixpoint count_zeros (input : list byte) : Z :=
  match input with
  | [] => 0
  | octet :: input' => if u8 octet =? 0 then 1 + count_zeros input' else 0
  end.

Section Encode.

Variable S : string_ops.

Record conv : Type := mkConv {
  carry : Z;
  c_output : str S;
  c_output_length : Z
}.

(** The loop [for (j = zeros; j < max_output_length; j++)]; [fuel] is
    [max_output_length - j]. *)
Fixpoint Encode_inner (fuel : nat) (zeros j : Z) (st : conv) : conv :=
  match fuel with
  | O => st
  | Datatypes.S fuel' =>
      if (j =? c_output_length st) && (carry st =? 0) then st
      else
        let output_length :=
          if j =? c_output_length st
          then c_output_length st + 1 else c_output_length st in
        let carry :=
          wrap uint32_bits
            (carry st + Z.shiftl (char_u8 (at_ S (c_output st) (j - zeros))) 8) in
        let output :=
          assign S (c_output st) (j - zeros) (to_char (carry mod 58)) in
        let carry := carry / 58 in
        Encode_inner fuel' zeros (j + 1) (mkConv carry output output_length)
  end.

(** The loop [for (i = zeros; i < input_length; i++)], over the octets that
    follow the leading zeros. *)
Fixpoint Encode_loop (input : list byte) (zeros max_output_length : Z)
    (output : str S) (output_length : Z) : option (str S * Z) :=
  match input with
  | [] => Some (output, output_length)
  | octet :: input' =>
      let st :=
        Encode_inner (Z.to_nat (max_output_length - zeros)) zeros zeros
                     (mkConv (u8 octet) output output_length) in
      if 0 <? carry st then None
      else Encode_loop input' zeros max_output_length
                       (c_output st) (c_output_length st)
  end.

(** The loop [for (i = 0; i <= output_length; i++)]; [count] is the number
    of rounds left. *)
Fixpoint substitute (count : nat) (i : Z) (output : str S) : str S :=
  match count with
  | O => output
  | Datatypes.S count' =>
      substitute count' (i + 1)
        (assign S output i (table_at Base58Table (char_u8 (at_ S output i))))
  end.

Definition Encode_run (input : list byte) : option (str S) :=
  let input_length := len input in
  if input_length =? 0 then Some (make S 0 zero)
  else
    let max_output_length := wrap size_t_bits (input_length * 137) / 100 + 1 in
    let output := make S max_output_length zero in
    let zeros := count_zeros input in
    let output_length := zeros in
    match Encode_loop (skipn (Z.to_nat zeros) input) zeros max_output_length
                      output output_length with
    | None => None
    | Some (output, output_length) =>
        let output := resize S output output_length in
        let output :=
          substitute (Z.to_nat (output_length + 1)) 0 output in
        Some (reverse S output)
    end.

End Encode.

Definition Encode (input : list byte) : string :=
  match Encode_run plain_string input with
  | Some output => string_of_list_ascii output
  | None => EmptyString
  end.

Definition Encode_sv (input : string) : string :=
  Encode (map byte_of_ascii (list_ascii_of_string input)).

(** The pairs (index, size of the string) of the stores [output[i] = ...]
    of one call of [Encode]. *)
Definition Encode_accesses (input : list byte) : list (Z * Z) :=
  match Encode_run traced_string input with
  | Some output => snd output
  | None => []
  end.

(** [std::isspace] in the C locale. *)
Definition isspace (c : ascii) : bool :=
  (char_u8 c =? 32) || ((9 <=? char_u8 c) && (char_u8 c <=? 13)).

(** The loop that counts the leading ['1'] characters; it returns [zeros] and
    the input from [digits_start] on. *)
Fixpoint Decode_leading (input : list ascii) (zeros : Z) : Z * list ascii :=
  match input with
  | [] => (zeros, [])
  | c :: input' =>
      if Ascii.eqb c "1" then Decode_leading input' (zeros + 1)
      else if isspace c then Decode_leading input' zeros
      else (zeros, input)
  end.

Record dconv : Type := mkDconv {
  d_carry : Z;
  d_output : list byte;
  d_output_length : Z
}.

(** The loop [for (j = 0; j < max_output_length; j++)]. *)
Fixpoint Decode_inner (fuel : nat) (j : Z) (st : dconv) : dconv :=
  match fuel with
  | O => st
  | Datatypes.S fuel' =>
      if (j =? d_output_length st) && (d_carry st =? 0) then st
      else
        let output_length :=
          if j =? d_output_length st
          then d_output_length st + 1 else d_output_length st in
        let carry :=
          wrap uint32_bits
            (d_carry st + 58 * u8 (nth (Z.to_nat j) (d_output st) x00)) in
        let output :=
          set_nth (d_output st) (Z.to_nat j) (to_u8 (carry mod 256)) in
        let carry := carry / 256 in
        Decode_inner fuel' (j + 1) (mkDconv carry output output_length)
  end.

(** The loop [for (i = digits_start; i < input_length; i++)]. *)
Fixpoint Decode_loop (input : list ascii) (max_output_length : Z)
    (output : list byte) (output_length : Z) : option (list byte * Z) :=
  match input with
  | [] => Some (output, output_length)
  | c :: input' =>
      if isspace c
      then Decode_loop input' max_output_length output output_length
      else
        let carry := Base58ReverseTable (char_u8 c) in
        if carry =? InvalidBase58Character then None
        else
          let st :=
            Decode_inner (Z.to_nat max_output_length) 0
                         (mkDconv carry output output_length) in
          if 0 <? d_carry st then None
          else Decode_loop input' max_output_length
                           (d_output st) (d_output_length st)
  end.

Definition Decode_run (input : string) : option (list byte) :=
  let input := list_ascii_of_string input in
  let input_length := len input in
  if input_length =? 0 then Some []
  else
    let max_output_length := input_length in
    let output := repeat x00 (Z.to_nat max_output_length) in
    let (zeros, digits) := Decode_leading input 0 in
    match Decode_loop digits max_output_length output 0 with
    | None => None
    | Some (output, output_length) =>
        let output := resize_to output output_length x00 in
        let output :=
          if 0 <? zeros then resize_to output (len output + zeros) x00
          else output in
        Some (rev output)
    end.

Definition Decode (input : string) : list byte :=
  match Decode_run input with
  | Some output => output
  | None => []
  end.

End Base58.

(** * Specifications

    The functions that the properties below compare the code with, and the
    abstractions of the loop states used in their proofs. *)

(** ** Common *)

(** The big-endian value of a sequence of octets. *)
Definition be_value (l : list byte) : Z :=
  fold_left (fun acc b => acc * 256 + u8 b) l 0.

(** A symbol value [i] below [n] is mapped by the table to a character that
    the reverse table maps back to [i], and that is not [bad]. *)
Definition table_inverse (T : string) (R : Z -> Z) (bad : ascii) (i : Z) : bool :=
  (R (char_u8 (table_at T i)) =? i) && negb (Ascii.eqb (table_at T i) bad).

(** ** Base16 *)

(** The values of the characters of the input that are in the alphabet. *)
Definition b16_valid_nibbles (input : list ascii) : list Z :=
  filter (fun v => negb (v =? Base16.InvalidBase16Character))
         (map (fun c => Base16.Base16ReverseTable (char_u8 c)) input).

(** One octet for every two nibbles, high nibble first. *)
Fixpoint b16_octets_of_nibbles (ns : list Z) : list byte :=
  match ns with
  | hi :: lo :: ns' => to_u8 (16 * hi + lo) :: b16_octets_of_nibbles ns'
  | _ => []
  end.

(** The decoding loop seen from the list of nibbles it has consumed: [seen]
    are the nibbles taken in so far, an even number of them packed into the
    output and, when their number is odd, the last one waiting in [group]. *)
Definition b16_inv (seen : list Z) (st : Base16.state) : Prop :=
  Forall (fun n => 0 <= n < 16) seen /\
  Base16.output st = b16_octets_of_nibbles seen /\
  Base16.group_size st = 4 * (len seen mod 2) /\
  (len seen mod 2 = 1 ->
   exists seen', seen = seen' ++ [Base16.group st mod 16]).

Definition b16_chars (octet : byte) : list ascii :=
  [table_at Base16.Base16Table (u8 octet / 16);
   table_at Base16.Base16Table (u8 octet mod 16)].

(** ** Base32 *)

(** The eight characters for a group of one to five octets: the bits of the
    group, padded with zero bits to a multiple of five, are cut into 5-bit
    symbols, and ['='] fills the rest of the eight positions. *)
Definition b32_group_chars (l : list byte) : list ascii :=
  let n := len l in
  let nsym := (8 * n + 4) / 5 in
  let v := be_value l * 2 ^ (5 * nsym - 8 * n) in
  map (fun i =>
         table_at Base32.Base32Table
                  ((v / 2 ^ (5 * (nsym - 1 - Z.of_nat i))) mod 32))
      (seq 0 (Z.to_nat nsym))
  ++ repeat "="%char (Z.to_nat (8 - nsym)).

Fixpoint b32_encode_spec (input : list byte) : list ascii :=
  match input with
  | [] => []
  | a :: b :: c :: d :: e :: input' =>
      b32_group_chars [a; b; c; d; e] ++ b32_encode_spec input'
  | _ => b32_group_chars input
  end.

Definition b32_sym (group k : Z) : ascii :=
  table_at Base32.Base32Table (Z.land (Z.shiftr group k) 0x1f).

Definition b32_next (group : Z) (octet : byte) : Z :=
  Z.lor (shl size_t_bits group 8) (u8 octet).

Definition b32_last_sym (group k : Z) : ascii :=
  table_at Base32.Base32Table (Z.land (shl size_t_bits group k) 0x1f).

Definition b32_dnext (group s : Z) : Z :=
  Z.lor (shl uint_fast32_bits group 5) (Z.land s 0x1f).

Definition b32_oct (group k : Z) : byte :=
  to_u8 (Z.land (Z.shiftr group k) 0xff).

(** The check of the leftover bits at the end of [Base32::Decode]. *)
Definition b32_check (st : Base32.state) : option (list byte) :=
  if 0 <? Base32.group_size st then
    let mask := 2 ^ uint_fast32_bits - 1 in
    let mask := shl uint_fast32_bits mask (Base32.group_size st) in
    if negb (Z.land (Base32.group st) (wrap uint_fast32_bits (Z.lnot mask)) =? 0)
    then None
    else Some (Base32.output st)
  else Some (Base32.output st).

(** ** Base45 *)

(** The characters [Base45::Encode] appends for a pair of octets and for a
    single last octet, written as the description of the format has them. *)
Definition b45_chars3 (v : Z) : list ascii :=
  [table_at Base45.Base45Table (v mod 45);
   table_at Base45.Base45Table ((v / 45) mod 45);
   table_at Base45.Base45Table ((v / 2025) mod 45)].

Definition b45_chars2 (v : Z) : list ascii :=
  [table_at Base45.Base45Table (v mod 45);
   table_at Base45.Base45Table ((v / 45) mod 45)].

Fixpoint b45_encode_pairs (input : list byte) : list ascii :=
  match input with
  | hi :: lo :: input' =>
      b45_chars3 (256 * u8 hi + u8 lo) ++ b45_encode_pairs input'
  | [last] => b45_chars2 (u8 last)
  | [] => []
  end.

(** The values of the characters of the input that are in the alphabet. *)
Definition b45_valid_values (input : list ascii) : list Z :=
  filter (fun v => negb (v =? Base45.InvalidBase45Character))
         (map (fun c => Base45.Base45ReverseTable (char_u8 c)) input).

(** The two octets of a group of three values, whatever the magnitude of
    [c0 + c1*45 + c2*2025]. *)
Definition b45_pair_octets (c0 c1 c2 : Z) : list byte :=
  let v := c0 + c1 * 45 + c2 * 2025 in
  [to_u8 (Z.shiftr (v mod 65536) 8); to_u8 (Z.land v 0xff)].

(** The octets of the full groups of three values, and the values left
    after the last full group. *)
Fixpoint b45_full_groups (vs : list Z) : list byte :=
  match vs with
  | c0 :: c1 :: c2 :: vs' => b45_pair_octets c0 c1 c2 ++ b45_full_groups vs'
  | _ => []
  end.

Fixpoint b45_tail (vs : list Z) : list Z :=
  match vs with
  | _ :: _ :: _ :: vs' => b45_tail vs'
  | _ => vs
  end.

(** The values that wait in [group] for the rest of their group. *)
Definition b45_pending (st : Base45.state) (p : list Z) : Prop :=
  Forall (fun v => 0 <= v < 45) p /\
  match p with
  | [] => Base45.group_size st = 0 /\ Base45.group st = 0
  | [c0] => Base45.group_size st = 1 /\ Base45.group st = c0
  | [c0; c1] => Base45.group_size st = 2 /\ Base45.group st = c0 * 256 + c1
  | _ => False
  end.

(** What [Base45::Decode] returns, from the valid values of its input. *)
Definition b45_decode_spec (vs : list Z) : option (list byte) :=
  match b45_tail vs with
  | [] => Some (b45_full_groups vs)
  | [c0; c1] =>
      Some (b45_full_groups vs ++ [to_u8 (Z.land (c0 + c1 * 45) 0xff)])
  | _ => None
  end.

(** The values of the characters of an encoding. *)
Fixpoint b45_values_of (input : list byte) : list Z :=
  match input with
  | hi :: lo :: input' =>
      let v := 256 * u8 hi + u8 lo in
      v mod 45 :: (v / 45) mod 45 :: (v / 2025) mod 45 :: b45_values_of input'
  | [last] => [u8 last mod 45; (u8 last / 45) mod 45]
  | [] => []
  end.

(** ** Base64 *)

(** The input up to its first padding character. *)
Fixpoint upto_pad (input : list ascii) : list ascii :=
  match input with
  | [] => []
  | c :: input' => if Ascii.eqb c "=" then [] else c :: upto_pad input'
  end.

(** The values of the characters before the first ['='] that are in the
    alphabet. *)
Definition b64_valid_values (input : list ascii) : list Z :=
  filter (fun v => negb (v =? Base64.InvalidBase64Character))
         (map (fun c => Base64.Base64ReverseTable (char_u8 c))
              (upto_pad input)).

(** The 24 bits of four 6-bit values, and their three octets. *)
Definition b64_group24 (s0 s1 s2 s3 : Z) : Z :=
  ((s0 * 64 + s1) * 64 + s2) * 64 + s3.

Definition b64_octets3 (s0 s1 s2 s3 : Z) : list byte :=
  let g := b64_group24 s0 s1 s2 s3 in
  [to_u8 (g / 65536); to_u8 (g / 256); to_u8 g].

Fixpoint b64_full_groups (vs : list Z) : list byte :=
  match vs with
  | s0 :: s1 :: s2 :: s3 :: vs' => b64_octets3 s0 s1 s2 s3 ++ b64_full_groups vs'
  | _ => []
  end.

Fixpoint b64_tail (vs : list Z) : list Z :=
  match vs with
  | _ :: _ :: _ :: _ :: vs' => b64_tail vs'
  | _ => vs
  end.

Definition b64_pending (st : Base64.state) (p : list Z) : Prop :=
  Forall (fun v => 0 <= v < 64) p /\
  match p with
  | [] => Base64.group_size st = 0 /\ Base64.group st = 0
  | [s0] => Base64.group_size st = 6 /\ Base64.group st = s0
  | [s0; s1] => Base64.group_size st = 12 /\ Base64.group st = s0 * 64 + s1
  | [s0; s1; s2] =>
      Base64.group_size st = 18 /\ Base64.group st = (s0 * 64 + s1) * 64 + s2
  | _ => False
  end.

(** What [Base64::Decode] appends for the values left after the last full
    group of four: the whole octets among their bits, except that a single
    value, which has six bits only, still yields an octet. *)
Definition b64_trailing (t : list Z) : list byte :=
  match t with
  | [s0] => [to_u8 (s0 * 4)]
  | [s0; s1] => [to_u8 (s0 * 4 + s1 / 16)]
  | [s0; s1; s2] => [to_u8 (s0 * 4 + s1 / 16); to_u8 (s1 mod 16 * 16 + s2 / 4)]
  | _ => []
  end.

Definition b64_char (v : Z) : ascii := table_at Base64.Base64Table (v mod 64).

(** The four characters of a group of three, two or one octets. *)
Definition b64_chars_3 (a b c : byte) : list ascii :=
  let v := (u8 a * 256 + u8 b) * 256 + u8 c in
  [b64_char (v / 262144); b64_char (v / 4096); b64_char (v / 64); b64_char v].

Definition b64_chars_2 (a b : byte) : list ascii :=
  let v := (u8 a * 256 + u8 b) * 256 in
  [b64_char (v / 262144); b64_char (v / 4096); b64_char (v / 64); "="%char].

Definition b64_chars_1 (a : byte) : list ascii :=
  let v := u8 a * 65536 in
  [b64_char (v / 262144); b64_char (v / 4096); "="%char; "="%char].

Fixpoint b64_encode_spec (input : list byte) : list ascii :=
  match input with
  | a :: b :: c :: input' => b64_chars_3 a b c ++ b64_encode_spec input'
  | [a; b] => b64_chars_2 a b
  | [a] => b64_chars_1 a
  | [] => []
  end.

(** The values [Decode] reads from an encoding. *)
Fixpoint b64_values_of (input : list byte) : list Z :=
  match input with
  | a :: b :: c :: input' =>
      let v := (u8 a * 256 + u8 b) * 256 + u8 c in
      (v / 262144) mod 64 :: (v / 4096) mod 64 :: (v / 64) mod 64 :: v mod 64
      :: b64_values_of input'
  | [a; b] =>
      let v := (u8 a * 256 + u8 b) * 256 in
      [(v / 262144) mod 64; (v / 4096) mod 64; (v / 64) mod 64]
  | [a] =>
      let v := u8 a * 65536 in [(v / 262144) mod 64; (v / 4096) mod 64]
  | [] => []
  end.

(** ** Base58: positional arithmetic and the traced string *)

(** The value of a little-endian list of digits in base [B]. *)
Fixpoint digits_value (B : Z) (ds : list Z) : Z :=
  match ds with
  | [] => 0
  | d :: ds' => d + B * digits_value B ds'
  end.

(** [ds * K + c] over the digits that exist: the new digits and the carry
    that leaves the last of them. *)
Fixpoint muladd (B K : Z) (ds : list Z) (c : Z) : list Z * Z :=
  match ds with
  | [] => ([], c)
  | d :: ds' =>
      let t := c + K * d in
      let (r, c') := muladd B K ds' (t / B) in
      (t mod B :: r, c')
  end.

(** The digits a carry adds above the existing ones, in at most [room]
    places, and the carry left when the places run out. *)
Fixpoint extend (B : Z) (room : nat) (c : Z) : list Z * Z :=
  match room with
  | O => ([], c)
  | S room' =>
      if c =? 0 then ([], 0)
      else let (r, c') := extend B room' (c / B) in (c mod B :: r, c')
  end.

Definition digits_ok (B : Z) (ds : list Z) : Prop :=
  Forall (fun d => 0 <= d < B) ds.

(** No zero digit at the most significant end. *)
Definition canonical (B : Z) (ds : list Z) : Prop :=
  digits_ok B ds /\ last ds 1 <> 0.

Definition be_from (V : Z) (l : list byte) : Z :=
  fold_left (fun acc b => acc * 256 + u8 b) l V.

(** The character that the substitution loop stores for a character. *)
Definition b58_subst (c : ascii) : ascii :=
  table_at Base58.Base58Table (char_u8 c).

Definition b58_symbol_ok (i : Z) : bool :=
  (Base58.Base58ReverseTable (char_u8 (table_at Base58.Base58Table i)) =? i)
  && negb (Base58.isspace (table_at Base58.Base58Table i))
  && ((i =? 0) || negb (Ascii.eqb (table_at Base58.Base58Table i) "1")).

Definition horner (B V : Z) (ms : list Z) : Z :=
  fold_left (fun acc d => acc * B + d) ms V.

Definition b58_erase (r : option (str traced_string * Z)) :
    option (str plain_string * Z) :=
  match r with
  | Some (t, L) => Some (fst t, L)
  | None => None
  end.

(** ** Alphabets *)

(** Membership of a character in a forward table. *)
Definition in_table (T : string) (c : ascii) : bool :=
  existsb (Ascii.eqb c) (list_ascii_of_string T).

(** The upper-case form of a character (['a'..'z'] to ['A'..'Z']). *)
Definition toupper (c : ascii) : ascii :=
  if (97 <=? char_u8 c) && (char_u8 c <=? 122)
  then to_char (char_u8 c - 32) else c.

(** All 256 characters. *)
Definition all_ascii : list ascii := map ascii_of_nat (seq 0 256).

(** The characters [Base16::Decode] takes in: the alphabet in either case. *)
Definition b16_accepts (c : ascii) : bool :=
  in_table Base16.Base16Table (toupper c).

Definition b16_filter (input : string) : list ascii :=
  filter b16_accepts (list_ascii_of_string input).

(** ** Base32: the symbols read by [Decode] *)

(** The values of the characters before the first ['='] that are in the
    alphabet. *)
Definition b32_valid_values (input : list ascii) : list Z :=
  filter (fun v => negb (v =? Base32.InvalidBase32Character))
         (map (fun c => Base32.Base32ReverseTable (char_u8 c))
              (upto_pad input)).

(** One round of the loop of [Base32::Decode] for a character of value
    [v]. *)
Definition b32_take (st : Base32.state) (v : Z) : Base32.state :=
  let group := b32_dnext (Base32.group st) v in
  let group_size := Base32.group_size st + 5 in
  if 8 <=? group_size
  then Base32.mkState
         (Base32.output st ++ [b32_oct group (group_size - 8)])
         group (group_size - 8)
  else Base32.mkState (Base32.output st) group group_size.

(** The characters [Base32::Decode] takes in, and the ones it does not
    skip. *)
Definition b32_accepts (c : ascii) : bool :=
  in_table Base32.Base32Table (toupper c).

Definition b32_keeps (c : ascii) : bool :=
  b32_accepts c || Ascii.eqb c "=".

(** The number of 5-bit symbols and of padding characters that end the
    encoding of [n] octets. *)
Definition b32_symbols (n : Z) : Z := (8 * n + 4) / 5.
Definition b32_padding (n : Z) : Z := 8 * ((n + 4) / 5) - b32_symbols n.

(** ** Base64 and Base45: alphabets and lengths *)

Definition b64_accepts (c : ascii) : bool := in_table Base64.Base64Table c.

Definition b64_keeps (c : ascii) : bool := b64_accepts c || Ascii.eqb c "=".

(** The number of 6-bit symbols and of padding characters that end the
    encoding of [n] octets. *)
Definition b64_symbols (n : Z) : Z := (4 * n + 2) / 3.
Definition b64_padding (n : Z) : Z := 4 * ((n + 2) / 3) - b64_symbols n.

Definition b45_accepts (c : ascii) : bool := in_table Base45.Base45Table c.

(** ** Base58: the text read by [Decode] *)

Definition b58_accepts (c : ascii) : bool := in_table Base58.Base58Table c.

(** The input without its whitespace. *)
Definition b58_text (input : list ascii) : list ascii :=
  filter (fun c => negb (Base58.isspace c)) input.

(** The number of ['1'] characters at the head of a text. *)
Fixpoint b58_leading_ones (l : list ascii) : Z :=
  match l with
  | [] => 0
  | c :: l' => if Ascii.eqb c "1" then 1 + b58_leading_ones l' else 0
  end.

(** The values of the characters of a text, by the reverse table. *)
Definition b58_values (l : list ascii) : list Z :=
  map (fun c => Base58.Base58ReverseTable (char_u8 c)) l.

(** What an accepted character is to the tables. *)
Definition b58_accepted_ok (c : ascii) : bool :=
  implb (b58_accepts c)
    (negb (Base58.isspace c) &&
     Ascii.eqb (table_at Base58.Base58Table
                  (Base58.Base58ReverseTable (char_u8 c))) c &&
     Bool.eqb (Base58.Base58ReverseTable (char_u8 c) =? 0) (Ascii.eqb c "1") &&
     (0 <=? Base58.Base58ReverseTable (char_u8 c)) &&
     (Base58.Base58ReverseTable (char_u8 c) <? 58)).

(** * Properties *)

(** ** Octets, characters and bit operations *)

Lemma u8_range (b : byte) : 0 <= u8 b < 256.
Proof.
  unfold u8. pose proof (Byte.to_N_bounded b). lia.
Qed.

Lemma to_u8_u8 (b : byte) : to_u8 (u8 b) = b.
Proof.
  unfold to_u8. pose proof (u8_range b) as Hb.
  rewrite Z.mod_small by exact Hb.
  unfold u8. rewrite N2Z.id, Byte.of_to_N. reflexivity.
Qed.

Lemma u8_to_u8 (z : Z) : u8 (to_u8 z) = z mod 256.
Proof.
  unfold to_u8, u8.
  pose proof (Z.mod_pos_bound z 256 ltac:(lia)) as Hz.
  destruct (Byte.of_N (Z.to_N (z mod 256))) as [b|] eqn:E.
  - apply Byte.to_of_N in E. rewrite E. lia.
  - apply Byte.of_N_None_iff in E. lia.
Qed.

Lemma to_u8_mod (z : Z) : to_u8 (z mod 256) = to_u8 z.
Proof.
  unfold to_u8. rewrite Z.mod_mod by lia. reflexivity.
Qed.

Lemma char_u8_range (c : ascii) : 0 <= char_u8 c < 256.
Proof.
  unfold char_u8. pose proof (N_ascii_bounded c). lia.
Qed.

Lemma char_u8_to_char (z : Z) : char_u8 (to_char z) = z mod 256.
Proof.
  unfold char_u8, to_char.
  pose proof (Z.mod_pos_bound z 256 ltac:(lia)) as Hz.
  rewrite N_ascii_embedding by lia. lia.
Qed.

Lemma land_15 (x : Z) : Z.land x 15 = x mod 16.
Proof. exact (Z.land_ones x 4 ltac:(lia)). Qed.

Lemma land_31 (x : Z) : Z.land x 31 = x mod 32.
Proof. exact (Z.land_ones x 5 ltac:(lia)). Qed.

Lemma land_63 (x : Z) : Z.land x 63 = x mod 64.
Proof. exact (Z.land_ones x 6 ltac:(lia)). Qed.

Lemma land_255 (x : Z) : Z.land x 255 = x mod 256.
Proof. exact (Z.land_ones x 8 ltac:(lia)). Qed.

(** A bitwise or of a multiple of [2^k] and a value below [2^k] is their
    sum. *)
Lemma lor_add_low (a b k : Z) :
  0 <= k -> a mod 2 ^ k = 0 -> 0 <= b < 2 ^ k -> Z.lor a b = a + b.
Proof.
  intros Hk Ha Hb.
  assert (Hl : Z.land a b = 0).
  { apply Z.bits_inj'. intros i Hi.
    rewrite Z.land_spec, Z.bits_0.
    destruct (Z.ltb_spec i k).
    - rewrite <- (Z.mod_pow2_bits_low a k i) by lia.
      rewrite Ha, Z.bits_0. reflexivity.
    - rewrite <- (Z.mod_small b (2 ^ k)) by lia.
      rewrite Z.mod_pow2_bits_high by lia. apply andb_false_r. }
  pose proof (Z.add_lor_land a b). lia.
Qed.

Lemma shl_mul (w x k : Z) : 0 <= k -> shl w x k = (x * 2 ^ k) mod 2 ^ w.
Proof.
  intros Hk. unfold shl, wrap. rewrite Z.shiftl_mul_pow2 by lia. reflexivity.
Qed.

Lemma shl_low_zero (w x k : Z) : 0 <= k <= w -> shl w x k mod 2 ^ k = 0.
Proof.
  intros Hk. rewrite shl_mul by lia.
  assert (Hp : 0 < 2 ^ k) by (apply Z.pow_pos_nonneg; lia).
  replace (2 ^ w) with (2 ^ k * 2 ^ (w - k))
    by (rewrite <- Z.pow_add_r by lia; f_equal; lia).
  assert (Hq : 0 < 2 ^ (w - k)) by (apply Z.pow_pos_nonneg; lia).
  rewrite (Z.mod_eq (x * 2 ^ k) (2 ^ k * 2 ^ (w - k))) by lia.
  set (q := x * 2 ^ k / (2 ^ k * 2 ^ (w - k))).
  replace (x * 2 ^ k - 2 ^ k * 2 ^ (w - k) * q)
    with ((x - 2 ^ (w - k) * q) * 2 ^ k) by ring.
  apply Z.mod_mul. lia.
Qed.

Lemma lor_shl_add (w x k b : Z) :
  0 <= k <= w -> 0 <= b < 2 ^ k ->
  Z.lor (shl w x k) b = (x * 2 ^ k) mod 2 ^ w + b.
Proof.
  intros Hk Hb.
  rewrite (lor_add_low _ _ k) by (try apply shl_low_zero; lia).
  rewrite shl_mul by lia. reflexivity.
Qed.

(** Rewriting of the bit operations of the source into arithmetic. *)
Ltac to_arith :=
  repeat first
    [ rewrite land_15 | rewrite land_31 | rewrite land_63 | rewrite land_255
    | rewrite Z.shiftr_div_pow2 by lia
    | rewrite shl_mul by lia ].

(** ** Reverse tables *)

Lemma cond_chain_cases (chain : list (ascii * Z)) (invalid x : Z) :
  cond_chain chain invalid x = invalid \/
  In (cond_chain chain invalid x) (map snd chain).
Proof.
  induction chain as [|[c v] chain IH]; simpl.
  - left. reflexivity.
  - destruct (x =? char_u8 c).
    + right. left. reflexivity.
    + destruct IH as [IH|IH]; [left | right; right]; exact IH.
Qed.

Lemma cond_chain_bound (chain : list (ascii * Z)) (invalid x n : Z) :
  forallb (fun v => (0 <=? v) && (v <? n)) (map snd chain) = true ->
  cond_chain chain invalid x <> invalid ->
  0 <= cond_chain chain invalid x < n.
Proof.
  intros Hall Hne.
  destruct (cond_chain_cases chain invalid x) as [H|H]; [contradiction|].
  rewrite forallb_forall in Hall. specialize (Hall _ H). lia.
Qed.

(** ** Base16 *)

Lemma b16_nibble_range (x : Z) :
  Base16.Base16ReverseTable x <> Base16.InvalidBase16Character ->
  0 <= Base16.Base16ReverseTable x < 16.
Proof.
  apply cond_chain_bound. reflexivity.
Qed.

Lemma b16_group_octet (g hi lo : Z) :
  0 <= hi < 16 -> 0 <= lo < 16 -> g mod 16 = hi ->
  Z.land (Z.lor (shl uint_fast32_bits g 4) (Z.land lo 15)) 255 = 16 * hi + lo.
Proof.
  intros Hhi Hlo Hg. unfold uint_fast32_bits.
  rewrite land_15, lor_shl_add, land_255
    by (try apply Z.mod_pos_bound; lia).
  change (2 ^ 4) with 16. change (2 ^ 64) with 18446744073709551616.
  Z.div_mod_to_equations. lia.
Qed.

Lemma b16_group_pending (g lo : Z) :
  0 <= lo < 16 ->
  Z.lor (shl uint_fast32_bits g 4) (Z.land lo 15) mod 16 = lo.
Proof.
  intros Hlo. unfold uint_fast32_bits.
  rewrite land_15, lor_shl_add by (try apply Z.mod_pos_bound; lia).
  change (2 ^ 4) with 16. change (2 ^ 64) with 18446744073709551616.
  Z.div_mod_to_equations. lia.
Qed.

Lemma b16_octets_of_nibbles_pair (ns : list Z) (hi lo : Z) :
  Z.even (len ns) = true ->
  b16_octets_of_nibbles (ns ++ [hi; lo]) =
  b16_octets_of_nibbles ns ++ [to_u8 (16 * hi + lo)].
Proof.
  revert ns.
  fix IH 1. intros [|a [|b ns]] Hev.
  - reflexivity.
  - discriminate Hev.
  - change (b16_octets_of_nibbles ((a :: b :: ns) ++ [hi; lo]))
      with (to_u8 (16 * a + b) :: b16_octets_of_nibbles (ns ++ [hi; lo])).
    rewrite IH.
    + reflexivity.
    + unfold len in *. simpl List.length in Hev.
      rewrite !Nat2Z.inj_succ in Hev.
      rewrite <- Z.even_succ_succ. exact Hev.
Qed.

Lemma b16_octets_of_nibbles_snoc (ns : list Z) (n : Z) :
  Z.even (len ns) = true ->
  b16_octets_of_nibbles (ns ++ [n]) = b16_octets_of_nibbles ns.
Proof.
  revert ns.
  fix IH 1. intros [|a [|b ns]] Hev.
  - reflexivity.
  - discriminate Hev.
  - change (b16_octets_of_nibbles ((a :: b :: ns) ++ [n]))
      with (to_u8 (16 * a + b) :: b16_octets_of_nibbles (ns ++ [n])).
    rewrite IH.
    + reflexivity.
    + unfold len in *. simpl List.length in Hev.
      rewrite !Nat2Z.inj_succ in Hev.
      rewrite <- Z.even_succ_succ. exact Hev.
Qed.

Lemma b16_octets_of_nibbles_length (ns : list Z) :
  len (b16_octets_of_nibbles ns) = len ns / 2.
Proof.
  revert ns.
  fix IH 1. intros [|a [|b ns]].
  - reflexivity.
  - reflexivity.
  - change (b16_octets_of_nibbles (a :: b :: ns))
      with (to_u8 (16 * a + b) :: b16_octets_of_nibbles ns).
    unfold len in *. simpl List.length. rewrite !Nat2Z.inj_succ, IH.
    Z.div_mod_to_equations. lia.
Qed.

Lemma len_app {A} (l1 l2 : list A) : len (l1 ++ l2) = len l1 + len l2.
Proof.
  unfold len. rewrite length_app. lia.
Qed.

Lemma len_nonneg {A} (l : list A) : 0 <= len l.
Proof.
  unfold len. lia.
Qed.

Lemma even_of_mod2 (x : Z) : x mod 2 = 0 -> Z.even x = true.
Proof.
  intros H. rewrite Zeven_mod, H. reflexivity.
Qed.

Lemma mod2_cases (x : Z) : x mod 2 = 0 \/ x mod 2 = 1.
Proof.
  pose proof (Z.mod_pos_bound x 2). lia.
Qed.

Lemma b16_step_inv (seen : list Z) (st : Base16.state) (c : ascii) :
  b16_inv seen st ->
  b16_inv (seen ++ b16_valid_nibbles [c]) (Base16.Decode_step st c).
Proof.
  intros (Hr & Ho & Hs & Hp).
  unfold b16_valid_nibbles, Base16.Decode_step. simpl map. simpl filter.
  destruct (Base16.Base16ReverseTable (char_u8 c)
            =? Base16.InvalidBase16Character) eqn:E; simpl negb; cbv iota.
  - rewrite app_nil_r. repeat split; assumption.
  - apply Z.eqb_neq in E. pose proof (b16_nibble_range _ E) as Hn.
    set (n := Base16.Base16ReverseTable (char_u8 c)) in *.
    assert (Hr' : Forall (fun n => 0 <= n < 16) (seen ++ [n])).
    { apply Forall_app. split; [assumption|]. constructor; [lia|constructor]. }
    destruct (mod2_cases (len seen)) as [H0|H1].
    + rewrite Hs, H0. change (4 * 0 + 4 =? 8) with false. cbv iota.
      unfold b16_inv. cbn [Base16.output Base16.group Base16.group_size].
      rewrite len_app. change (len [n]) with 1.
      assert (Hm : (len seen + 1) mod 2 = 1)
        by (Z.div_mod_to_equations; lia).
      rewrite Hm. repeat split; try assumption; try lia.
      * rewrite b16_octets_of_nibbles_snoc by (apply even_of_mod2; exact H0).
        exact Ho.
      * exists seen. rewrite b16_group_pending by lia. reflexivity.
    + destruct (Hp H1) as [seen' Hseen'].
      assert (Hev : len seen' mod 2 = 0).
      { rewrite Hseen', len_app in H1. change (len [_]) with 1 in H1.
        Z.div_mod_to_equations. lia. }
      assert (Hpr : 0 <= Base16.group st mod 16 < 16)
        by (apply Z.mod_pos_bound; lia).
      rewrite Hs, H1. change (4 * 1 + 4 =? 8) with true. cbv iota.
      unfold b16_inv. cbn [Base16.output Base16.group Base16.group_size].
      rewrite len_app. change (len [n]) with 1.
      assert (Hm : (len seen + 1) mod 2 = 0)
        by (Z.div_mod_to_equations; lia).
      rewrite Hm. repeat split; try assumption; try lia.
      rewrite Ho, Hseen', <- app_assoc. simpl app.
      rewrite b16_octets_of_nibbles_snoc, b16_octets_of_nibbles_pair
        by (apply even_of_mod2; exact Hev).
      rewrite (b16_group_octet _ (Base16.group st mod 16) n) by lia.
      reflexivity.
Qed.

Lemma b16_valid_nibbles_cons (c : ascii) (input : list ascii) :
  b16_valid_nibbles (c :: input) =
  b16_valid_nibbles [c] ++ b16_valid_nibbles input.
Proof.
  unfold b16_valid_nibbles. simpl.
  destruct (negb _); reflexivity.
Qed.

Lemma b16_loop_inv (input : list ascii) (seen : list Z) (st : Base16.state) :
  b16_inv seen st ->
  b16_inv (seen ++ b16_valid_nibbles input) (Base16.Decode_loop input st).
Proof.
  revert seen st. induction input as [|c input IH]; intros seen st Hinv.
  - simpl. rewrite app_nil_r. exact Hinv.
  - rewrite b16_valid_nibbles_cons, app_assoc.
    change (Base16.Decode_loop (c :: input) st)
      with (Base16.Decode_loop input (Base16.Decode_step st c)).
    apply IH, b16_step_inv, Hinv.
Qed.

Lemma b16_inv_init : b16_inv [] (Base16.mkState [] 0 0).
Proof.
  repeat split; try constructor. intros H. discriminate H.
Qed.

Lemma b16_decode_run_spec (input : string) :
  Base16.Decode_run input =
  if Z.odd (len (b16_valid_nibbles (list_ascii_of_string input)))
  then None
  else Some (b16_octets_of_nibbles
               (b16_valid_nibbles (list_ascii_of_string input))).
Proof.
  unfold Base16.Decode_run.
  set (l := list_ascii_of_string input).
  destruct (len l =? 0) eqn:El.
  - destruct l; [reflexivity | discriminate El].
  - pose proof (b16_loop_inv l [] _ b16_inv_init) as (_ & Ho & Hs & _).
    simpl app in *. rewrite Hs, Ho.
    destruct (mod2_cases (len (b16_valid_nibbles l))) as [H|H]; rewrite H.
    + rewrite Zodd_mod, H. reflexivity.
    + rewrite Zodd_mod, H. reflexivity.
Qed.

(** C5: [Base16::Decode] takes its error return exactly when the number of
    valid hex digits of the input is odd, and then returns the empty vector
    (as for ["FF80F"]); when that number is even, it returns one octet for
    every two valid digits, the first of the two in the high nibble. *)
Theorem b16_decode_odd_nibbles_fail (input : string) :
  let ns := b16_valid_nibbles (list_ascii_of_string input) in
  (Base16.Decode_run input = None <-> Z.odd (len ns) = true) /\
  (Z.odd (len ns) = true -> Base16.Decode input = []) /\
  (Z.odd (len ns) = false ->
   Base16.Decode input = b16_octets_of_nibbles ns /\
   2 * len (Base16.Decode input) = len ns) /\
  Base16.Decode_run "FF80F" = None /\
  Base16.Decode "FF80F" = [].
Proof.
  intros ns. unfold Base16.Decode. rewrite b16_decode_run_spec. fold ns.
  destruct (Z.odd (len ns)) eqn:E.
  - repeat split; intros; try reflexivity; try discriminate.
  - repeat split; intros; try reflexivity; try discriminate.
    rewrite b16_octets_of_nibbles_length.
    rewrite Zodd_mod in E. apply Z.eqb_neq in E.
    Z.div_mod_to_equations. lia.
Qed.

(** ** Base45 *)

Lemma lor_shl8_small (w g v : Z) :
  8 <= w -> 0 <= g -> g * 256 < 2 ^ w -> 0 <= v < 256 ->
  Z.lor (shl w g 8) v = g * 256 + v.
Proof.
  intros Hw Hg Hs Hv.
  rewrite lor_shl_add by (change (2 ^ 8) with 256; lia).
  change (2 ^ 8) with 256. rewrite Z.mod_small by lia. reflexivity.
Qed.

Lemma b45_encode_loop_pairs (input : list byte) (out : list ascii) :
  Base45.Encode_finish (Base45.Encode_loop input (Base45.mkEnc out 0 0)) =
  out ++ b45_encode_pairs input.
Proof.
  revert input out. fix IH 1. intros [|hi [|lo input]] out.
  - simpl. rewrite app_nil_r. reflexivity.
  - pose proof (u8_range hi) as Hhi.
    unfold Base45.Encode_loop. simpl fold_left.
    unfold Base45.Encode_step. cbn [Base45.e_group Base45.e_group_size
                                    Base45.e_output].
    change (0 + 1 =? 2) with false. cbv iota.
    unfold Base45.Encode_finish.
    cbn [Base45.e_group Base45.e_group_size Base45.e_output].
    change (0 <? 0 + 1) with true. cbv iota.
    rewrite (lor_shl8_small size_t_bits 0 (u8 hi))
      by (unfold size_t_bits; lia).
    rewrite <- app_assoc. reflexivity.
  - pose proof (u8_range hi) as Hhi. pose proof (u8_range lo) as Hlo.
    change (Base45.Encode_loop (hi :: lo :: input) (Base45.mkEnc out 0 0))
      with (Base45.Encode_loop input
              (Base45.Encode_step
                 (Base45.Encode_step (Base45.mkEnc out 0 0) hi) lo)).
    unfold Base45.Encode_step at 2.
    cbn [Base45.e_group Base45.e_group_size Base45.e_output].
    change (0 + 1 =? 2) with false. cbv iota.
    rewrite (lor_shl8_small size_t_bits 0 (u8 hi))
      by (unfold size_t_bits; lia).
    unfold Base45.Encode_step.
    cbn [Base45.e_group Base45.e_group_size Base45.e_output].
    change (0 + 1 + 1 =? 2) with true. cbv iota.
    rewrite (lor_shl8_small size_t_bits (0 * 256 + u8 hi) (u8 lo))
      by (unfold size_t_bits; lia).
    rewrite IH.
    change (b45_encode_pairs (hi :: lo :: input))
      with (b45_chars3 (256 * u8 hi + u8 lo) ++ b45_encode_pairs input).
    unfold b45_chars3.
    replace ((0 * 256 + u8 hi) * 256 + u8 lo) with (256 * u8 hi + u8 lo)
      by ring.
    rewrite <- !app_assoc. reflexivity.
Qed.

Lemma b45_encode_spec_eq (input : list byte) :
  Base45.Encode input = string_of_list_ascii (b45_encode_pairs input).
Proof.
  unfold Base45.Encode. destruct input as [|b input].
  - reflexivity.
  - replace (len (b :: input) =? 0) with false
      by (symmetry; apply Z.eqb_neq; unfold len; simpl; lia).
    rewrite b45_encode_loop_pairs. reflexivity.
Qed.

(** C7: [Base45::Encode] takes the octets two at a time; a pair with the
    big-endian value [v] appends [table[v % 45]], [table[(v / 45) % 45]],
    [table[(v / 2025) % 45]] in this order, a single last octet [v] appends
    [table[v % 45]], [table[(v / 45) % 45]]; and ["AB"] encodes to ["BB8"]. *)
Theorem b45_encode_by_pairs (input : list byte) :
  Base45.Encode input = string_of_list_ascii (b45_encode_pairs input) /\
  (forall (hi lo : byte) (input' : list byte),
     b45_encode_pairs (hi :: lo :: input') =
     [table_at Base45.Base45Table ((256 * u8 hi + u8 lo) mod 45);
      table_at Base45.Base45Table (((256 * u8 hi + u8 lo) / 45) mod 45);
      table_at Base45.Base45Table (((256 * u8 hi + u8 lo) / 2025) mod 45)]
     ++ b45_encode_pairs input') /\
  (forall last : byte,
     b45_encode_pairs [last] =
     [table_at Base45.Base45Table (u8 last mod 45);
      table_at Base45.Base45Table ((u8 last / 45) mod 45)]) /\
  Base45.Encode_sv "AB" = "BB8"%string.
Proof.
  split; [apply b45_encode_spec_eq|].
  split; [intros hi lo input'; reflexivity|].
  split; [intros last; reflexivity | reflexivity].
Qed.

Lemma b45_value_range (x : Z) :
  Base45.Base45ReverseTable x <> Base45.InvalidBase45Character ->
  0 <= Base45.Base45ReverseTable x < 45.
Proof.
  apply cond_chain_bound. reflexivity.
Qed.

Lemma b45_tail_length (vs : list Z) : len (b45_tail vs) = len vs mod 3.
Proof.
  revert vs. fix IH 1. intros [|c0 [|c1 [|c2 vs]]]; try reflexivity.
  change (b45_tail (c0 :: c1 :: c2 :: vs)) with (b45_tail vs).
  rewrite IH. unfold len. simpl List.length. rewrite !Nat2Z.inj_succ.
  Z.div_mod_to_equations. lia.
Qed.

Lemma b45_group_octets (c0 c1 c2 : Z) :
  0 <= c0 < 45 -> 0 <= c1 < 45 -> 0 <= c2 < 45 ->
  let group := Z.lor (shl uint_fast32_bits (c0 * 256 + c1) 8) c2 in
  let octet_pair :=
    wrap uint_fast16_bits
      (Z.land (Z.shiftr group 16) 0xff +
       Z.land (Z.shiftr group 8) 0xff * 45 +
       Z.land group 0xff * 2025) in
  [to_u8 (Z.land (Z.shiftr octet_pair 8) 0xff); to_u8 (Z.land octet_pair 0xff)]
  = b45_pair_octets c0 c1 c2.
Proof.
  intros H0 H1 H2. cbv zeta.
  rewrite (lor_shl8_small uint_fast32_bits) by (unfold uint_fast32_bits; lia).
  unfold wrap, uint_fast16_bits, b45_pair_octets. cbv zeta. to_arith.
  change (2 ^ 16) with 65536. change (2 ^ 8) with 256.
  change (2 ^ 64) with 18446744073709551616.
  assert (E16 : ((c0 * 256 + c1) * 256 + c2) / 65536 mod 256 = c0)
    by (Z.div_mod_to_equations; lia).
  assert (E8 : ((c0 * 256 + c1) * 256 + c2) / 256 mod 256 = c1)
    by (Z.div_mod_to_equations; lia).
  assert (E0 : ((c0 * 256 + c1) * 256 + c2) mod 256 = c2)
    by (Z.div_mod_to_equations; lia).
  rewrite E16, E8, E0.
  rewrite (Z.mod_small (c0 + c1 * 45 + c2 * 2025)) by lia.
  f_equal.
  rewrite <- (to_u8_mod (_ / 256)).
  f_equal. Z.div_mod_to_equations. lia.
Qed.

Lemma b45_valid_values_cons (c : ascii) (input : list ascii) :
  b45_valid_values (c :: input) =
  b45_valid_values [c] ++ b45_valid_values input.
Proof.
  unfold b45_valid_values. simpl. destruct (negb _); reflexivity.
Qed.

Lemma b45_valid_values_app (l1 l2 : list ascii) :
  b45_valid_values (l1 ++ l2) = b45_valid_values l1 ++ b45_valid_values l2.
Proof.
  unfold b45_valid_values. rewrite map_app, filter_app. reflexivity.
Qed.

Lemma b45_step_valid (c : ascii) :
  Base45.Base45ReverseTable (char_u8 c) <> Base45.InvalidBase45Character ->
  b45_valid_values [c] = [Base45.Base45ReverseTable (char_u8 c)].
Proof.
  intros H. unfold b45_valid_values. simpl.
  apply Z.eqb_neq in H. rewrite H. reflexivity.
Qed.

Lemma b45_loop_spec (input : list ascii) (st : Base45.state) (p : list Z) :
  b45_pending st p ->
  Base45.output (Base45.Decode_loop input st) =
    Base45.output st ++ b45_full_groups (p ++ b45_valid_values input) /\
  b45_pending (Base45.Decode_loop input st)
              (b45_tail (p ++ b45_valid_values input)).
Proof.
  revert st p. induction input as [|c input IH]; intros st p Hp.
  - simpl. rewrite app_nil_r.
    destruct Hp as [Hr Hp].
    destruct p as [|c0 [|c1 [|c2 p]]]; try contradiction;
      simpl; rewrite app_nil_r; repeat split; tauto.
  - change (Base45.Decode_loop (c :: input) st)
      with (Base45.Decode_loop input (Base45.Decode_step st c)).
    rewrite b45_valid_values_cons.
    unfold Base45.Decode_step.
    destruct (Base45.Base45ReverseTable (char_u8 c)
              =? Base45.InvalidBase45Character) eqn:E.
    + unfold b45_valid_values at 1 3. simpl map. simpl filter.
      rewrite E. simpl app. apply IH, Hp.
    + apply Z.eqb_neq in E. rewrite (b45_step_valid c E).
      pose proof (b45_value_range _ E) as Hv.
      set (v := Base45.Base45ReverseTable (char_u8 c)) in *.
      destruct Hp as [Hr Hp].
      destruct p as [|c0 [|c1 [|c2 p]]]; try contradiction.
      * destruct Hp as [Hs Hg]. rewrite Hs, Hg.
        change (0 + 1 =? 3) with false. cbv iota.
        rewrite (lor_shl8_small uint_fast32_bits 0 v)
          by (unfold uint_fast32_bits; lia).
        specialize (IH (Base45.mkState (Base45.output st) (0 * 256 + v) (0 + 1))
                       [v]).
        apply IH. split; [constructor; [lia | constructor]|].
        split; [reflexivity | simpl; lia].
      * destruct Hp as [Hs Hg]. rewrite Hs, Hg.
        change (1 + 1 =? 3) with false. cbv iota.
        pose proof (Forall_inv Hr) as H0. cbv beta in H0.
        rewrite (lor_shl8_small uint_fast32_bits c0 v)
          by (unfold uint_fast32_bits; lia).
        specialize (IH (Base45.mkState (Base45.output st) (c0 * 256 + v) (1 + 1))
                       [c0; v]).
        apply IH. split; [repeat constructor; lia|].
        split; reflexivity.
      * destruct Hp as [Hs Hg]. rewrite Hs, Hg.
        change (2 + 1 =? 3) with true. cbv iota.
        pose proof (Forall_inv Hr) as H0. cbv beta in H0.
        pose proof (Forall_inv (Forall_inv_tail Hr)) as H1. cbv beta in H1.
        rewrite <- app_assoc. cbn [app].
        rewrite (b45_group_octets c0 c1 v H0 H1 Hv).
        match goal with
        | |- context [Base45.Decode_loop input ?s] =>
            specialize (IH s [])
        end.
        cbn [Base45.output] in IH.
        change (b45_full_groups (c0 :: c1 :: v :: b45_valid_values input))
          with (b45_pair_octets c0 c1 v ++
                b45_full_groups ([] ++ b45_valid_values input)).
        change (b45_tail (c0 :: c1 :: v :: b45_valid_values input))
          with (b45_tail ([] ++ b45_valid_values input)).
        rewrite app_assoc. apply IH.
        split; [constructor | split; reflexivity].
Qed.

Lemma b45_pending_init : b45_pending (Base45.mkState [] 0 0) [].
Proof.
  split; [constructor | split; reflexivity].
Qed.

Lemma b45_decode_run_spec (input : string) :
  Base45.Decode_run input =
  b45_decode_spec (b45_valid_values (list_ascii_of_string input)).
Proof.
  unfold Base45.Decode_run, b45_decode_spec.
  set (l := list_ascii_of_string input).
  destruct (len l =? 0) eqn:El.
  - destruct l; [reflexivity | discriminate El].
  - destruct (b45_loop_spec l _ [] b45_pending_init) as [Ho [Hr Hp]].
    simpl app in *.
    destruct (b45_tail (b45_valid_values l)) as [|c0 [|c1 [|c2 t]]];
      try contradiction.
    + destruct Hp as [Hs _]. rewrite Hs, Ho. reflexivity.
    + destruct Hp as [Hs _]. rewrite Hs. reflexivity.
    + destruct Hp as [Hs Hg]. rewrite Hs, Hg, Ho.
      change (0 <? 2) with true. change (negb (2 =? 2)) with false.
      cbv iota.
      pose proof (Forall_inv Hr) as H0. cbv beta in H0.
      pose proof (Forall_inv (Forall_inv_tail Hr)) as H1. cbv beta in H1.
      do 3 f_equal. to_arith. change (2 ^ 8) with 256.
      f_equal. Z.div_mod_to_equations. lia.
Qed.

(** C6: after the full groups of three valid characters, [Base45::Decode]
    appends the octet [(c0 + c1*45) & 0xff] for two valid characters left
    over, takes its error return and yields the empty vector for one valid
    character left over, and returns the octets of the full groups when
    none is left over; fewer than three are ever left over. *)
Theorem b45_decode_trailing_group (input : string) :
  let vs := b45_valid_values (list_ascii_of_string input) in
  len (b45_tail vs) = len vs mod 3 /\
  match b45_tail vs with
  | [] => Base45.Decode_run input = Some (b45_full_groups vs)
  | [c0] => Base45.Decode_run input = None /\ Base45.Decode input = []
  | [c0; c1] =>
      Base45.Decode_run input =
      Some (b45_full_groups vs ++ [to_u8 (Z.land (c0 + c1 * 45) 0xff)])
  | _ => False
  end.
Proof.
  intros vs. split; [apply b45_tail_length|].
  pose proof (b45_tail_length vs) as Hl.
  unfold Base45.Decode. rewrite b45_decode_run_spec. fold vs.
  unfold b45_decode_spec.
  destruct (b45_tail vs) as [|c0 [|c1 [|c2 t]]]; try tauto.
  unfold len in Hl. simpl List.length in Hl.
  pose proof (Z.mod_pos_bound (Z.of_nat (List.length vs)) 3). lia.
Qed.

Lemma list_ascii_of_string_app (s1 s2 : string) :
  list_ascii_of_string (s1 ++ s2) =
  (list_ascii_of_string s1 ++ list_ascii_of_string s2)%list.
Proof.
  induction s1 as [|c s1 IH]; simpl; [reflexivity | rewrite IH; reflexivity].
Qed.

Lemma b45_groups_app (l1 l2 : list Z) :
  len l1 mod 3 = 0 ->
  b45_full_groups (l1 ++ l2) = b45_full_groups l1 ++ b45_full_groups l2 /\
  b45_tail (l1 ++ l2) = b45_tail l2.
Proof.
  revert l1. fix IH 1. intros [|c0 [|c1 [|c2 l1]]] H.
  - split; reflexivity.
  - discriminate H.
  - discriminate H.
  - assert (H' : len l1 mod 3 = 0).
    { unfold len in *. simpl List.length in H. rewrite !Nat2Z.inj_succ in H.
      Z.div_mod_to_equations. lia. }
    destruct (IH l1 H') as [E1 E2].
    change (b45_full_groups ((c0 :: c1 :: c2 :: l1) ++ l2))
      with (b45_pair_octets c0 c1 c2 ++ b45_full_groups (l1 ++ l2)).
    change (b45_tail ((c0 :: c1 :: c2 :: l1) ++ l2)) with (b45_tail (l1 ++ l2)).
    change (b45_full_groups (c0 :: c1 :: c2 :: l1))
      with (b45_pair_octets c0 c1 c2 ++ b45_full_groups l1).
    rewrite E1, E2, <- app_assoc. split; reflexivity.
Qed.

Lemma b45_decode_spec_none (vs : list Z) :
  b45_decode_spec vs = None <-> len vs mod 3 = 1.
Proof.
  pose proof (b45_tail_length vs) as Hl. unfold b45_decode_spec.
  pose proof (Z.mod_pos_bound (len vs) 3 ltac:(lia)) as Hm.
  destruct (b45_tail vs) as [|t0 [|t1 [|t2 t]]];
    unfold len in Hl at 1; cbn [List.length] in Hl;
    (split; [intros H | intros H]); try discriminate H; try reflexivity; lia.
Qed.

(** C10: a full group of three valid characters is never refused for the
    magnitude of [v = c0 + c1*45 + c2*2025].  Where the group stands after a
    whole number of groups and ends the input, [Base45::Decode] succeeds and
    returns, after the octets of the groups before, the two octets
    [(v mod 65536) >> 8] and [v & 0xff]; with more input after the group it
    returns these octets followed by the octets of that input, and it takes
    the error return exactly when a single valid character is left over at
    the end, whatever [v] is.  So ["GGW"], whose value is 65536, decodes
    without error to the two zero octets that ["000"] decodes to. *)
Theorem b45_decode_group_any_magnitude
    (before after : string) (a b c : ascii) :
  let c0 := Base45.Base45ReverseTable (char_u8 a) in
  let c1 := Base45.Base45ReverseTable (char_u8 b) in
  let c2 := Base45.Base45ReverseTable (char_u8 c) in
  let v := c0 + c1 * 45 + c2 * 2025 in
  c0 <> Base45.InvalidBase45Character ->
  c1 <> Base45.InvalidBase45Character ->
  c2 <> Base45.InvalidBase45Character ->
  len (b45_valid_values (list_ascii_of_string before)) mod 3 = 0 ->
  Base45.Decode_run
    (before ++ String a (String b (String c EmptyString)) ++ after) =
  option_map
    (fun rest =>
       b45_full_groups (b45_valid_values (list_ascii_of_string before)) ++
       [to_u8 (Z.shiftr (v mod 65536) 8); to_u8 (Z.land v 0xff)] ++ rest)
    (Base45.Decode_run after) /\
  Base45.Decode_run (before ++ String a (String b (String c EmptyString))) =
  Some (b45_full_groups (b45_valid_values (list_ascii_of_string before)) ++
        [to_u8 (Z.shiftr (v mod 65536) 8); to_u8 (Z.land v 0xff)]) /\
  (Base45.Decode_run
     (before ++ String a (String b (String c EmptyString)) ++ after) = None
   <-> len (b45_valid_values (list_ascii_of_string after)) mod 3 = 1) /\
  ("GGW" <> "000")%string /\
  Base45.Decode_run "GGW" = Some [x00; x00] /\
  Base45.Decode_run "000" = Some [x00; x00] /\
  Base45.Base45ReverseTable (char_u8 "G") +
  Base45.Base45ReverseTable (char_u8 "G") * 45 +
  Base45.Base45ReverseTable (char_u8 "W") * 2025 = 65536.
Proof.
  intros c0 c1 c2 v H0 H1 H2 Hb.
  assert (Gen : forall rest : string,
    Base45.Decode_run
      (before ++ String a (String b (String c EmptyString)) ++ rest) =
    option_map
      (fun r =>
         b45_full_groups (b45_valid_values (list_ascii_of_string before)) ++
         [to_u8 (Z.shiftr (v mod 65536) 8); to_u8 (Z.land v 0xff)] ++ r)
      (Base45.Decode_run rest)).
  { intros rest.
    rewrite !b45_decode_run_spec, !list_ascii_of_string_app.
    rewrite !b45_valid_values_app.
    set (vb := b45_valid_values (list_ascii_of_string before)) in *.
    set (va := b45_valid_values (list_ascii_of_string rest)).
    simpl list_ascii_of_string.
    rewrite (b45_valid_values_cons a), (b45_valid_values_cons b).
    rewrite (b45_step_valid a H0).
    rewrite (b45_step_valid b H1).
    rewrite (b45_step_valid c H2).
    fold c0 c1 c2. unfold b45_decode_spec.
    destruct (b45_groups_app vb (([c0] ++ [c1] ++ [c2]) ++ va) Hb) as [E1 E2].
    rewrite E1, E2. simpl app.
    change (b45_tail (c0 :: c1 :: c2 :: va)) with (b45_tail va).
    change (b45_full_groups (c0 :: c1 :: c2 :: va))
      with (b45_pair_octets c0 c1 c2 ++ b45_full_groups va).
    unfold b45_pair_octets. fold v. simpl app.
    destruct (b45_tail va) as [|t0 [|t1 [|t2 t]]]; simpl option_map;
      try reflexivity.
    rewrite <- !app_assoc. reflexivity. }
  split; [apply Gen|]. split; [|split].
  - pose proof (Gen EmptyString) as G0.
    change (String a (String b (String c EmptyString)) ++ EmptyString)%string
      with (String a (String b (String c EmptyString))) in G0.
    rewrite G0. reflexivity.
  - rewrite Gen, <- b45_decode_spec_none, <- b45_decode_run_spec.
    destruct (Base45.Decode_run after); cbn [option_map];
      split; intros H; try discriminate H; reflexivity.
  - split; [discriminate | repeat split].
Qed.

(** [b45_decode_group_any_magnitude] for the group ["GGW"] after ["BB8"],
    at the end of the input and before another ["BB8"]. *)
Lemma b45_decode_group_any_magnitude_witness :
  Base45.Decode_run "BB8GGW" = Some ["A"; "B"; x00; x00]%byte /\
  Base45.Decode_run "BB8GGWBB8" = Some ["A"; "B"; x00; x00; "A"; "B"]%byte.
Proof.
  pose proof (b45_decode_group_any_magnitude "BB8" "BB8" "G" "G" "W") as H.
  cbv zeta in H.
  assert (Hv : Base45.Base45ReverseTable (char_u8 "G") <>
               Base45.InvalidBase45Character)
    by (vm_compute; congruence).
  assert (Hw : Base45.Base45ReverseTable (char_u8 "W") <>
               Base45.InvalidBase45Character)
    by (vm_compute; congruence).
  specialize (H Hv Hv Hw eq_refl).
  destruct H as (H1 & H2 & _).
  split; [exact H2 | exact H1].
Defined.

(** ** Base64 *)

Lemma b64_value_range (x : Z) :
  Base64.Base64ReverseTable x <> Base64.InvalidBase64Character ->
  0 <= Base64.Base64ReverseTable x < 64.
Proof.
  apply cond_chain_bound. reflexivity.
Qed.

Lemma lor_shl_small (w g k v : Z) :
  0 <= k <= w -> 0 <= g -> g * 2 ^ k < 2 ^ w -> 0 <= v < 2 ^ k ->
  Z.lor (shl w g k) v = g * 2 ^ k + v.
Proof.
  intros Hk Hg Hs Hv.
  rewrite lor_shl_add by lia.
  rewrite Z.mod_small; [reflexivity|].
  split; [|exact Hs]. apply Z.mul_nonneg_nonneg; [lia|].
  apply Z.pow_nonneg. lia.
Qed.

Lemma b64_tail_length (vs : list Z) : len (b64_tail vs) = len vs mod 4.
Proof.
  revert vs. fix IH 1. intros [|s0 [|s1 [|s2 [|s3 vs]]]]; try reflexivity.
  change (b64_tail (s0 :: s1 :: s2 :: s3 :: vs)) with (b64_tail vs).
  rewrite IH. unfold len. simpl List.length. rewrite !Nat2Z.inj_succ.
  Z.div_mod_to_equations. lia.
Qed.

Lemma b64_group_octets (s0 s1 s2 s3 : Z) :
  0 <= s0 < 64 -> 0 <= s1 < 64 -> 0 <= s2 < 64 -> 0 <= s3 < 64 ->
  let group :=
    Z.lor (shl uint_fast32_bits ((s0 * 64 + s1) * 64 + s2) 6) (Z.land s3 0x3f) in
  [Base64.oct group 16; Base64.oct group 8; Base64.oct group 0] =
  b64_octets3 s0 s1 s2 s3.
Proof.
  intros H0 H1 H2 H3. cbv zeta.
  rewrite land_63, (Z.mod_small s3) by lia.
  rewrite lor_shl_small
    by (unfold uint_fast32_bits; change (2 ^ 6) with 64; lia).
  change (2 ^ 6) with 64.
  unfold Base64.oct, b64_octets3, b64_group24. cbv zeta. to_arith.
  change (2 ^ 16) with 65536. change (2 ^ 8) with 256.
  change (2 ^ 0) with 1. rewrite Z.div_1_r, !to_u8_mod. reflexivity.
Qed.

Lemma b64_step_invalid (st : Base64.state) (c : ascii) :
  Base64.Base64ReverseTable (char_u8 c) = Base64.InvalidBase64Character ->
  Base64.Decode_step st c = st.
Proof.
  intros H. unfold Base64.Decode_step. rewrite H. reflexivity.
Qed.

Lemma b64_valid_values_cons (c : ascii) (input : list ascii) :
  b64_valid_values (c :: input) =
  if Ascii.eqb c "=" then []
  else if Base64.Base64ReverseTable (char_u8 c)
          =? Base64.InvalidBase64Character
       then b64_valid_values input
       else Base64.Base64ReverseTable (char_u8 c) :: b64_valid_values input.
Proof.
  unfold b64_valid_values. simpl upto_pad.
  destruct (Ascii.eqb c "="); [reflexivity|].
  simpl. destruct (_ =? _); reflexivity.
Qed.

Lemma b64_pending_stop (st : Base64.state) (p : list Z) :
  b64_pending st p ->
  Base64.output st = Base64.output st ++ b64_full_groups (p ++ []) /\
  b64_pending st (b64_tail (p ++ [])).
Proof.
  intros [Hr Hp].
  destruct p as [|s0 [|s1 [|s2 [|s3 p]]]]; try contradiction;
    simpl; rewrite app_nil_r; repeat split; tauto.
Qed.

Lemma b64_loop_spec (input : list ascii) (st : Base64.state) (p : list Z) :
  b64_pending st p ->
  Base64.output (Base64.Decode_loop input st) =
    Base64.output st ++ b64_full_groups (p ++ b64_valid_values input) /\
  b64_pending (Base64.Decode_loop input st)
              (b64_tail (p ++ b64_valid_values input)).
Proof.
  revert st p. induction input as [|c input IH]; intros st p Hp.
  - apply b64_pending_stop, Hp.
  - rewrite b64_valid_values_cons. simpl Base64.Decode_loop.
    unfold Base64.Base64PaddingCharacter.
    destruct (Ascii.eqb c "="); [apply b64_pending_stop, Hp|].
    destruct (Base64.Base64ReverseTable (char_u8 c)
              =? Base64.InvalidBase64Character) eqn:E.
    + apply Z.eqb_eq in E. rewrite (b64_step_invalid st c E). apply IH, Hp.
    + unfold Base64.Decode_step. rewrite E.
      apply Z.eqb_neq in E. pose proof (b64_value_range _ E) as Hv.
      set (v := Base64.Base64ReverseTable (char_u8 c)) in *.
      destruct Hp as [Hr Hp].
      destruct p as [|s0 [|s1 [|s2 [|s3 p]]]]; try contradiction;
        destruct Hp as [Hs Hg]; rewrite Hs, Hg.
      * change (0 + 6 =? 24) with false. cbv iota.
        rewrite land_63, (Z.mod_small v) by lia.
        rewrite lor_shl_small
          by (unfold uint_fast32_bits; change (2 ^ 6) with 64; lia).
        change (2 ^ 6) with 64.
        match goal with
        | |- context [Base64.Decode_loop input ?s] =>
            specialize (IH s [v])
        end.
        cbn [Base64.output] in IH.
        apply IH. split; [repeat constructor; lia|].
        split; [reflexivity | simpl; lia].
      * change (6 + 6 =? 24) with false. cbv iota.
        pose proof (Forall_inv Hr) as H0. cbv beta in H0.
        rewrite land_63, (Z.mod_small v) by lia.
        rewrite lor_shl_small
          by (unfold uint_fast32_bits; change (2 ^ 6) with 64; lia).
        change (2 ^ 6) with 64.
        match goal with
        | |- context [Base64.Decode_loop input ?s] =>
            specialize (IH s [s0; v])
        end.
        cbn [Base64.output] in IH.
        apply IH. split; [repeat constructor; lia|].
        split; reflexivity.
      * change (12 + 6 =? 24) with false. cbv iota.
        pose proof (Forall_inv Hr) as H0. cbv beta in H0.
        pose proof (Forall_inv (Forall_inv_tail Hr)) as H1. cbv beta in H1.
        rewrite land_63, (Z.mod_small v) by lia.
        rewrite lor_shl_small
          by (unfold uint_fast32_bits; change (2 ^ 6) with 64; lia).
        change (2 ^ 6) with 64.
        match goal with
        | |- context [Base64.Decode_loop input ?s] =>
            specialize (IH s [s0; s1; v])
        end.
        cbn [Base64.output] in IH.
        apply IH. split; [repeat constructor; lia|].
        split; reflexivity.
      * change (18 + 6 =? 24) with true. cbv iota.
        pose proof (Forall_inv Hr) as H0. cbv beta in H0.
        pose proof (Forall_inv (Forall_inv_tail Hr)) as H1. cbv beta in H1.
        pose proof (Forall_inv (Forall_inv_tail (Forall_inv_tail Hr))) as H2.
        cbv beta in H2.
        rewrite (b64_group_octets s0 s1 s2 v H0 H1 H2 Hv).
        match goal with
        | |- context [Base64.Decode_loop input ?s] =>
            specialize (IH s [])
        end.
        cbn [Base64.output] in IH.
        change (b64_full_groups ([s0; s1; s2] ++ v :: b64_valid_values input))
          with (b64_octets3 s0 s1 s2 v ++
                b64_full_groups ([] ++ b64_valid_values input)).
        change (b64_tail ([s0; s1; s2] ++ v :: b64_valid_values input))
          with (b64_tail ([] ++ b64_valid_values input)).
        rewrite app_assoc. apply IH.
        split; [constructor | split; reflexivity].
Qed.

Lemma b64_pending_init : b64_pending (Base64.mkState [] 0 0) [].
Proof.
  split; [constructor | split; reflexivity].
Qed.

Lemma b64_finish_spec (st : Base64.state) (t : list Z) :
  b64_pending st t ->
  Base64.Decode_finish st = Base64.output st ++ b64_trailing t.
Proof.
  intros [Hr Hp]. unfold Base64.Decode_finish.
  destruct t as [|s0 [|s1 [|s2 [|s3 t]]]]; try contradiction;
    destruct Hp as [Hs Hg]; rewrite Hs, Hg.
  - simpl. rewrite app_nil_r. reflexivity.
  - pose proof (Forall_inv Hr) as H0. cbv beta in H0.
    change (0 <? 6) with true. change (16 <=? 6) with false. cbv iota.
    f_equal. unfold b64_trailing, Base64.oct. f_equal.
    change (24 - 6) with 18. unfold uint_fast32_bits. to_arith.
    rewrite to_u8_mod. f_equal.
    change (2 ^ 18) with 262144. change (2 ^ 16) with 65536.
    change (2 ^ 64) with 18446744073709551616.
    Z.div_mod_to_equations. lia.
  - pose proof (Forall_inv Hr) as H0. cbv beta in H0.
    pose proof (Forall_inv (Forall_inv_tail Hr)) as H1. cbv beta in H1.
    change (0 <? 12) with true. change (16 <=? 12) with false. cbv iota.
    f_equal. unfold b64_trailing, Base64.oct. f_equal.
    change (24 - 12) with 12. unfold uint_fast32_bits. to_arith.
    rewrite to_u8_mod. f_equal.
    change (2 ^ 12) with 4096. change (2 ^ 16) with 65536.
    change (2 ^ 64) with 18446744073709551616.
    Z.div_mod_to_equations. lia.
  - pose proof (Forall_inv Hr) as H0. cbv beta in H0.
    pose proof (Forall_inv (Forall_inv_tail Hr)) as H1. cbv beta in H1.
    pose proof (Forall_inv (Forall_inv_tail (Forall_inv_tail Hr))) as H2.
    cbv beta in H2.
    change (0 <? 18) with true. change (16 <=? 18) with true.
    change (18 =? 24) with false. cbv iota.
    rewrite <- app_assoc. f_equal. unfold b64_trailing, Base64.oct.
    change (24 - 18) with 6. unfold uint_fast32_bits. to_arith.
    rewrite !to_u8_mod.
    change (2 ^ 6) with 64. change (2 ^ 16) with 65536.
    change (2 ^ 8) with 256.
    change (2 ^ 64) with 18446744073709551616.
    simpl app. f_equal; [|f_equal].
    + f_equal. Z.div_mod_to_equations. lia.
    + rewrite <- (to_u8_mod (_ / 256)), <- (to_u8_mod (_ + _)).
      f_equal. Z.div_mod_to_equations. lia.
Qed.

Lemma b64_decode_run_spec (input : string) :
  Base64.Decode_run input =
  Some (b64_full_groups (b64_valid_values (list_ascii_of_string input)) ++
        b64_trailing (b64_tail (b64_valid_values (list_ascii_of_string input)))).
Proof.
  unfold Base64.Decode_run.
  set (l := list_ascii_of_string input).
  destruct (len l =? 0) eqn:El.
  - destruct l; [reflexivity | discriminate El].
  - destruct (b64_loop_spec l _ [] b64_pending_init) as [Ho Hp].
    simpl app in *.
    rewrite (b64_finish_spec _ _ Hp), Ho. reflexivity.
Qed.

(** C2 at the input ["QR"]: the two characters carry the twelve bits
    [010000 010001], the four bits left after the first octet are [0001], not
    zero, and [Base64::Decode] returns that octet where the policy of
    [Base32::Decode] is the error return ([Base32::Decode] refuses ["MB"],
    whose two bits left after the first octet are [01]).  In general
    [Base64::Decode] has no error return and no check of the bits left over:
    with two valid characters after the last full group it appends the octet
    of their first eight bits and drops the low four bits of the second
    character, zero or not; with three it appends two octets and drops the
    low two bits of the third; with none it appends nothing. *)
Theorem b64_decode_drops_leftover_bits (input : string) :
  let vs := b64_valid_values (list_ascii_of_string input) in
  Base64.Decode_run input = Some (Base64.Decode input) /\
  match b64_tail vs with
  | [] => Base64.Decode input = b64_full_groups vs
  | [s0; s1] =>
      Base64.Decode input = b64_full_groups vs ++ [to_u8 (s0 * 4 + s1 / 16)]
  | [s0; s1; s2] =>
      Base64.Decode input =
      b64_full_groups vs ++
      [to_u8 (s0 * 4 + s1 / 16); to_u8 (s1 mod 16 * 16 + s2 / 4)]
  | _ => True
  end /\
  b64_valid_values (list_ascii_of_string "QR") = [16; 17] /\
  17 mod 16 = 1 /\
  Base64.Decode_run "QR" = Some ["A"%byte] /\
  Base64.Decode "QR" = ["A"%byte] /\
  Base32.Decode_run "MB" = None.
Proof.
  intros vs. unfold Base64.Decode at 1 2 3 4. rewrite b64_decode_run_spec.
  fold vs.
  split; [reflexivity|]. split; [|repeat split].
  destruct (b64_tail vs) as [|s0 [|s1 [|s2 [|s3 t]]]]; simpl b64_trailing;
    rewrite ?app_nil_r; auto.
Qed.

(** C3 at the input ["A"]: one valid character has put six bits into
    [group], and [Base64::Decode] appends an octet for them.  In general the
    values left after the last full group of four yield: one octet for one
    value (six bits) and for two values (twelve bits), two octets for three
    values (eighteen bits), never a third octet; and a missing ['='] is no
    error. *)
Theorem b64_decode_octet_from_six_bits (input : string) :
  let vs := b64_valid_values (list_ascii_of_string input) in
  match b64_tail vs with
  | [] => Base64.Decode input = b64_full_groups vs
  | [s0] => Base64.Decode input = b64_full_groups vs ++ [to_u8 (s0 * 4)]
  | [s0; s1] =>
      Base64.Decode input = b64_full_groups vs ++ [to_u8 (s0 * 4 + s1 / 16)]
  | [s0; s1; s2] =>
      Base64.Decode input =
      b64_full_groups vs ++
      [to_u8 (s0 * 4 + s1 / 16); to_u8 (s1 mod 16 * 16 + s2 / 4)]
  | _ => False
  end /\
  b64_valid_values (list_ascii_of_string "A") = [0] /\
  Base64.group_size
    (Base64.Decode_loop (list_ascii_of_string "A") (Base64.mkState [] 0 0)) = 6 /\
  Base64.Decode "A" = [x00] /\
  Base64.Decode "Zm9vY" = ["f"; "o"; "o"; "`"]%byte.
Proof.
  intros vs. split; [|repeat split].
  unfold Base64.Decode. rewrite b64_decode_run_spec. fold vs.
  pose proof (b64_tail_length vs) as Hl.
  destruct (b64_tail vs) as [|s0 [|s1 [|s2 [|s3 t]]]]; simpl b64_trailing;
    rewrite ?app_nil_r; auto.
  unfold len in Hl. simpl List.length in Hl.
  pose proof (Z.mod_pos_bound (Z.of_nat (List.length vs)) 4). lia.
Qed.

(** ** Base58: the indices of the character substitution loop *)

Lemma set_nth_length {A} (l : list A) (i : nat) (x : A) :
  List.length (set_nth l i x) = List.length l.
Proof.
  revert i. induction l as [|a l IH]; intros [|i]; simpl; try reflexivity.
  rewrite IH. reflexivity.
Qed.

Lemma resize_to_length {A} (l : list A) (n : Z) (x : A) :
  List.length (resize_to l n x) = Z.to_nat n.
Proof.
  unfold resize_to. rewrite length_app, length_firstn, repeat_length. lia.
Qed.

Lemma b58_substitute_log (count : nat) (i : Z) (s : str traced_string) :
  snd (Base58.substitute traced_string count i s) =
  (snd s ++ map (fun k => (i + Z.of_nat k, len (fst s))) (seq 0 count))%list.
Proof.
  revert i s. induction count as [|count IH]; intros i s.
  - simpl. rewrite app_nil_r. reflexivity.
  - simpl Base58.substitute. rewrite IH. cbn [assign traced_string fst snd].
    unfold len. rewrite set_nth_length, <- app_assoc. f_equal.
    simpl. rewrite Z.add_0_r. f_equal.
    rewrite <- seq_shift, map_map. apply map_ext. intros k.
    f_equal. lia.
Qed.

(** C9 fails: once [output] has been resized to [output_length] characters,
    the loop [for (i = 0; i <= output_length; i++)] stores at every index
    from 0 to [output_length], the last of which is the size of the string.
    For the input [{0x01}] the stores of [Encode] are at index 0 of the
    2-character buffer, then at indices 0 and 1 of the 1-character result. *)
Theorem b58_encode_store_at_size (output : str traced_string) (n : nat) :
  let output_length := Z.of_nat n in
  let resized := resize traced_string output output_length in
  len (chars traced_string resized) = output_length /\
  snd (Base58.substitute traced_string (Z.to_nat (output_length + 1)) 0 resized)
  = (snd output ++ map (fun i => (Z.of_nat i, output_length)) (seq 0 (n + 1)))%list /\
  In (output_length, output_length)
     (snd (Base58.substitute traced_string (Z.to_nat (output_length + 1)) 0
             resized)) /\
  Base58.Encode_accesses [x01] = [(0, 2); (0, 1); (1, 1)].
Proof.
  intros output_length resized.
  assert (Hlen : len (chars traced_string resized) = output_length).
  { unfold resized, output_length, len. cbn [resize traced_string chars fst].
    rewrite resize_to_length. lia. }
  assert (Hlog :
    snd (Base58.substitute traced_string (Z.to_nat (output_length + 1)) 0 resized)
    = (snd output ++
       map (fun i => (Z.of_nat i, output_length)) (seq 0 (n + 1)))%list).
  { rewrite b58_substitute_log. cbn [chars traced_string] in Hlen.
    rewrite Hlen. unfold resized. cbn [resize traced_string snd].
    replace (Z.to_nat (output_length + 1)) with (n + 1)%nat
      by (unfold output_length; lia).
    reflexivity. }
  split; [exact Hlen|]. split; [exact Hlog|]. split; [|reflexivity].
  rewrite Hlog. apply in_or_app. right.
  apply in_map_iff. exists n. split; [reflexivity|].
  apply in_seq. lia.
Qed.

(** ** Base32: what [Encode] produces *)

(** One round of the encoding loop at each of the five positions of a
    group. *)
Lemma b32_enc_step_0 (out : list ascii) (G : Z) (o : byte) :
  Base32.Encode_step (Base32.mkEnc out G 0 0) o =
  Base32.mkEnc (out ++ [b32_sym (b32_next G o) 3]) (b32_next G o) 3 1.
Proof. reflexivity. Qed.

Lemma b32_enc_step_1 (out : list ascii) (G : Z) (o : byte) :
  Base32.Encode_step (Base32.mkEnc out G 3 1) o =
  Base32.mkEnc ((out ++ [b32_sym (b32_next G o) 6])
                ++ [b32_sym (b32_next G o) 1]) (b32_next G o) 1 3.
Proof. reflexivity. Qed.

Lemma b32_enc_step_2 (out : list ascii) (G : Z) (o : byte) :
  Base32.Encode_step (Base32.mkEnc out G 1 3) o =
  Base32.mkEnc (out ++ [b32_sym (b32_next G o) 4]) (b32_next G o) 4 4.
Proof. reflexivity. Qed.

Lemma b32_enc_step_3 (out : list ascii) (G : Z) (o : byte) :
  Base32.Encode_step (Base32.mkEnc out G 4 4) o =
  Base32.mkEnc ((out ++ [b32_sym (b32_next G o) 7])
                ++ [b32_sym (b32_next G o) 2]) (b32_next G o) 2 6.
Proof. reflexivity. Qed.

Lemma b32_enc_step_4 (out : list ascii) (G : Z) (o : byte) :
  Base32.Encode_step (Base32.mkEnc out G 2 6) o =
  Base32.mkEnc ((out ++ [b32_sym (b32_next G o) 5])
                ++ [b32_sym (b32_next G o) 0]) (b32_next G o) 0 0.
Proof. reflexivity. Qed.

Lemma b32_next_arith (G : Z) (o : byte) :
  b32_next G o = (G * 256) mod 18446744073709551616 + u8 o.
Proof.
  unfold b32_next, size_t_bits.
  rewrite lor_shl_add by (pose proof (u8_range o); change (2 ^ 8) with 256; lia).
  reflexivity.
Qed.

Lemma b32_sym_arith (G k : Z) :
  0 <= k ->
  b32_sym G k = table_at Base32.Base32Table ((G / 2 ^ k) mod 32).
Proof.
  intros Hk. unfold b32_sym. to_arith. reflexivity.
Qed.

Lemma b32_group_chars_5 (a b c d e : byte) :
  b32_group_chars [a; b; c; d; e] =
  let v := be_value [a; b; c; d; e] * 1 in
  map (fun k => table_at Base32.Base32Table ((v / 2 ^ k) mod 32))
      [35; 30; 25; 20; 15; 10; 5; 0].
Proof. reflexivity. Qed.

Lemma be_value_5 (a b c d e : byte) :
  be_value [a; b; c; d; e] =
  (((u8 a * 256 + u8 b) * 256 + u8 c) * 256 + u8 d) * 256 + u8 e.
Proof. reflexivity. Qed.

Ltac b32_sym_eq :=
  rewrite b32_sym_arith by lia; rewrite ?b32_next_arith;
  apply (f_equal (table_at Base32.Base32Table));
  Z.div_mod_to_equations; lia.

Lemma b32_enc_block (out : list ascii) (G : Z) (a b c d e : byte) :
  exists G',
    Base32.Encode_loop [a; b; c; d; e] (Base32.mkEnc out G 0 0) =
    Base32.mkEnc (out ++ b32_group_chars [a; b; c; d; e]) G' 0 0.
Proof.
  unfold Base32.Encode_loop. simpl fold_left.
  rewrite b32_enc_step_0, b32_enc_step_1, b32_enc_step_2, b32_enc_step_3,
    b32_enc_step_4.
  eexists. f_equal. rewrite <- !app_assoc. simpl app. f_equal.
  rewrite b32_group_chars_5. cbv zeta. rewrite Z.mul_1_r, be_value_5.
  simpl map.
  pose proof (u8_range a). pose proof (u8_range b). pose proof (u8_range c).
  pose proof (u8_range d). pose proof (u8_range e).
  change (2 ^ 0) with 1. change (2 ^ 5) with 32. change (2 ^ 10) with 1024.
  change (2 ^ 15) with 32768. change (2 ^ 20) with 1048576.
  change (2 ^ 25) with 33554432. change (2 ^ 30) with 1073741824.
  change (2 ^ 35) with 34359738368.
  repeat (apply (f_equal2 cons); [b32_sym_eq|]). reflexivity.
Qed.

Lemma b32_last_sym_arith (G k : Z) :
  0 <= k ->
  b32_last_sym G k =
  table_at Base32.Base32Table (((G * 2 ^ k) mod 18446744073709551616) mod 32).
Proof.
  intros Hk. unfold b32_last_sym, size_t_bits. to_arith. reflexivity.
Qed.

Lemma b32_enc_finish_1 (out : list ascii) (G : Z) :
  Base32.Encode_finish (Base32.mkEnc out G 3 1) =
  (out ++ [b32_last_sym G 2]) ++ repeat "="%char 6.
Proof. reflexivity. Qed.

Lemma b32_enc_finish_2 (out : list ascii) (G : Z) :
  Base32.Encode_finish (Base32.mkEnc out G 1 3) =
  (out ++ [b32_last_sym G 4]) ++ repeat "="%char 4.
Proof. reflexivity. Qed.

Lemma b32_enc_finish_3 (out : list ascii) (G : Z) :
  Base32.Encode_finish (Base32.mkEnc out G 4 4) =
  (out ++ [b32_last_sym G 1]) ++ repeat "="%char 3.
Proof. reflexivity. Qed.

Lemma b32_enc_finish_4 (out : list ascii) (G : Z) :
  Base32.Encode_finish (Base32.mkEnc out G 2 6) =
  (out ++ [b32_last_sym G 3]) ++ repeat "="%char 1.
Proof. reflexivity. Qed.

Ltac b32_last_sym_eq :=
  rewrite b32_last_sym_arith by lia; rewrite ?b32_next_arith;
  apply (f_equal (table_at Base32.Base32Table));
  Z.div_mod_to_equations; lia.

Ltac b32_pows :=
  change (2 ^ 0) with 1; change (2 ^ 1) with 2; change (2 ^ 2) with 4;
  change (2 ^ 3) with 8; change (2 ^ 4) with 16;
  change (2 ^ 5) with 32; change (2 ^ 10) with 1024;
  change (2 ^ 15) with 32768; change (2 ^ 20) with 1048576;
  change (2 ^ 25) with 33554432; change (2 ^ 30) with 1073741824;
  change (2 ^ 35) with 34359738368.

Lemma b32_enc_partial_1 (out : list ascii) (G : Z) (a : byte) :
  Base32.Encode_finish (Base32.Encode_loop [a] (Base32.mkEnc out G 0 0)) =
  out ++ b32_group_chars [a].
Proof.
  unfold Base32.Encode_loop. simpl fold_left.
  rewrite b32_enc_step_0, b32_enc_finish_1.
  rewrite <- !app_assoc. simpl app. f_equal.
  change (b32_group_chars [a]) with
    (map (fun k => table_at Base32.Base32Table
                     (((0 * 256 + u8 a) * 2 ^ 2 / 2 ^ k) mod 32)) [5; 0]
     ++ repeat "="%char 6).
  simpl map. simpl app. pose proof (u8_range a). b32_pows.
  apply (f_equal2 cons); [b32_sym_eq|].
  apply (f_equal2 cons); [b32_last_sym_eq|]. reflexivity.
Qed.

Lemma b32_enc_partial_2 (out : list ascii) (G : Z) (a b : byte) :
  Base32.Encode_finish (Base32.Encode_loop [a; b] (Base32.mkEnc out G 0 0)) =
  out ++ b32_group_chars [a; b].
Proof.
  unfold Base32.Encode_loop. simpl fold_left.
  rewrite b32_enc_step_0, b32_enc_step_1, b32_enc_finish_2.
  rewrite <- !app_assoc. simpl app. f_equal.
  change (b32_group_chars [a; b]) with
    (map (fun k => table_at Base32.Base32Table
                     ((((0 * 256 + u8 a) * 256 + u8 b) * 2 ^ 4 / 2 ^ k) mod 32))
         [15; 10; 5; 0]
     ++ repeat "="%char 4).
  simpl map. simpl app.
  pose proof (u8_range a). pose proof (u8_range b). b32_pows.
  do 3 (apply (f_equal2 cons); [b32_sym_eq|]).
  apply (f_equal2 cons); [b32_last_sym_eq|]. reflexivity.
Qed.

Lemma b32_enc_partial_3 (out : list ascii) (G : Z) (a b c : byte) :
  Base32.Encode_finish (Base32.Encode_loop [a; b; c] (Base32.mkEnc out G 0 0)) =
  out ++ b32_group_chars [a; b; c].
Proof.
  unfold Base32.Encode_loop. simpl fold_left.
  rewrite b32_enc_step_0, b32_enc_step_1, b32_enc_step_2, b32_enc_finish_3.
  rewrite <- !app_assoc. simpl app. f_equal.
  change (b32_group_chars [a; b; c]) with
    (map (fun k => table_at Base32.Base32Table
                     (((((0 * 256 + u8 a) * 256 + u8 b) * 256 + u8 c)
                       * 2 ^ 1 / 2 ^ k) mod 32))
         [20; 15; 10; 5; 0]
     ++ repeat "="%char 3).
  simpl map. simpl app.
  pose proof (u8_range a). pose proof (u8_range b). pose proof (u8_range c).
  b32_pows.
  do 4 (apply (f_equal2 cons); [b32_sym_eq|]).
  apply (f_equal2 cons); [b32_last_sym_eq|]. reflexivity.
Qed.

Lemma b32_enc_partial_4 (out : list ascii) (G : Z) (a b c d : byte) :
  Base32.Encode_finish
    (Base32.Encode_loop [a; b; c; d] (Base32.mkEnc out G 0 0)) =
  out ++ b32_group_chars [a; b; c; d].
Proof.
  unfold Base32.Encode_loop. simpl fold_left.
  rewrite b32_enc_step_0, b32_enc_step_1, b32_enc_step_2, b32_enc_step_3,
    b32_enc_finish_4.
  rewrite <- !app_assoc. simpl app. f_equal.
  change (b32_group_chars [a; b; c; d]) with
    (map (fun k => table_at Base32.Base32Table
                     ((((((0 * 256 + u8 a) * 256 + u8 b) * 256 + u8 c) * 256
                        + u8 d) * 2 ^ 3 / 2 ^ k) mod 32))
         [30; 25; 20; 15; 10; 5; 0]
     ++ repeat "="%char 1).
  simpl map. simpl app.
  pose proof (u8_range a). pose proof (u8_range b). pose proof (u8_range c).
  pose proof (u8_range d). b32_pows.
  do 6 (apply (f_equal2 cons); [b32_sym_eq|]).
  apply (f_equal2 cons); [b32_last_sym_eq|]. reflexivity.
Qed.

Lemma b32_encode_loop_app (l1 l2 : list byte) (st : Base32.enc_state) :
  Base32.Encode_loop (l1 ++ l2) st =
  Base32.Encode_loop l2 (Base32.Encode_loop l1 st).
Proof.
  apply fold_left_app.
Qed.

Lemma b32_encode_loop_spec (input : list byte) (out : list ascii) (G : Z) :
  Base32.Encode_finish (Base32.Encode_loop input (Base32.mkEnc out G 0 0)) =
  out ++ b32_encode_spec input.
Proof.
  revert input out G. fix IH 1.
  intros [|a [|b [|c [|d [|e input]]]]] out G.
  - simpl. rewrite app_nil_r. reflexivity.
  - apply b32_enc_partial_1.
  - apply b32_enc_partial_2.
  - apply b32_enc_partial_3.
  - apply b32_enc_partial_4.
  - change (a :: b :: c :: d :: e :: input)
      with ([a; b; c; d; e] ++ input) at 1.
    rewrite b32_encode_loop_app.
    destruct (b32_enc_block out G a b c d e) as [G' ->].
    rewrite IH.
    change (b32_encode_spec (a :: b :: c :: d :: e :: input))
      with (b32_group_chars [a; b; c; d; e] ++ b32_encode_spec input).
    rewrite app_assoc. reflexivity.
Qed.

Lemma string_of_list_ascii_length (l : list ascii) :
  String.length (string_of_list_ascii l) = List.length l.
Proof.
  induction l as [|c l IH]; simpl; [reflexivity | rewrite IH; reflexivity].
Qed.

Lemma b32_encode_spec_length (input : list byte) :
  len (b32_encode_spec input) = 8 * ((len input + 4) / 5).
Proof.
  revert input. fix IH 1.
  intros [|a [|b [|c [|d [|e input]]]]]; try reflexivity.
  change (b32_encode_spec (a :: b :: c :: d :: e :: input))
    with (b32_group_chars [a; b; c; d; e] ++ b32_encode_spec input).
  rewrite len_app, IH.
  change (len (b32_group_chars [a; b; c; d; e])) with 8.
  unfold len. simpl List.length. rewrite !Nat2Z.inj_succ.
  Z.div_mod_to_equations. lia.
Qed.

Lemma b32_encode_spec_eq (input : list byte) :
  Base32.Encode input = string_of_list_ascii (b32_encode_spec input).
Proof.
  unfold Base32.Encode. destruct input as [|b input].
  - reflexivity.
  - replace (len (b :: input) =? 0) with false
      by (symmetry; apply Z.eqb_neq; unfold len; simpl; lia).
    rewrite b32_encode_loop_spec. reflexivity.
Qed.

(** C8: for [n] octets [Base32::Encode] returns [ceil(n/5) * 8] characters:
    eight for every five octets and eight for a last group of one to four
    octets, whose bits are padded with zero bits to whole 5-bit symbols and
    whose symbols are followed by ['='] up to the eighth character; the
    empty input gives the empty string. *)
Theorem b32_encode_padded_length (input : list byte) :
  Z.of_nat (String.length (Base32.Encode input)) = 8 * ((len input + 4) / 5) /\
  Base32.Encode input = string_of_list_ascii (b32_encode_spec input) /\
  Base32.Encode [] = EmptyString /\
  Base32.Encode_sv "foobar" = "MZXW6YTBOI======"%string.
Proof.
  split; [|split; [apply b32_encode_spec_eq | split; reflexivity]].
  rewrite b32_encode_spec_eq, string_of_list_ascii_length.
  apply b32_encode_spec_length.
Qed.

(** ** Alphabets and their reverse tables *)

Lemma forall_below (P : Z -> bool) (n : nat) :
  forallb P (map Z.of_nat (seq 0 n)) = true ->
  forall i, 0 <= i < Z.of_nat n -> P i = true.
Proof.
  intros H i Hi. rewrite forallb_forall in H. apply H.
  apply in_map_iff. exists (Z.to_nat i). split; [lia|].
  apply in_seq. lia.
Qed.

Lemma b16_table_inverse (i : Z) :
  0 <= i < 16 ->
  Base16.Base16ReverseTable (char_u8 (table_at Base16.Base16Table i)) = i.
Proof.
  intros Hi.
  assert (H : forallb (table_inverse Base16.Base16Table
                         Base16.Base16ReverseTable "=")
                      (map Z.of_nat (seq 0 16)) = true) by reflexivity.
  pose proof (forall_below _ 16 H i Hi) as Hc.
  apply andb_true_iff in Hc. destruct Hc as [Hc _].
  apply Z.eqb_eq in Hc. exact Hc.
Qed.

(** ** Base16: decoding an encoding *)

Lemma b16_encode_loop_spec (input : list byte) (out : list ascii) :
  Base16.Encode_loop input out = (out ++ flat_map b16_chars input)%list.
Proof.
  revert out. induction input as [|o input IH]; intros out.
  - simpl. rewrite app_nil_r. reflexivity.
  - simpl Base16.Encode_loop. rewrite IH, <- !app_assoc.
    f_equal. simpl. unfold b16_chars. pose proof (u8_range o) as Ho.
    to_arith. change (2 ^ 4) with 16.
    rewrite (Z.mod_small (u8 o / 16)) by (Z.div_mod_to_equations; lia).
    reflexivity.
Qed.

Lemma b16_valid_nibbles_app (l1 l2 : list ascii) :
  b16_valid_nibbles (l1 ++ l2) =
  (b16_valid_nibbles l1 ++ b16_valid_nibbles l2)%list.
Proof.
  unfold b16_valid_nibbles. rewrite map_app, filter_app. reflexivity.
Qed.

Lemma b16_valid_nibbles_chars (o : byte) :
  b16_valid_nibbles (b16_chars o) = [u8 o / 16; u8 o mod 16].
Proof.
  pose proof (u8_range o) as Ho.
  unfold b16_valid_nibbles, b16_chars. simpl map.
  rewrite !b16_table_inverse by (Z.div_mod_to_equations; lia).
  simpl filter. unfold Base16.InvalidBase16Character.
  replace (u8 o / 16 =? 255) with false
    by (symmetry; apply Z.eqb_neq; Z.div_mod_to_equations; lia).
  replace (u8 o mod 16 =? 255) with false
    by (symmetry; apply Z.eqb_neq; Z.div_mod_to_equations; lia).
  reflexivity.
Qed.

Lemma b16_nibbles_of_encoding (input : list byte) :
  b16_valid_nibbles (flat_map b16_chars input) =
  flat_map (fun o => [u8 o / 16; u8 o mod 16]) input.
Proof.
  induction input as [|o input IH]; [reflexivity|].
  change (flat_map b16_chars (o :: input))
    with (b16_chars o ++ flat_map b16_chars input)%list.
  rewrite b16_valid_nibbles_app, b16_valid_nibbles_chars, IH.
  reflexivity.
Qed.

Lemma b16_octets_of_encoding (input : list byte) :
  b16_octets_of_nibbles
    (flat_map (fun o => [u8 o / 16; u8 o mod 16]) input) = input /\
  Z.odd (len (flat_map (fun o => [u8 o / 16; u8 o mod 16]) input)) = false.
Proof.
  induction input as [|o input [IH1 IH2]]; [split; reflexivity|].
  simpl flat_map. split.
  - change (b16_octets_of_nibbles (?h :: ?l :: ?r))
      with (to_u8 (16 * h + l) :: b16_octets_of_nibbles r).
    rewrite IH1. f_equal.
    rewrite <- (to_u8_u8 o) at 3. f_equal.
    pose proof (Z.div_mod (u8 o) 16). lia.
  - unfold len in *. simpl List.length. rewrite !Nat2Z.inj_succ.
    rewrite Z.odd_succ_succ. exact IH2.
Qed.

Lemma b16_roundtrip (x : list byte) : Base16.Decode (Base16.Encode x) = x.
Proof.
  unfold Base16.Decode. rewrite b16_decode_run_spec.
  unfold Base16.Encode. destruct x as [|b x]; [reflexivity|].
  replace (len (b :: x) =? 0) with false
    by (symmetry; apply Z.eqb_neq; unfold len; simpl; lia).
  rewrite list_ascii_of_string_of_list_ascii, b16_encode_loop_spec.
  rewrite app_nil_l, b16_nibbles_of_encoding.
  destruct (b16_octets_of_encoding (b :: x)) as [E1 E2].
  rewrite E2, E1. reflexivity.
Qed.

(** ** Base45: decoding an encoding *)

Lemma b45_table_inverse (i : Z) :
  0 <= i < 45 ->
  Base45.Base45ReverseTable (char_u8 (table_at Base45.Base45Table i)) = i.
Proof.
  intros Hi.
  assert (H : forallb (table_inverse Base45.Base45Table
                         Base45.Base45ReverseTable "=")
                      (map Z.of_nat (seq 0 45)) = true) by reflexivity.
  pose proof (forall_below _ 45 H i Hi) as Hc.
  apply andb_true_iff in Hc. destruct Hc as [Hc _].
  apply Z.eqb_eq in Hc. exact Hc.
Qed.

Lemma b45_valid_value_of_symbol (i : Z) :
  0 <= i < 45 ->
  b45_valid_values [table_at Base45.Base45Table i] = [i].
Proof.
  intros Hi. unfold b45_valid_values. simpl map.
  rewrite b45_table_inverse by exact Hi. simpl filter.
  unfold Base45.InvalidBase45Character.
  replace (i =? 255) with false by (symmetry; apply Z.eqb_neq; lia).
  reflexivity.
Qed.

Lemma b45_valid_values_of_encoding (input : list byte) :
  b45_valid_values (b45_encode_pairs input) = b45_values_of input.
Proof.
  revert input. fix IH 1. intros [|hi [|lo input]].
  - reflexivity.
  - change (b45_encode_pairs [hi]) with (b45_chars2 (u8 hi)).
    unfold b45_chars2.
    rewrite b45_valid_values_cons,
      !b45_valid_value_of_symbol by (apply Z.mod_pos_bound; lia).
    reflexivity.
  - change (b45_encode_pairs (hi :: lo :: input))
      with (b45_chars3 (256 * u8 hi + u8 lo) ++ b45_encode_pairs input)%list.
    rewrite b45_valid_values_app, IH. unfold b45_chars3.
    rewrite b45_valid_values_cons,
      (b45_valid_values_cons (table_at _ ((_ / 45) mod 45))),
      !b45_valid_value_of_symbol by (apply Z.mod_pos_bound; lia).
    reflexivity.
Qed.

Lemma b45_decode_values_of (input : list byte) :
  b45_decode_spec (b45_values_of input) = Some input.
Proof.
  revert input. fix IH 1. intros [|hi [|lo input]].
  - reflexivity.
  - pose proof (u8_range hi) as Hhi.
    unfold b45_decode_spec. simpl. to_arith. do 2 f_equal.
    rewrite <- (to_u8_u8 hi) at 3. rewrite <- (to_u8_mod (u8 hi)).
    f_equal. change (2 ^ 8) with 256. Z.div_mod_to_equations. lia.
  - pose proof (u8_range hi) as Hhi. pose proof (u8_range lo) as Hlo.
    specialize (IH input). unfold b45_decode_spec in *.
    change (b45_values_of (hi :: lo :: input))
      with ((256 * u8 hi + u8 lo) mod 45
            :: ((256 * u8 hi + u8 lo) / 45) mod 45
            :: ((256 * u8 hi + u8 lo) / 2025) mod 45
            :: b45_values_of input).
    set (v := 256 * u8 hi + u8 lo) in *.
    change (b45_tail (v mod 45 :: (v / 45) mod 45 :: (v / 2025) mod 45
                      :: b45_values_of input))
      with (b45_tail (b45_values_of input)).
    change (b45_full_groups (v mod 45 :: (v / 45) mod 45 :: (v / 2025) mod 45
                             :: b45_values_of input))
      with (b45_pair_octets (v mod 45) ((v / 45) mod 45) ((v / 2025) mod 45)
            ++ b45_full_groups (b45_values_of input))%list.
    assert (Hv : v mod 45 + (v / 45) mod 45 * 45 + (v / 2025) mod 45 * 2025 = v)
      by (unfold v; Z.div_mod_to_equations; lia).
    assert (Hp : b45_pair_octets (v mod 45) ((v / 45) mod 45)
                                 ((v / 2025) mod 45) = [hi; lo]).
    { unfold b45_pair_octets. cbv zeta. rewrite Hv. to_arith.
      change (2 ^ 8) with 256.
      rewrite <- (to_u8_u8 hi) at 1. rewrite <- (to_u8_u8 lo) at 1.
      rewrite <- (to_u8_mod (u8 lo)).
      f_equal; [|f_equal]; f_equal; unfold v; Z.div_mod_to_equations; lia. }
    rewrite Hp.
    destruct (b45_tail (b45_values_of input)) as [|t0 [|t1 [|t2 t]]];
      try discriminate IH.
    + injection IH as IH. rewrite IH. reflexivity.
    + injection IH as IH. rewrite <- app_assoc, IH. reflexivity.
Qed.

Lemma b45_roundtrip (x : list byte) : Base45.Decode (Base45.Encode x) = x.
Proof.
  unfold Base45.Decode. rewrite b45_decode_run_spec.
  rewrite b45_encode_spec_eq.
  rewrite list_ascii_of_string_of_list_ascii, b45_valid_values_of_encoding,
    b45_decode_values_of.
  reflexivity.
Qed.

(** ** Base64: what [Encode] produces, and decoding it *)

Lemma b64_sym_arith (G k : Z) :
  0 <= k -> Base64.sym G k = b64_char (G / 2 ^ k).
Proof.
  intros Hk. unfold Base64.sym, b64_char. to_arith. reflexivity.
Qed.

Lemma b64_enc_step_0 (out : list ascii) (a : byte) :
  Base64.Encode_step (Base64.mkEnc out 0 0) a = Base64.mkEnc out (u8 a) 8.
Proof.
  unfold Base64.Encode_step. cbn [Base64.e_group Base64.e_group_size
                                  Base64.e_output].
  change (0 + 8 =? 24) with false. cbv iota.
  pose proof (u8_range a).
  rewrite lor_shl8_small by (unfold size_t_bits; lia). reflexivity.
Qed.

Lemma b64_enc_step_1 (out : list ascii) (a b : byte) :
  Base64.Encode_step (Base64.mkEnc out (u8 a) 8) b =
  Base64.mkEnc out (u8 a * 256 + u8 b) 16.
Proof.
  unfold Base64.Encode_step. cbn [Base64.e_group Base64.e_group_size
                                  Base64.e_output].
  change (8 + 8 =? 24) with false. cbv iota.
  pose proof (u8_range a). pose proof (u8_range b).
  rewrite lor_shl8_small by (unfold size_t_bits; lia). reflexivity.
Qed.

Lemma b64_enc_step_2 (out : list ascii) (a b c : byte) :
  Base64.Encode_step (Base64.mkEnc out (u8 a * 256 + u8 b) 16) c =
  Base64.mkEnc (out ++ b64_chars_3 a b c) 0 0.
Proof.
  unfold Base64.Encode_step. cbn [Base64.e_group Base64.e_group_size
                                  Base64.e_output].
  change (16 + 8 =? 24) with true. cbv iota.
  pose proof (u8_range a). pose proof (u8_range b). pose proof (u8_range c).
  rewrite lor_shl8_small by (unfold size_t_bits; lia).
  rewrite !b64_sym_arith by lia. unfold b64_chars_3. cbv zeta.
  change (2 ^ 18) with 262144. change (2 ^ 12) with 4096.
  change (2 ^ 6) with 64. change (2 ^ 0) with 1. rewrite Z.div_1_r.
  reflexivity.
Qed.

Lemma b64_enc_finish_1 (out : list ascii) (a : byte) :
  Base64.Encode_finish (Base64.mkEnc out (u8 a) 8) = out ++ b64_chars_1 a.
Proof.
  unfold Base64.Encode_finish. cbn [Base64.e_group Base64.e_group_size
                                    Base64.e_output].
  change (0 <? 8) with true. change (8 =? 8) with true. cbv iota.
  pose proof (u8_range a).
  change (24 - 8) with 16. rewrite shl_mul by lia. unfold size_t_bits.
  change (2 ^ 16) with 65536.
  rewrite Z.mod_small by (change (2 ^ 64) with 18446744073709551616; lia).
  rewrite !b64_sym_arith by lia. rewrite <- app_assoc. reflexivity.
Qed.

Lemma b64_enc_finish_2 (out : list ascii) (a b : byte) :
  Base64.Encode_finish (Base64.mkEnc out (u8 a * 256 + u8 b) 16) =
  out ++ b64_chars_2 a b.
Proof.
  unfold Base64.Encode_finish. cbn [Base64.e_group Base64.e_group_size
                                    Base64.e_output].
  change (0 <? 16) with true. change (16 =? 8) with false. cbv iota.
  pose proof (u8_range a). pose proof (u8_range b).
  change (24 - 16) with 8. rewrite shl_mul by lia. unfold size_t_bits.
  change (2 ^ 8) with 256.
  rewrite Z.mod_small by (change (2 ^ 64) with 18446744073709551616; lia).
  rewrite !b64_sym_arith by lia. rewrite <- app_assoc. reflexivity.
Qed.

Lemma b64_encode_loop_app (l1 l2 : list byte) (st : Base64.enc_state) :
  Base64.Encode_loop (l1 ++ l2) st =
  Base64.Encode_loop l2 (Base64.Encode_loop l1 st).
Proof.
  apply fold_left_app.
Qed.

Lemma b64_encode_loop_spec (input : list byte) (out : list ascii) :
  Base64.Encode_finish (Base64.Encode_loop input (Base64.mkEnc out 0 0)) =
  out ++ b64_encode_spec input.
Proof.
  revert input out. fix IH 1. intros [|a [|b [|c input]]] out.
  - simpl. rewrite app_nil_r. reflexivity.
  - unfold Base64.Encode_loop. simpl fold_left.
    rewrite b64_enc_step_0. apply b64_enc_finish_1.
  - unfold Base64.Encode_loop. simpl fold_left.
    rewrite b64_enc_step_0, b64_enc_step_1. apply b64_enc_finish_2.
  - change (a :: b :: c :: input) with ([a; b; c] ++ input) at 1.
    rewrite b64_encode_loop_app.
    unfold Base64.Encode_loop at 2. simpl fold_left.
    rewrite b64_enc_step_0, b64_enc_step_1, b64_enc_step_2, IH.
    change (b64_encode_spec (a :: b :: c :: input))
      with (b64_chars_3 a b c ++ b64_encode_spec input).
    rewrite app_assoc. reflexivity.
Qed.

Lemma b64_encode_spec_eq (input : list byte) :
  Base64.Encode input = string_of_list_ascii (b64_encode_spec input).
Proof.
  unfold Base64.Encode. destruct input as [|b input].
  - reflexivity.
  - replace (len (b :: input) =? 0) with false
      by (symmetry; apply Z.eqb_neq; unfold len; simpl; lia).
    rewrite b64_encode_loop_spec. reflexivity.
Qed.

Lemma b64_table_inverse (i : Z) :
  0 <= i < 64 ->
  Base64.Base64ReverseTable (char_u8 (table_at Base64.Base64Table i)) = i /\
  Ascii.eqb (table_at Base64.Base64Table i) "=" = false.
Proof.
  intros Hi.
  assert (H : forallb (table_inverse Base64.Base64Table
                         Base64.Base64ReverseTable "=")
                      (map Z.of_nat (seq 0 64)) = true) by reflexivity.
  pose proof (forall_below _ 64 H i Hi) as Hc.
  apply andb_true_iff in Hc. destruct Hc as [Hc Hd].
  apply Z.eqb_eq in Hc. apply negb_true_iff in Hd. split; assumption.
Qed.

Lemma b64_valid_values_char (v : Z) (l : list ascii) :
  b64_valid_values (b64_char v :: l) = v mod 64 :: b64_valid_values l.
Proof.
  assert (Hv : 0 <= v mod 64 < 64) by (apply Z.mod_pos_bound; lia).
  destruct (b64_table_inverse (v mod 64) Hv) as [E1 E2].
  rewrite b64_valid_values_cons. unfold b64_char. rewrite E2, E1.
  unfold Base64.InvalidBase64Character.
  replace (v mod 64 =? 255) with false by (symmetry; apply Z.eqb_neq; lia).
  reflexivity.
Qed.

Lemma b64_valid_values_pad (l : list ascii) :
  b64_valid_values ("="%char :: l) = [].
Proof. reflexivity. Qed.

Lemma b64_valid_values_of_encoding (input : list byte) :
  b64_valid_values (b64_encode_spec input) = b64_values_of input.
Proof.
  revert input. fix IH 1. intros [|a [|b [|c input]]].
  - reflexivity.
  - change (b64_encode_spec [a]) with (b64_chars_1 a). unfold b64_chars_1.
    cbv zeta. rewrite !b64_valid_values_char, b64_valid_values_pad.
    reflexivity.
  - change (b64_encode_spec [a; b]) with (b64_chars_2 a b).
    unfold b64_chars_2. cbv zeta.
    rewrite !b64_valid_values_char, b64_valid_values_pad. reflexivity.
  - change (b64_encode_spec (a :: b :: c :: input))
      with (b64_chars_3 a b c ++ b64_encode_spec input)%list.
    unfold b64_chars_3. cbv zeta. simpl app.
    rewrite !b64_valid_values_char, IH. reflexivity.
Qed.

Lemma b64_decode_values_of (input : list byte) :
  (b64_full_groups (b64_values_of input) ++
   b64_trailing (b64_tail (b64_values_of input)))%list = input.
Proof.
  revert input. fix IH 1. intros [|a [|b [|c input]]].
  - reflexivity.
  - pose proof (u8_range a). simpl. f_equal.
    rewrite <- (to_u8_u8 a) at 3. f_equal. Z.div_mod_to_equations. lia.
  - pose proof (u8_range a). pose proof (u8_range b). simpl.
    rewrite <- (to_u8_u8 a) at 5. rewrite <- (to_u8_u8 b) at 5.
    f_equal; [|f_equal]; f_equal; Z.div_mod_to_equations; lia.
  - pose proof (u8_range a). pose proof (u8_range b). pose proof (u8_range c).
    change (b64_values_of (a :: b :: c :: input))
      with (let v := (u8 a * 256 + u8 b) * 256 + u8 c in
            (v / 262144) mod 64 :: (v / 4096) mod 64 :: (v / 64) mod 64
            :: v mod 64 :: b64_values_of input).
    cbv zeta. set (v := (u8 a * 256 + u8 b) * 256 + u8 c).
    change (b64_tail (?s0 :: ?s1 :: ?s2 :: ?s3 :: b64_values_of input))
      with (b64_tail (b64_values_of input)).
    change (b64_full_groups (?s0 :: ?s1 :: ?s2 :: ?s3 :: b64_values_of input))
      with (b64_octets3 s0 s1 s2 s3 ++ b64_full_groups (b64_values_of input))%list.
    rewrite <- app_assoc, IH.
    unfold b64_octets3, b64_group24. cbv zeta.
    assert (Hv : (((v / 262144) mod 64 * 64 + (v / 4096) mod 64) * 64 +
                  (v / 64) mod 64) * 64 + v mod 64 = v)
      by (unfold v; Z.div_mod_to_equations; lia).
    rewrite Hv. simpl app.
    rewrite <- (to_u8_u8 a) at 1. rewrite <- (to_u8_u8 b) at 1.
    rewrite <- (to_u8_u8 c) at 1.
    rewrite <- (to_u8_mod (v / 256)), <- (to_u8_mod v).
    f_equal; [|f_equal; [|f_equal]]; f_equal; unfold v;
      Z.div_mod_to_equations; lia.
Qed.

Lemma b64_roundtrip (x : list byte) : Base64.Decode (Base64.Encode x) = x.
Proof.
  unfold Base64.Decode. rewrite b64_decode_run_spec, b64_encode_spec_eq.
  rewrite list_ascii_of_string_of_list_ascii, b64_valid_values_of_encoding.
  apply b64_decode_values_of.
Qed.

(** ** Base32: decoding an encoding *)

Lemma b32_table_inverse (i : Z) :
  0 <= i < 32 ->
  Base32.Base32ReverseTable (char_u8 (table_at Base32.Base32Table i)) = i /\
  Ascii.eqb (table_at Base32.Base32Table i) "=" = false.
Proof.
  intros Hi.
  assert (H : forallb (table_inverse Base32.Base32Table
                         Base32.Base32ReverseTable "=")
                      (map Z.of_nat (seq 0 32)) = true) by reflexivity.
  pose proof (forall_below _ 32 H i Hi) as Hc.
  apply andb_true_iff in Hc. destruct Hc as [Hc Hd].
  apply Z.eqb_eq in Hc. apply negb_true_iff in Hd. split; assumption.
Qed.

(** One round of the decoding loop on the character of the symbol [s]. *)
Lemma b32_dec_sym (out : list byte) (G g s : Z) (rest : list ascii) :
  0 <= s < 32 ->
  Base32.Decode_loop (table_at Base32.Base32Table s :: rest)
                     (Base32.mkState out G g) =
  Base32.Decode_loop rest
    (if 8 <=? g + 5
     then Base32.mkState (out ++ [b32_oct (b32_dnext G s) (g + 5 - 8)])
                         (b32_dnext G s) (g + 5 - 8)
     else Base32.mkState out (b32_dnext G s) (g + 5)).
Proof.
  intros Hs. destruct (b32_table_inverse s Hs) as [E1 E2].
  simpl Base32.Decode_loop. unfold Base32.Base32PaddingCharacter.
  rewrite E2. unfold Base32.Decode_step. rewrite E1.
  unfold Base32.InvalidBase32Character.
  replace (s =? 255) with false by (symmetry; apply Z.eqb_neq; lia).
  reflexivity.
Qed.

Lemma b32_dec_pad (st : Base32.state) (rest : list ascii) :
  Base32.Decode_loop ("="%char :: rest) st = st.
Proof. reflexivity. Qed.

Lemma b32_dnext_arith (G s : Z) :
  0 <= s < 32 ->
  b32_dnext G s = (G * 32) mod 18446744073709551616 + s.
Proof.
  intros Hs. unfold b32_dnext, uint_fast32_bits.
  rewrite land_31, (Z.mod_small s) by lia.
  rewrite lor_shl_add by (change (2 ^ 5) with 32; lia). reflexivity.
Qed.

Lemma b32_decode_run_check (input : string) :
  Base32.Decode_run input =
  if len (list_ascii_of_string input) =? 0 then Some []
  else b32_check (Base32.Decode_loop (list_ascii_of_string input)
                                     (Base32.mkState [] 0 0)).
Proof. reflexivity. Qed.

Lemma b32_check_pos (out : list byte) (G g : Z) :
  0 < g < 8 -> G mod 2 ^ g = 0 ->
  b32_check (Base32.mkState out G g) = Some out.
Proof.
  intros Hg HG. unfold b32_check. cbn [Base32.group_size Base32.group
                                       Base32.output].
  replace (0 <? g) with true by (symmetry; apply Z.ltb_lt; lia).
  cbv zeta.
  assert (Hm : wrap uint_fast32_bits
                 (Z.lnot (shl uint_fast32_bits (2 ^ uint_fast32_bits - 1) g))
               = Z.ones g).
  { assert (Hc : g = 1 \/ g = 2 \/ g = 3 \/ g = 4 \/ g = 5 \/ g = 6 \/ g = 7)
      by lia.
    destruct Hc as [->|[->|[->|[->|[->|[->| ->]]]]]]; reflexivity. }
  rewrite Hm, Z.land_ones, HG by lia. reflexivity.
Qed.

Ltac b32_dec_step :=
  rewrite b32_dec_sym by (apply Z.mod_pos_bound; lia);
  match goal with
  | |- context [if 8 <=? ?g + 5 then _ else _] =>
      let b := eval compute in (8 <=? g + 5) in
      change (8 <=? g + 5) with b; cbv iota;
      let g' := eval compute in (g + 5) in
      let g'' := eval compute in (g + 5 - 8) in
      try change (g + 5 - 8) with g''; try change (g + 5) with g'
  end.

Lemma extract_bits (X k j : Z) :
  0 <= k -> 0 <= j -> (X / 2 ^ k) mod 2 ^ j = (X mod 2 ^ (k + j)) / 2 ^ k.
Proof.
  intros Hk Hj.
  assert (Pk : 0 < 2 ^ k) by (apply Z.pow_pos_nonneg; lia).
  assert (Pj : 0 < 2 ^ j) by (apply Z.pow_pos_nonneg; lia).
  rewrite Z.pow_add_r by lia.
  rewrite Z.rem_mul_r by lia.
  rewrite Z.mul_comm, Z.div_add by lia.
  rewrite (Z.div_small (X mod 2 ^ k)) by (apply Z.mod_pos_bound; lia).
  reflexivity.
Qed.

Lemma mod_pow2_mod_pow2 (X k m : Z) :
  0 <= k <= m -> (X mod 2 ^ m) mod 2 ^ k = X mod 2 ^ k.
Proof.
  intros H. apply Z.mod_mod_divide.
  exists (2 ^ (m - k)). rewrite <- Z.pow_add_r by lia. f_equal. lia.
Qed.

(** The low bits of [group] after a symbol has been shifted in. *)
Lemma b32_dnext_mod_low (G s k : Z) :
  0 <= s < 32 -> 0 <= k <= 5 -> b32_dnext G s mod 2 ^ k = s mod 2 ^ k.
Proof.
  intros Hs Hk. rewrite b32_dnext_arith by lia.
  change 18446744073709551616 with (2 ^ 64).
  rewrite <- Zplus_mod_idemp_l, mod_pow2_mod_pow2 by lia.
  replace (G * 32) with (G * 2 ^ (5 - k) * 2 ^ k)
    by (rewrite <- Z.mul_assoc, <- Z.pow_add_r by lia;
        replace (5 - k + k) with 5 by lia; reflexivity).
  rewrite Z.mod_mul by (apply Z.pow_nonzero; lia). reflexivity.
Qed.

Lemma b32_dnext_mod_high (G s k : Z) :
  0 <= s < 32 -> 5 <= k <= 64 ->
  b32_dnext G s mod 2 ^ k = (G mod 2 ^ (k - 5)) * 32 + s.
Proof.
  intros Hs Hk. rewrite b32_dnext_arith by lia.
  change 18446744073709551616 with (2 ^ 64).
  assert (P : 0 < 2 ^ (k - 5)) by (apply Z.pow_pos_nonneg; lia).
  rewrite <- Zplus_mod_idemp_l, mod_pow2_mod_pow2 by lia.
  replace (2 ^ k) with (2 ^ (k - 5) * 32)
    by (change 32 with (2 ^ 5); rewrite <- Z.pow_add_r by lia; f_equal; lia).
  rewrite Zmult_mod_distr_r.
  pose proof (Z.mod_pos_bound G (2 ^ (k - 5)) P).
  apply Z.mod_small. nia.
Qed.

Lemma b32_oct_mod (G k : Z) :
  0 <= k -> b32_oct G k = to_u8 ((G mod 2 ^ (k + 8)) / 2 ^ k).
Proof.
  intros Hk. unfold b32_oct. to_arith.
  change 256 with (2 ^ 8). rewrite extract_bits by lia. reflexivity.
Qed.

Lemma mod_pow2_0 (X k : Z) : k = 0 -> X mod 2 ^ k = 0.
Proof.
  intros ->. apply Z.mod_1_r.
Qed.

(** Rewriting of [group mod 2^k] to the symbols that make its low bits. *)
Ltac b32_low_bits :=
  repeat first
    [ rewrite b32_dnext_mod_high by (try apply Z.mod_pos_bound; lia)
    | rewrite b32_dnext_mod_low by (try apply Z.mod_pos_bound; lia)
    | rewrite mod_pow2_0 by lia ].

Ltac b32_oct_eq :=
  rewrite b32_oct_mod by lia; b32_low_bits;
  match goal with
  | |- to_u8 ?x = ?b =>
      transitivity (to_u8 (u8 b)); [apply (f_equal to_u8) | apply to_u8_u8]
  end;
  b32_pows; Z.div_mod_to_equations; lia.

Lemma b32_dec_block (out : list byte) (G : Z) (a b c d e : byte)
    (rest : list ascii) :
  exists G',
    Base32.Decode_loop (b32_group_chars [a; b; c; d; e] ++ rest)
                       (Base32.mkState out G 0) =
    Base32.Decode_loop rest (Base32.mkState (out ++ [a; b; c; d; e]) G' 0).
Proof.
  rewrite b32_group_chars_5. cbv zeta. rewrite Z.mul_1_r, be_value_5.
  set (v := (((u8 a * 256 + u8 b) * 256 + u8 c) * 256 + u8 d) * 256 + u8 e).
  cbn [map app]. b32_pows.
  do 8 b32_dec_step.
  eexists. f_equal. f_equal.
  rewrite <- !app_assoc. f_equal. simpl app.
  pose proof (u8_range a). pose proof (u8_range b). pose proof (u8_range c).
  pose proof (u8_range d). pose proof (u8_range e).
  unfold v.
  apply (f_equal2 cons); [b32_oct_eq|].
  apply (f_equal2 cons); [b32_oct_eq|].
  apply (f_equal2 cons); [b32_oct_eq|].
  apply (f_equal2 cons); [b32_oct_eq|].
  apply (f_equal2 cons); [b32_oct_eq|]. reflexivity.
Qed.

Ltac b32_pad_zero :=
  b32_low_bits; b32_pows; Z.div_mod_to_equations; lia.

Lemma b32_dec_partial_1 (out : list byte) (G : Z) (a : byte) :
  b32_check (Base32.Decode_loop (b32_group_chars [a])
                                (Base32.mkState out G 0)) =
  Some (out ++ [a]).
Proof.
  change (b32_group_chars [a]) with
    (map (fun k => table_at Base32.Base32Table
                     (((0 * 256 + u8 a) * 2 ^ 2 / 2 ^ k) mod 32)) [5; 0]
     ++ repeat "="%char 6).
  cbn [map app repeat]. pose proof (u8_range a).
  do 2 b32_dec_step. rewrite b32_dec_pad.
  rewrite b32_check_pos; [|lia|b32_pad_zero].
  do 3 f_equal. b32_oct_eq.
Qed.

Lemma b32_dec_partial_2 (out : list byte) (G : Z) (a b : byte) :
  b32_check (Base32.Decode_loop (b32_group_chars [a; b])
                                (Base32.mkState out G 0)) =
  Some (out ++ [a; b]).
Proof.
  change (b32_group_chars [a; b]) with
    (map (fun k => table_at Base32.Base32Table
                     ((((0 * 256 + u8 a) * 256 + u8 b) * 2 ^ 4 / 2 ^ k) mod 32))
         [15; 10; 5; 0]
     ++ repeat "="%char 4).
  cbn [map app repeat]. pose proof (u8_range a). pose proof (u8_range b).
  do 4 b32_dec_step. rewrite b32_dec_pad.
  rewrite b32_check_pos; [|lia|b32_pad_zero].
  f_equal. rewrite <- !app_assoc. f_equal. simpl app.
  repeat (apply (f_equal2 cons); [b32_oct_eq|]). reflexivity.
Qed.

Lemma b32_dec_partial_3 (out : list byte) (G : Z) (a b c : byte) :
  b32_check (Base32.Decode_loop (b32_group_chars [a; b; c])
                                (Base32.mkState out G 0)) =
  Some (out ++ [a; b; c]).
Proof.
  change (b32_group_chars [a; b; c]) with
    (map (fun k => table_at Base32.Base32Table
                     (((((0 * 256 + u8 a) * 256 + u8 b) * 256 + u8 c)
                       * 2 ^ 1 / 2 ^ k) mod 32))
         [20; 15; 10; 5; 0]
     ++ repeat "="%char 3).
  cbn [map app repeat].
  pose proof (u8_range a). pose proof (u8_range b). pose proof (u8_range c).
  do 5 b32_dec_step. rewrite b32_dec_pad.
  rewrite b32_check_pos; [|lia|b32_pad_zero].
  f_equal. rewrite <- !app_assoc. f_equal. simpl app.
  repeat (apply (f_equal2 cons); [b32_oct_eq|]). reflexivity.
Qed.

Lemma b32_dec_partial_4 (out : list byte) (G : Z) (a b c d : byte) :
  b32_check (Base32.Decode_loop (b32_group_chars [a; b; c; d])
                                (Base32.mkState out G 0)) =
  Some (out ++ [a; b; c; d]).
Proof.
  change (b32_group_chars [a; b; c; d]) with
    (map (fun k => table_at Base32.Base32Table
                     ((((((0 * 256 + u8 a) * 256 + u8 b) * 256 + u8 c) * 256
                        + u8 d) * 2 ^ 3 / 2 ^ k) mod 32))
         [30; 25; 20; 15; 10; 5; 0]
     ++ repeat "="%char 1).
  cbn [map app repeat].
  pose proof (u8_range a). pose proof (u8_range b). pose proof (u8_range c).
  pose proof (u8_range d).
  do 7 b32_dec_step. rewrite b32_dec_pad.
  rewrite b32_check_pos; [|lia|b32_pad_zero].
  f_equal. rewrite <- !app_assoc. f_equal. simpl app.
  repeat (apply (f_equal2 cons); [b32_oct_eq|]). reflexivity.
Qed.

Lemma b32_decode_encoding (x : list byte) (out : list byte) (G : Z) :
  b32_check (Base32.Decode_loop (b32_encode_spec x) (Base32.mkState out G 0)) =
  Some (out ++ x).
Proof.
  revert x out G. fix IH 1. intros [|a [|b [|c [|d [|e x]]]]] out G.
  - simpl. rewrite app_nil_r. reflexivity.
  - apply b32_dec_partial_1.
  - apply b32_dec_partial_2.
  - apply b32_dec_partial_3.
  - apply b32_dec_partial_4.
  - change (b32_encode_spec (a :: b :: c :: d :: e :: x))
      with (b32_group_chars [a; b; c; d; e] ++ b32_encode_spec x)%list.
    destruct (b32_dec_block out G a b c d e (b32_encode_spec x)) as [G' ->].
    rewrite IH, <- app_assoc. reflexivity.
Qed.

Lemma b32_roundtrip (x : list byte) : Base32.Decode (Base32.Encode x) = x.
Proof.
  unfold Base32.Decode.
  rewrite b32_decode_run_check, b32_encode_spec_eq,
    list_ascii_of_string_of_list_ascii.
  destruct (len (b32_encode_spec x) =? 0) eqn:E.
  - pose proof (b32_encode_spec_length x) as Hl.
    apply Z.eqb_eq in E. rewrite E in Hl.
    destruct x as [|b x]; [reflexivity|].
    unfold len in Hl. simpl List.length in Hl. rewrite Nat2Z.inj_succ in Hl.
    Z.div_mod_to_equations. lia.
  - rewrite b32_decode_encoding. reflexivity.
Qed.

(** ** Positional arithmetic for Base58 *)

Section Radix.

Variables B K : Z.
Hypothesis HB : 2 <= B.
Hypothesis HK : 0 < K.

Lemma digits_value_app (l1 l2 : list Z) :
  digits_value B (l1 ++ l2) =
  digits_value B l1 + B ^ len l1 * digits_value B l2.
Proof.
  induction l1 as [|d l1 IH].
  - cbn [digits_value app muladd fst snd]. change (len (@nil Z)) with 0.
    rewrite Z.pow_0_r. lia.
  - simpl app. simpl digits_value. rewrite IH.
    replace (len (d :: l1)) with (Z.succ (len l1))
      by (unfold len; simpl List.length; lia).
    rewrite Z.pow_succ_r by apply len_nonneg. ring.
Qed.

Lemma digits_value_bound (ds : list Z) :
  digits_ok B ds -> 0 <= digits_value B ds < B ^ len ds.
Proof.
  induction ds as [|d ds IH]; intros H.
  - cbn [digits_value app muladd fst snd]. change (len (@nil Z)) with 0.
    rewrite Z.pow_0_r. lia.
  - inversion H as [|? ? Hd Hds]; subst. specialize (IH Hds).
    simpl digits_value.
    replace (len (d :: ds)) with (Z.succ (len ds))
      by (unfold len; simpl List.length; lia).
    rewrite Z.pow_succ_r by apply len_nonneg. nia.
Qed.

Lemma muladd_length (ds : list Z) (c : Z) :
  List.length (fst (muladd B K ds c)) = List.length ds.
Proof.
  revert c. induction ds as [|d ds IH]; intros c; simpl; [reflexivity|].
  specialize (IH ((c + K * d) / B)).
  destruct (muladd B K ds ((c + K * d) / B)) as [r c']. simpl in *.
  rewrite IH. reflexivity.
Qed.

Lemma muladd_value (ds : list Z) (c : Z) :
  digits_value B (fst (muladd B K ds c)) +
  B ^ len ds * snd (muladd B K ds c) = K * digits_value B ds + c.
Proof.
  revert c. induction ds as [|d ds IH]; intros c.
  - cbn [digits_value app muladd fst snd]. change (len (@nil Z)) with 0.
    rewrite Z.pow_0_r. lia.
  - simpl muladd. specialize (IH ((c + K * d) / B)).
    destruct (muladd B K ds ((c + K * d) / B)) as [r c'].
    cbn [fst snd digits_value] in *.
    replace (len (d :: ds)) with (Z.succ (len ds))
      by (unfold len; simpl List.length; lia).
    rewrite Z.pow_succ_r by apply len_nonneg.
    pose proof (Z.div_mod (c + K * d) B ltac:(lia)). nia.
Qed.

Lemma muladd_ok (ds : list Z) (c : Z) :
  digits_ok B ds -> 0 <= c < K ->
  digits_ok B (fst (muladd B K ds c)) /\ 0 <= snd (muladd B K ds c) < K.
Proof.
  revert c. induction ds as [|d ds IH]; intros c Hds Hc.
  - simpl. split; [constructor | exact Hc].
  - inversion Hds as [|? ? Hd Hds']; subst. simpl muladd.
    assert (Ht : 0 <= (c + K * d) / B < K).
    { split.
      - apply Z.div_pos; nia.
      - apply Z.div_lt_upper_bound; nia. }
    specialize (IH _ Hds' Ht).
    destruct (muladd B K ds ((c + K * d) / B)) as [r c']. simpl in *.
    destruct IH as [IH1 IH2]. split; [|exact IH2].
    constructor; [apply Z.mod_pos_bound; lia | exact IH1].
Qed.

Lemma extend_spec (room : nat) (c : Z) :
  0 <= c ->
  let r := fst (extend B room c) in
  let c' := snd (extend B room c) in
  digits_ok B r /\ 0 <= c' /\
  digits_value B r + B ^ len r * c' = c /\
  (List.length r <= room)%nat /\
  (c' <> 0 -> List.length r = room) /\
  (c' = 0 -> r <> [] -> last r 1 <> 0) /\
  (c <> 0 -> (0 < room)%nat -> r <> []).
Proof.
  revert c. induction room as [|room IH]; intros c Hc; cbv zeta.
  - cbn [extend fst snd digits_value]. change (len (@nil Z)) with 0.
    rewrite Z.pow_0_r.
    repeat split; try constructor; try lia; try congruence.
  - simpl extend. destruct (c =? 0) eqn:E.
    + apply Z.eqb_eq in E. subst c. cbn [fst snd digits_value List.length].
      change (len (@nil Z)) with 0. rewrite Z.pow_0_r.
      repeat split; try constructor; try lia; try congruence.
    + apply Z.eqb_neq in E.
      assert (Hq : 0 <= c / B) by (apply Z.div_pos; lia).
      specialize (IH _ Hq). cbv zeta in IH.
      destruct (extend B room (c / B)) as [r c'] eqn:Er.
      cbn [fst snd digits_value List.length] in *.
      destruct IH as (I1 & I2 & I3 & I4 & I5 & I6 & I7).
      replace (len (c mod B :: r)) with (Z.succ (len r))
        by (unfold len; simpl List.length; lia).
      rewrite Z.pow_succ_r by apply len_nonneg.
      pose proof (Z.div_mod c B ltac:(lia)) as Hdm.
      pose proof (Z.mod_pos_bound c B ltac:(lia)) as Hmb.
      repeat split; try lia; try congruence.
      * constructor; assumption.
      * intros Hc' _. destruct r as [|d r].
        -- cbn [digits_value] in I3. change (len (@nil Z)) with 0 in I3.
           subst c'. rewrite Z.pow_0_r in I3.
           assert (c / B = 0) by lia. cbn [last]. lia.
        -- apply I6; [exact Hc' | discriminate].
Qed.

Lemma digits_value_zero (ds : list Z) :
  digits_ok B ds -> digits_value B ds = 0 -> Forall (fun d => d = 0) ds.
Proof.
  induction ds as [|d ds IH]; intros Hok Hv; [constructor|].
  inversion Hok as [|? ? Hd Hds]; subst. simpl in Hv.
  pose proof (digits_value_bound ds Hds) as Hb.
  assert (d = 0 /\ digits_value B ds = 0) as [-> Hz] by nia.
  constructor; [reflexivity | apply IH; assumption].
Qed.

Lemma canonical_zero (ds : list Z) :
  canonical B ds -> digits_value B ds = 0 -> ds = [].
Proof.
  intros [Hok Hl] Hv. pose proof (digits_value_zero ds Hok Hv) as Hz.
  destruct ds as [|d ds]; [reflexivity|]. exfalso. apply Hl.
  assert (Hin : In (last (d :: ds) 1) (d :: ds)).
  { destruct (exists_last (l := d :: ds) ltac:(discriminate)) as (l' & x & E).
    rewrite E, last_last. apply in_or_app. right. left. reflexivity. }
  rewrite Forall_forall in Hz. apply Hz, Hin.
Qed.

Lemma canonical_tail (d : Z) (ds : list Z) :
  canonical B (d :: ds) -> ds <> [] -> canonical B ds.
Proof.
  intros [Hok Hl] Hne. split.
  - inversion Hok; assumption.
  - destruct ds as [|e ds]; [congruence | exact Hl].
Qed.

(** Two canonical digit lists with the same value are the same list. *)
Lemma canonical_unique (l1 l2 : list Z) :
  canonical B l1 -> canonical B l2 ->
  digits_value B l1 = digits_value B l2 -> l1 = l2.
Proof.
  revert l2. induction l1 as [|d1 l1 IH]; intros l2 H1 H2 Hv.
  - symmetry. apply canonical_zero; [exact H2 | simpl in Hv; lia].
  - destruct l2 as [|d2 l2].
    + apply canonical_zero; [exact H1 | exact Hv].
    + simpl in Hv.
      pose proof (proj1 H1) as O1. pose proof (proj1 H2) as O2.
      inversion O1 as [|? ? Hd1 Hl1]; subst.
      inversion O2 as [|? ? Hd2 Hl2]; subst.
      pose proof (digits_value_bound l1 Hl1).
      pose proof (digits_value_bound l2 Hl2).
      assert (Hv' : digits_value B l1 = digits_value B l2).
      { set (v1 := digits_value B l1) in *. set (v2 := digits_value B l2) in *.
        destruct (Z.lt_trichotomy v1 v2) as [Hlt|[Heq|Hgt]];
          [exfalso; nia | exact Heq | exfalso; nia]. }
      assert (d1 = d2) as -> by lia.
      f_equal.
      destruct l1 as [|e1 l1], l2 as [|e2 l2].
      * reflexivity.
      * symmetry. apply canonical_zero;
          [apply (canonical_tail d2); [exact H2 | discriminate]
          | simpl in Hv'; simpl; lia].
      * apply canonical_zero;
          [apply (canonical_tail d2); [exact H1 | discriminate]
          | simpl in Hv'; simpl; lia].
      * apply IH; [apply (canonical_tail d2); [exact H1 | discriminate]
                  | apply (canonical_tail d2); [exact H2 | discriminate]
                  | exact Hv'].
Qed.

End Radix.

(** ** Base58: the size of the digit buffer *)

(** [256^100 <= 58^137]: 137/100 is above [log 256 / log 58]. *)
Lemma pow_256_100_le : 256 ^ 100 <= 58 ^ 137.
Proof.
  apply Z.leb_le. vm_compute. reflexivity.
Qed.

(** The [input_length * 137 / 100 + 1] digits of the buffer can hold every
    number below [256 ^ input_length]. *)
Lemma b58_buffer_holds (n : Z) :
  0 <= n -> 256 ^ n < 58 ^ (137 * n / 100 + 1).
Proof.
  intros Hn. set (k := 137 * n / 100 + 1).
  assert (Hk : 137 * n + 1 <= 100 * k)
    by (unfold k; Z.div_mod_to_equations; lia).
  assert (Hk0 : 0 <= k) by lia.
  destruct (Z.lt_ge_cases (256 ^ n) (58 ^ k)) as [H|H]; [exact H|exfalso].
  assert (P58 : 0 < 58 ^ k) by (apply Z.pow_pos_nonneg; lia).
  assert (H1 : (58 ^ k) ^ 100 <= (256 ^ n) ^ 100)
    by (apply Z.pow_le_mono_l; lia).
  rewrite <- !Z.pow_mul_r in H1 by lia.
  assert (H2 : 58 ^ (137 * n + 1) <= 58 ^ (k * 100))
    by (apply Z.pow_le_mono_r; lia).
  rewrite Z.pow_add_r, Z.pow_1_r in H2 by lia.
  assert (H3 : 256 ^ (n * 100) <= 58 ^ (137 * n)).
  { rewrite (Z.mul_comm n 100), !Z.pow_mul_r by lia.
    apply Z.pow_le_mono_l. split; [apply Z.pow_nonneg; lia|].
    apply pow_256_100_le. }
  assert (P : 0 < 58 ^ (137 * n)) by (apply Z.pow_pos_nonneg; lia).
  lia.
Qed.

Lemma b58_room (n z : Z) :
  0 <= z <= n ->
  256 ^ (n - z) <= 58 ^ (137 * n / 100 + 1 - z).
Proof.
  intros Hz. pose proof (b58_buffer_holds n ltac:(lia)) as H.
  set (M := 137 * n / 100 + 1) in *.
  assert (HM : n < M) by (unfold M; Z.div_mod_to_equations; lia).
  assert (E1 : 256 ^ n = 256 ^ (n - z) * 256 ^ z)
    by (rewrite <- Z.pow_add_r by lia; f_equal; lia).
  assert (E2 : 58 ^ M = 58 ^ (M - z) * 58 ^ z)
    by (rewrite <- Z.pow_add_r by lia; f_equal; lia).
  assert (L : 58 ^ z <= 256 ^ z) by (apply Z.pow_le_mono_l; lia).
  assert (P1 : 0 < 58 ^ z) by (apply Z.pow_pos_nonneg; lia).
  assert (P2 : 0 < 256 ^ (n - z)) by (apply Z.pow_pos_nonneg; lia).
  assert (P3 : 0 < 58 ^ (M - z)) by (apply Z.pow_pos_nonneg; lia).
  nia.
Qed.

(** ** Base58: the conversion loop of [Encode] on the digit buffer *)

Lemma set_nth_middle {A} (l l' : list A) (a x : A) :
  set_nth (l ++ a :: l') (List.length l) x = l ++ x :: l'.
Proof.
  induction l as [|b l IH]; simpl; [reflexivity | rewrite IH; reflexivity].
Qed.

Lemma char_u8_zero : char_u8 zero = 0.
Proof. reflexivity. Qed.

Lemma len_cons {A} (a : A) (l : list A) : len (a :: l) = len l + 1.
Proof.
  unfold len. simpl List.length. lia.
Qed.

Lemma len_map {A C} (f : A -> C) (l : list A) : len (map f l) = len l.
Proof.
  unfold len. rewrite length_map. reflexivity.
Qed.

(** The rounds of the inner loop over the digits that exist. *)
Lemma b58_enc_inner_digits (ds : list Z) :
  forall (pre post : list ascii) (c L zeros j : Z) (fuel : nat),
    digits_ok 58 ds -> 0 <= c < 256 ->
    j - zeros = len pre -> j + len ds <= L ->
    (List.length ds <= fuel)%nat ->
    Base58.Encode_inner plain_string fuel zeros j
      (Base58.mkConv plain_string c (pre ++ map to_char ds ++ post) L) =
    Base58.Encode_inner plain_string (fuel - List.length ds) zeros (j + len ds)
      (Base58.mkConv plain_string (snd (muladd 58 256 ds c))
         (pre ++ map to_char (fst (muladd 58 256 ds c)) ++ post) L).
Proof.
  induction ds as [|d ds IH]; intros pre post c L zeros j fuel Hok Hc Hj HL Hf.
  - cbn [muladd fst snd map List.length]. change (len (@nil Z)) with 0.
    rewrite Nat.sub_0_r, Z.add_0_r. reflexivity.
  - inversion Hok as [|? ? Hd Hok']; subst.
    rewrite len_cons in HL.
    destruct fuel as [|fuel]; [simpl in Hf; lia|].
    cbn [Base58.Encode_inner]. cbn [Base58.c_output_length Base58.carry
                                    Base58.c_output].
    replace (j =? L) with false by (symmetry; apply Z.eqb_neq;
                                    pose proof (len_nonneg ds); lia).
    cbn [andb]. cbn [at_ assign plain_string].
    replace (Z.to_nat (j - zeros)) with (List.length pre)
      by (rewrite Hj; unfold len; lia).
    cbn [map app]. rewrite nth_middle, set_nth_middle.
    rewrite char_u8_to_char, (Z.mod_small d) by lia.
    rewrite Z.shiftl_mul_pow2 by lia. change (2 ^ 8) with 256.
    unfold wrap, uint32_bits. change (2 ^ 32) with 4294967296.
    rewrite (Z.mod_small (c + d * 256)) by lia.
    assert (Ht : 0 <= (c + d * 256) / 58 < 256).
    { split; [apply Z.div_pos; lia | apply Z.div_lt_upper_bound; lia]. }
    specialize (IH (pre ++ [to_char ((c + d * 256) mod 58)]) post
                   ((c + d * 256) / 58) L zeros (j + 1) fuel Hok' Ht).
    rewrite <- !app_assoc in IH. cbn [app] in IH.
    rewrite IH; [| rewrite len_app; change (len [_]) with 1; lia | lia
                 | simpl in Hf; lia].
    cbn [muladd]. rewrite (Z.mul_comm 256 d).
    destruct (muladd 58 256 ds ((c + d * 256) / 58)) as [r c'].
    cbn [fst snd map List.length]. rewrite <- ?app_assoc. cbn [app].
    rewrite len_cons.
    replace (S fuel - S (List.length ds))%nat
      with (fuel - List.length ds)%nat by lia.
    replace (j + 1 + len ds) with (j + (len ds + 1)) by lia.
    reflexivity.
Qed.

(** The rounds of the inner loop at the end of the digits: the carry grows
    the number into the [room] unused places of the buffer. *)
Lemma b58_enc_inner_extend (room : nat) :
  forall (pre post : list ascii) (c L zeros : Z),
    0 <= c < 256 -> L - zeros = len pre ->
    Base58.Encode_inner plain_string room zeros L
      (Base58.mkConv plain_string c (pre ++ repeat zero room ++ post) L) =
    Base58.mkConv plain_string (snd (extend 58 room c))
      (pre ++ map to_char (fst (extend 58 room c)) ++
       repeat zero (room - List.length (fst (extend 58 room c))) ++ post)
      (L + len (fst (extend 58 room c))).
Proof.
  induction room as [|room IH]; intros pre post c L zeros Hc HL.
  - cbn [Base58.Encode_inner extend fst snd map List.length repeat app].
    change (len (@nil Z)) with 0. rewrite Z.add_0_r. reflexivity.
  - cbn [Base58.Encode_inner]. cbn [Base58.c_output_length Base58.carry
                                    Base58.c_output].
    rewrite Z.eqb_refl. cbn [andb extend].
    destruct (c =? 0) eqn:E.
    + apply Z.eqb_eq in E. subst c.
      cbn [fst snd map List.length app]. change (len (@nil Z)) with 0.
      rewrite Z.add_0_r, Nat.sub_0_r. reflexivity.
    + apply Z.eqb_neq in E. cbn [at_ assign plain_string].
      replace (Z.to_nat (L - zeros)) with (List.length pre)
        by (rewrite HL; unfold len; lia).
      cbn [repeat app]. rewrite nth_middle, set_nth_middle.
      rewrite char_u8_zero. change (Z.shiftl 0 8) with 0.
      rewrite Z.add_0_r.
      unfold wrap, uint32_bits. change (2 ^ 32) with 4294967296.
      rewrite (Z.mod_small c) by lia.
      assert (Ht : 0 <= c / 58 < 256).
      { split; [apply Z.div_pos; lia | apply Z.div_lt_upper_bound; lia]. }
      specialize (IH (pre ++ [to_char (c mod 58)]) post (c / 58) (L + 1) zeros
                     Ht).
      rewrite <- !app_assoc in IH. cbn [app] in IH.
      rewrite IH by (rewrite len_app; change (len [_]) with 1; lia).
      destruct (extend 58 room (c / 58)) as [r c'].
      cbn [fst snd map List.length]. rewrite <- ?app_assoc. cbn [app].
      rewrite len_cons.
      replace (S room - S (List.length r))%nat
        with (room - List.length r)%nat by lia.
      replace (L + 1 + len r) with (L + (len r + 1)) by lia.
      reflexivity.
Qed.

(** One round of the outer loop of [Encode]: the digits [ds] of the buffer
    are multiplied by 256 and the octet is added. *)
Lemma b58_enc_inner_spec (ds : list Z) (room : nat) (post : list ascii)
    (c zeros : Z) :
  digits_ok 58 ds -> 0 <= c < 256 -> 0 <= zeros ->
  let m := muladd 58 256 ds c in
  let e := extend 58 room (snd m) in
  Base58.Encode_inner plain_string (List.length ds + room) zeros zeros
    (Base58.mkConv plain_string c
       (map to_char ds ++ repeat zero room ++ post) (zeros + len ds)) =
  Base58.mkConv plain_string (snd e)
    (map to_char (fst m ++ fst e) ++
     repeat zero (room - List.length (fst e)) ++ post)
    (zeros + len (fst m ++ fst e)).
Proof.
  intros Hok Hc Hz m e.
  pose proof (b58_enc_inner_digits ds [] (repeat zero room ++ post) c
                (zeros + len ds) zeros zeros (List.length ds + room)
                Hok Hc) as H1.
  cbn [app] in H1. rewrite H1; [| change (len (@nil ascii)) with 0; lia | lia
                               | lia].
  fold m. destruct (muladd_ok 58 256 ltac:(lia) ltac:(lia) ds c Hok Hc)
    as [Hok' Hc'].
  fold m in Hok', Hc'.
  replace (List.length ds + room - List.length ds)%nat with room by lia.
  pose proof (b58_enc_inner_extend room (map to_char (fst m)) post (snd m)
                (zeros + len ds) zeros Hc') as H2.
  rewrite H2.
  - fold e. rewrite map_app, <- app_assoc, len_app.
    f_equal. unfold len, m. rewrite muladd_length. lia.
  - rewrite len_map. unfold len, m. rewrite muladd_length. lia.
Qed.

(** ** One step of a base conversion on canonical digits *)

Section RadixStep.

Variables B K : Z.
Hypothesis HB : 2 <= B.
Hypothesis HK : 1 <= K.

Lemma canonical_lower (ds : list Z) :
  canonical B ds -> ds <> [] -> B ^ (len ds - 1) <= digits_value B ds.
Proof.
  intros [Hok Hl] Hne.
  destruct (exists_last Hne) as (l & x & E). subst ds.
  rewrite last_last in Hl.
  apply Forall_app in Hok. destruct Hok as [Hokl Hx].
  pose proof (Forall_inv Hx) as Hx'. cbv beta in Hx'.
  rewrite (digits_value_app B), len_app.
  change (len [x]) with 1. cbn [digits_value].
  replace (len l + 1 - 1) with (len l) by lia.
  pose proof (digits_value_bound B HB l Hokl).
  assert (P : 0 < B ^ len l)
    by (apply Z.pow_pos_nonneg; [lia | apply len_nonneg]).
  nia.
Qed.

Lemma top_digit_nonzero (ds : list Z) :
  digits_ok B ds -> ds <> [] -> B ^ (len ds - 1) <= digits_value B ds ->
  last ds 1 <> 0.
Proof.
  intros Hok Hne Hv.
  destruct (exists_last Hne) as (l & x & E). subst ds.
  rewrite last_last. intros ->.
  apply Forall_app in Hok. destruct Hok as [Hokl _].
  rewrite (digits_value_app B), len_app in Hv.
  change (len [0]) with 1 in Hv. cbn [digits_value] in Hv.
  replace (len l + 1 - 1) with (len l) in Hv by lia.
  pose proof (digits_value_bound B HB l Hokl). lia.
Qed.

Lemma last_app_nonempty (l1 l2 : list Z) (d : Z) :
  l2 <> [] -> last (l1 ++ l2) d = last l2 d.
Proof.
  intros Hne. destruct (exists_last Hne) as (l & x & ->).
  rewrite app_assoc, !last_last. reflexivity.
Qed.

(** Multiplying canonical digits by [K] and adding [c], with enough room
    for the result: no carry is left, and the digits are canonical again. *)
Lemma radix_step (ds : list Z) (room : nat) (c : Z) :
  canonical B ds -> 0 <= c < K -> (ds = [] -> c <> 0) ->
  K * digits_value B ds + c < B ^ (len ds + Z.of_nat room) ->
  let m := muladd B K ds c in
  let e := extend B room (snd m) in
  snd e = 0 /\
  canonical B (fst m ++ fst e) /\
  fst m ++ fst e <> [] /\
  digits_value B (fst m ++ fst e) = K * digits_value B ds + c /\
  (List.length (fst e) <= room)%nat /\
  List.length (fst m) = List.length ds.
Proof.
  intros Hcan Hc Hne Hcap. cbv zeta.
  pose proof (proj1 Hcan) as Hok.
  destruct (muladd_ok B K HB ltac:(lia) ds c Hok Hc) as [Hokm Hcm].
  pose proof (muladd_value B K HB ds c) as Hvm.
  pose proof (muladd_length B K ds c) as Hlm.
  set (m := muladd B K ds c) in *.
  assert (Hcm0 : 0 <= snd m) by lia.
  pose proof (extend_spec B HB room (snd m) Hcm0) as He.
  cbv zeta in He. set (e := extend B room (snd m)) in *.
  destruct He as (Hoke & Hce & Hve & Hle & Hfull & Hlast & Hnonempty).
  assert (Hlenm : len (fst m) = len ds) by (unfold len; rewrite Hlm; lia).
  assert (Hval : digits_value B (fst m ++ fst e) + B ^ (len ds + len (fst e)) * snd e
                 = K * digits_value B ds + c).
  { rewrite (digits_value_app B), Hlenm.
    rewrite Z.pow_add_r by apply len_nonneg.
    rewrite <- Hvm, <- Hve. ring. }
  assert (Hokme : digits_ok B (fst m ++ fst e))
    by (apply Forall_app; split; assumption).
  pose proof (digits_value_bound B HB _ Hokme) as Hbme.
  assert (Hzero : snd e = 0).
  { destruct (Z.eq_dec (snd e) 0) as [E|E]; [exact E|exfalso].
    specialize (Hfull E).
    replace (len (fst e)) with (Z.of_nat room) in Hval
      by (unfold len; rewrite Hfull; reflexivity).
    assert (P : 0 < B ^ (len ds + Z.of_nat room))
      by (apply Z.pow_pos_nonneg; [lia | pose proof (len_nonneg ds); lia]).
    nia. }
  rewrite Hzero, Z.mul_0_r, Z.add_0_r in Hval.
  assert (Hnot_nil : fst m ++ fst e <> []).
  { destruct ds as [|d ds'].
    - subst e m. cbn [muladd fst snd digits_value] in *.
      change (len (@nil Z)) with 0 in Hcap.
      destruct room as [|room'].
      + cbn [Z.of_nat] in Hcap. rewrite Z.pow_0_r in Hcap.
        specialize (Hne eq_refl). lia.
      + cbn [app]. apply Hnonempty; [apply Hne; reflexivity | lia].
    - destruct (fst m) as [|x r]; [simpl in Hlm; lia|]. discriminate. }
  repeat split; try assumption.
  destruct (fst e) as [|x r] eqn:Ee.
  - rewrite app_nil_r in *.
    apply top_digit_nonzero; try assumption.
    rewrite Hlenm, Hval.
    destruct ds as [|d ds']; [exfalso; apply Hnot_nil;
                              destruct (fst m); [reflexivity|simpl in Hlm; lia]|].
    pose proof (canonical_lower (d :: ds') Hcan ltac:(discriminate)) as Hlow.
    assert (P : 0 < B ^ (len (d :: ds') - 1))
      by (apply Z.pow_pos_nonneg; [lia | rewrite len_cons;
                                          pose proof (len_nonneg ds'); lia]).
    nia.
  - rewrite last_app_nonempty by discriminate.
    apply Hlast; [exact Hzero | discriminate].
Qed.

End RadixStep.

(** ** Base58: the outer loop of [Encode] *)

Lemma b58_encode_loop_spec (rest : list byte) :
  forall (ds : list Z) (room : nat) (post : list ascii) (zeros M : Z),
    canonical 58 ds ->
    (ds = [] -> match rest with [] => True | o :: _ => u8 o <> 0 end) ->
    0 <= zeros -> M - zeros = Z.of_nat (List.length ds + room) ->
    (digits_value 58 ds + 1) * 256 ^ len rest
      <= 58 ^ Z.of_nat (List.length ds + room) ->
    exists (ds' : list Z) (room' : nat),
      Base58.Encode_loop plain_string rest zeros M
        (map to_char ds ++ repeat zero room ++ post) (zeros + len ds) =
      Some (map to_char ds' ++ repeat zero room' ++ post, zeros + len ds') /\
      (List.length ds' + room' = List.length ds + room)%nat /\
      canonical 58 ds' /\
      digits_value 58 ds' = be_from (digits_value 58 ds) rest /\
      (ds <> [] \/ rest <> [] -> ds' <> []).
Proof.
  induction rest as [|o rest IH]; intros ds room post zeros M Hcan Hfirst Hz HM Hcap.
  - exists ds, room. cbn [Base58.Encode_loop be_from fold_left].
    repeat split; try apply Hcan; try reflexivity.
    intros [H|H]; congruence.
  - cbn [Base58.Encode_loop]. rewrite HM, Nat2Z.id.
    pose proof (u8_range o) as Ho.
    pose proof (proj1 Hcan) as Hok.
    pose proof (digits_value_bound 58 ltac:(lia) ds Hok) as Hvb.
    rewrite len_cons, Z.pow_add_r, Z.pow_1_r in Hcap
      by (try apply len_nonneg; lia).
    assert (P : 0 < 256 ^ len rest)
      by (apply Z.pow_pos_nonneg; [lia | apply len_nonneg]).
    rewrite b58_enc_inner_spec by (try assumption; lia).
    destruct (radix_step 58 256 ltac:(lia) ltac:(lia) ds room (u8 o) Hcan Ho)
      as (Hzero & Hcan' & Hne' & Hval' & Hroom & Hlm).
    { intros ->. specialize (Hfirst eq_refl). exact Hfirst. }
    { rewrite Nat2Z.inj_add in Hcap. unfold len. nia. }
    set (m := muladd 58 256 ds (u8 o)) in *.
    set (e := extend 58 room (snd m)) in *.
    cbn [Base58.carry Base58.c_output Base58.c_output_length].
    rewrite Hzero. change (0 <? 0) with false. cbv iota.
    destruct (IH (fst m ++ fst e) (room - List.length (fst e))%nat post zeros M
                 Hcan') as (ds' & room' & E & Hl & Hc' & Hv & Hn).
    + intros Habs. contradiction.
    + exact Hz.
    + rewrite HM, length_app, Hlm. lia.
    + rewrite Hval', length_app, Hlm.
      replace (List.length ds + List.length (fst e)
               + (room - List.length (fst e)))%nat
        with (List.length ds + room)%nat by lia.
      nia.
    + exists ds', room'. rewrite E.
      repeat split; try apply Hc'; try reflexivity.
      * rewrite Hl, length_app, Hlm. lia.
      * rewrite Hv, Hval'. unfold be_from. cbn [fold_left].
        f_equal. ring.
      * intros _. apply Hn. left. exact Hne'.
Qed.

(** ** Base58: what [Encode] returns *)

Lemma u8_zero (b : byte) : u8 b = 0 -> b = x00.
Proof.
  intros H. rewrite <- (to_u8_u8 b), H. reflexivity.
Qed.

Lemma b58_count_zeros_spec (input : list byte) :
  0 <= Base58.count_zeros input <= len input /\
  input = repeat x00 (Z.to_nat (Base58.count_zeros input)) ++
          skipn (Z.to_nat (Base58.count_zeros input)) input /\
  match skipn (Z.to_nat (Base58.count_zeros input)) input with
  | [] => True
  | o :: _ => u8 o <> 0
  end.
Proof.
  induction input as [|b input (IH1 & IH2 & IH3)].
  - repeat split; try reflexivity; cbn; lia.
  - cbn [Base58.count_zeros]. rewrite len_cons.
    destruct (u8 b =? 0) eqn:E.
    + apply Z.eqb_eq in E. apply u8_zero in E. subst b.
      replace (Z.to_nat (1 + Base58.count_zeros input))
        with (S (Z.to_nat (Base58.count_zeros input))) by lia.
      cbn [repeat skipn app].
      split; [lia | split; [f_equal; exact IH2 | exact IH3]].
    + apply Z.eqb_neq in E. cbn [Z.to_nat repeat skipn app].
      pose proof (len_nonneg input).
      split; [lia | split; [reflexivity | exact E]].
Qed.

Lemma set_nth_beyond {A} (l : list A) (i : nat) (x : A) :
  (List.length l <= i)%nat -> set_nth l i x = l.
Proof.
  revert i. induction l as [|a l IH]; intros i Hi; [destruct i; reflexivity|].
  destruct i as [|i]; [simpl in Hi; lia|].
  simpl. rewrite IH by (simpl in Hi; lia). reflexivity.
Qed.

(** The substitution loop maps every character of the string; its last
    round, at index [size()], leaves the characters as they are. *)
Lemma b58_substitute_plain (todo : list ascii) :
  forall done : list ascii,
    Base58.substitute plain_string (List.length todo + 1) (len done)
                      (done ++ todo) =
    done ++ map b58_subst todo.
Proof.
  induction todo as [|c todo IH]; intros done.
  - cbn [List.length Nat.add Base58.substitute assign plain_string map].
    rewrite app_nil_r. apply set_nth_beyond. unfold len. lia.
  - cbn [List.length Nat.add Base58.substitute assign at_ plain_string map].
    replace (Z.to_nat (len done)) with (List.length done)
      by (unfold len; lia).
    rewrite nth_middle, set_nth_middle.
    specialize (IH (done ++ [b58_subst c])).
    rewrite len_app in IH. change (len [_]) with 1 in IH.
    rewrite <- !app_assoc in IH. cbn [app] in IH.
    unfold b58_subst at 1 in IH. rewrite IH. reflexivity.
Qed.

Lemma b58_subst_digit (d : Z) :
  0 <= d < 58 -> b58_subst (to_char d) = table_at Base58.Base58Table d.
Proof.
  intros Hd. unfold b58_subst.
  rewrite char_u8_to_char, Z.mod_small by lia. reflexivity.
Qed.

Lemma b58_subst_digits (ds : list Z) :
  digits_ok 58 ds ->
  map b58_subst (map to_char ds) = map (table_at Base58.Base58Table) ds.
Proof.
  induction ds as [|d ds IH]; intros Hok; [reflexivity|].
  inversion Hok as [|? ? Hd Hok']; subst.
  cbn [map]. rewrite b58_subst_digit, IH by assumption. reflexivity.
Qed.

Lemma map_repeat {A C} (f : A -> C) (x : A) (n : nat) :
  map f (repeat x n) = repeat (f x) n.
Proof.
  induction n as [|n IH]; simpl; [reflexivity | rewrite IH; reflexivity].
Qed.

Lemma rev_repeat {A} (x : A) (n : nat) : rev (repeat x n) = repeat x n.
Proof.
  induction n as [|n IH]; [reflexivity|].
  cbn [repeat rev]. rewrite IH.
  change (repeat x n ++ [x]) with (repeat x n ++ repeat x 1).
  rewrite <- repeat_app. replace (n + 1)%nat with (S n) by lia. reflexivity.
Qed.

Lemma firstn_repeat {A} (x : A) (n m : nat) :
  (n <= m)%nat -> firstn n (repeat x m) = repeat x n.
Proof.
  revert m. induction n as [|n IH]; intros m H; [reflexivity|].
  destruct m as [|m]; [lia|]. cbn [repeat firstn].
  rewrite IH by lia. reflexivity.
Qed.

Lemma resize_to_digits {A} (ds : list A) (a b : nat) (n : Z) (x : A) :
  n = len ds + Z.of_nat b ->
  resize_to (ds ++ repeat x a ++ repeat x b) n x = ds ++ repeat x b.
Proof.
  intros Hn. unfold resize_to.
  replace (Z.to_nat n) with (List.length ds + b)%nat
    by (unfold len in Hn; lia).
  rewrite firstn_app_2, <- repeat_app, firstn_repeat by lia.
  rewrite !length_app, !repeat_length.
  replace (List.length ds + b - (List.length ds + (a + b)))%nat
    with 0%nat by lia.
  cbn [repeat]. rewrite app_nil_r. reflexivity.
Qed.

Lemma canonical_nil (B : Z) : canonical B [].
Proof.
  split; [constructor | cbn; lia].
Qed.

(** [Base58::Encode] on a non-empty input that fits the size arithmetic:
    no error return; the result is one ['1'] for each leading zero octet,
    followed by the canonical base-58 digits, most significant first, of the
    number that the other octets make. *)
Lemma b58_encode_run_spec (input : list byte) :
  input <> [] -> 137 * len input < 2 ^ 64 ->
  let z := Z.to_nat (Base58.count_zeros input) in
  exists ds : list Z,
    canonical 58 ds /\
    digits_value 58 ds = be_value (skipn z input) /\
    (skipn z input <> [] -> ds <> []) /\
    Base58.Encode_run plain_string input =
    Some (repeat "1"%char z ++ rev (map (table_at Base58.Base58Table) ds)).
Proof.
  intros Hne Hsize z.
  destruct (b58_count_zeros_spec input) as (Hz & Hsplit & Hfirst).
  fold z in Hsplit, Hfirst.
  set (rest := skipn z input) in *.
  unfold Base58.Encode_run.
  assert (Hlen : 0 < len input).
  { destruct input; [congruence|]. rewrite len_cons.
    pose proof (len_nonneg input). lia. }
  replace (len input =? 0) with false by (symmetry; apply Z.eqb_neq; lia).
  unfold wrap, size_t_bits.
  rewrite (Z.mod_small (len input * 137)) by lia.
  set (M := len input * 137 / 100 + 1).
  assert (HM : len input < M) by (unfold M; Z.div_mod_to_equations; lia).
  cbn [make plain_string].
  assert (Hrest : len rest = len input - Z.of_nat z).
  { rewrite Hsplit at 1. rewrite len_app. unfold len at 2.
    rewrite repeat_length. lia. }
  replace (repeat zero (Z.to_nat M))
    with (map to_char [] ++ repeat zero (Z.to_nat M - z) ++ repeat zero z)
    by (cbn [map app]; rewrite <- repeat_app; f_equal; lia).
  change (skipn (Z.to_nat (Base58.count_zeros input)) input) with rest.
  destruct (b58_encode_loop_spec rest [] (Z.to_nat M - z)%nat (repeat zero z)
              (Base58.count_zeros input) M (canonical_nil 58))
    as (ds & room' & E & Hl & Hcan & Hv & Hn).
  - intros _. exact Hfirst.
  - lia.
  - cbn [List.length]. lia.
  - cbn [digits_value List.length]. rewrite Z.mul_1_l, Hrest.
    replace (Z.of_nat (0 + (Z.to_nat M - z)))
      with (137 * len input / 100 + 1 - Z.of_nat z)
      by (unfold M; rewrite (Z.mul_comm 137); lia).
    apply b58_room. lia.
  - change (len (@nil Z)) with 0 in E. rewrite Z.add_0_r in E.
    exists ds. rewrite E. cbn [resize reverse plain_string].
    split; [exact Hcan|]. split; [exact Hv|].
    split; [intros Hr; apply Hn; right; exact Hr|].
    rewrite resize_to_digits by (rewrite len_map; lia).
    replace (Z.to_nat (Base58.count_zeros input + len ds + 1))
      with (List.length (map to_char ds ++ repeat zero z) + 1)%nat
      by (rewrite length_app, length_map, repeat_length; unfold len; lia).
    change 0 with (len (@nil ascii)) at 1.
    change (map to_char ds ++ repeat zero z)
      with ([] ++ (map to_char ds ++ repeat zero z)) at 2.
    rewrite b58_substitute_plain. cbn [app].
    rewrite map_app, map_repeat, b58_subst_digits by apply Hcan.
    rewrite rev_app_distr, rev_repeat. reflexivity.
Qed.

(** ** [Encode] returns the empty string for the empty input only *)

Lemma string_of_list_ascii_empty (l : list ascii) :
  string_of_list_ascii l = EmptyString <-> l = [].
Proof.
  destruct l; simpl; split; congruence.
Qed.

Lemma len_zero_nil {A} (l : list A) : len l = 0 -> l = [].
Proof.
  destruct l; [reflexivity|]. rewrite len_cons.
  pose proof (len_nonneg l). lia.
Qed.

Lemma b16_encode_empty (input : list byte) :
  Base16.Encode input = EmptyString <-> input = [].
Proof.
  split; [|intros ->; reflexivity].
  destruct input as [|b input]; [reflexivity|].
  unfold Base16.Encode.
  replace (len (b :: input) =? 0) with false
    by (symmetry; apply Z.eqb_neq; rewrite len_cons;
        pose proof (len_nonneg input); lia).
  rewrite b16_encode_loop_spec. cbn. discriminate.
Qed.

Lemma b32_encode_empty (input : list byte) :
  Base32.Encode input = EmptyString <-> input = [].
Proof.
  split; [|intros ->; reflexivity].
  rewrite b32_encode_spec_eq, string_of_list_ascii_empty. intros H.
  pose proof (b32_encode_spec_length input) as Hl. rewrite H in Hl.
  change (len (@nil ascii)) with 0 in Hl.
  apply len_zero_nil. pose proof (len_nonneg input).
  Z.div_mod_to_equations. lia.
Qed.

Lemma b45_encode_empty (input : list byte) :
  Base45.Encode input = EmptyString <-> input = [].
Proof.
  split; [|intros ->; reflexivity].
  rewrite b45_encode_spec_eq, string_of_list_ascii_empty.
  destruct input as [|a [|b input]]; [reflexivity| |]; cbn; discriminate.
Qed.

Lemma b64_encode_empty (input : list byte) :
  Base64.Encode input = EmptyString <-> input = [].
Proof.
  split; [|intros ->; reflexivity].
  rewrite b64_encode_spec_eq, string_of_list_ascii_empty.
  destruct input as [|a [|b [|c input]]]; [reflexivity| | |]; cbn; discriminate.
Qed.

Lemma b58_encode_succeeds (input : list byte) :
  137 * len input < 2 ^ 64 ->
  exists output : list ascii,
    Base58.Encode_run plain_string input = Some output /\
    Base58.Encode input = string_of_list_ascii output /\
    (output = [] <-> input = []).
Proof.
  intros Hsize. destruct input as [|b input].
  - exists []. repeat split; reflexivity.
  - destruct (b58_encode_run_spec (b :: input) ltac:(discriminate) Hsize)
      as (ds & Hcan & Hv & Hne & E).
    eexists. split; [exact E|]. split.
    + unfold Base58.Encode. rewrite E. reflexivity.
    + split; [|discriminate]. intros H. exfalso.
      apply app_eq_nil in H. destruct H as [H1 H2].
      destruct (Z.to_nat (Base58.count_zeros (b :: input))) as [|z];
        [|discriminate H1].
      cbn [skipn] in Hne. specialize (Hne ltac:(discriminate)).
      destruct ds as [|d ds]; [congruence|].
      cbn [map rev] in H2. apply app_eq_nil in H2. destruct H2 as [_ H2].
      discriminate H2.
Qed.

(** C4: for each of the five codecs [Encode] returns the empty string exactly
    for the empty input; and [Base58::Encode] never takes its error return
    for a left-over carry: the [input_length * 137 / 100 + 1] digits of its
    buffer hold every carry.  For Base58 the input is one whose length times
    137 does not leave the 64 bits of [std::size_t]. *)
Theorem encode_total_nonempty (input : list byte) :
  (Base16.Encode input = EmptyString <-> input = []) /\
  (Base32.Encode input = EmptyString <-> input = []) /\
  (Base45.Encode input = EmptyString <-> input = []) /\
  (Base64.Encode input = EmptyString <-> input = []) /\
  (137 * len input < 2 ^ 64 ->
   (Base58.Encode input = EmptyString <-> input = []) /\
   exists output : list ascii,
     Base58.Encode_run plain_string input = Some output /\
     Base58.Encode input = string_of_list_ascii output).
Proof.
  split; [apply b16_encode_empty|].
  split; [apply b32_encode_empty|].
  split; [apply b45_encode_empty|].
  split; [apply b64_encode_empty|].
  intros Hsize.
  destruct (b58_encode_succeeds input Hsize) as (output & E & Eo & Hempty).
  split.
  - rewrite Eo, string_of_list_ascii_empty. exact Hempty.
  - exists output. split; [exact E | exact Eo].
Qed.

(** [encode_total_nonempty] for the octets [00 00 28 7f b4 cd]. *)
Lemma encode_total_nonempty_witness :
  (Base58.Encode [x00; x00; x28; x7f; xb4; xcd] = EmptyString <->
   [x00; x00; x28; x7f; xb4; xcd] = []) /\
  exists output : list ascii,
    Base58.Encode_run plain_string [x00; x00; x28; x7f; xb4; xcd] =
    Some output /\
    Base58.Encode [x00; x00; x28; x7f; xb4; xcd] = string_of_list_ascii output.
Proof.
  apply (proj2 (proj2 (proj2 (proj2
           (encode_total_nonempty [x00; x00; x28; x7f; xb4; xcd]))))).
  vm_compute. reflexivity.
Defined.

(** ** Base58: the conversion loop of [Decode] on the octet buffer *)

Lemma b58_dec_inner_digits (ds : list Z) :
  forall (pre post : list byte) (c L j : Z) (fuel : nat),
    digits_ok 256 ds -> 0 <= c < 58 ->
    j = len pre -> j + len ds <= L ->
    (List.length ds <= fuel)%nat ->
    Base58.Decode_inner fuel j
      (Base58.mkDconv c (pre ++ map to_u8 ds ++ post) L) =
    Base58.Decode_inner (fuel - List.length ds) (j + len ds)
      (Base58.mkDconv (snd (muladd 256 58 ds c))
         (pre ++ map to_u8 (fst (muladd 256 58 ds c)) ++ post) L).
Proof.
  induction ds as [|d ds IH]; intros pre post c L j fuel Hok Hc Hj HL Hf.
  - cbn [muladd fst snd map List.length]. change (len (@nil Z)) with 0.
    rewrite Nat.sub_0_r, Z.add_0_r. reflexivity.
  - inversion Hok as [|? ? Hd Hok']; subst.
    rewrite len_cons in HL.
    destruct fuel as [|fuel]; [simpl in Hf; lia|].
    cbn [Base58.Decode_inner]. cbn [Base58.d_output_length Base58.d_carry
                                    Base58.d_output].
    replace (len pre =? L) with false by (symmetry; apply Z.eqb_neq;
                                          pose proof (len_nonneg ds); lia).
    cbn [andb].
    replace (Z.to_nat (len pre)) with (List.length pre) by (unfold len; lia).
    cbn [map app]. rewrite nth_middle, set_nth_middle.
    rewrite u8_to_u8, (Z.mod_small d) by lia.
    unfold wrap, uint32_bits. change (2 ^ 32) with 4294967296.
    rewrite (Z.mod_small (c + 58 * d)) by lia.
    assert (Ht : 0 <= (c + 58 * d) / 256 < 58).
    { split; [apply Z.div_pos; lia | apply Z.div_lt_upper_bound; lia]. }
    specialize (IH (pre ++ [to_u8 ((c + 58 * d) mod 256)]) post
                   ((c + 58 * d) / 256) L (len pre + 1) fuel Hok' Ht).
    rewrite <- !app_assoc in IH. cbn [app] in IH.
    rewrite IH; [| rewrite len_app; change (len [_]) with 1; lia | lia
                 | simpl in Hf; lia].
    cbn [muladd].
    destruct (muladd 256 58 ds ((c + 58 * d) / 256)) as [r c'].
    cbn [fst snd map List.length]. rewrite <- ?app_assoc. cbn [app].
    rewrite len_cons.
    replace (S fuel - S (List.length ds))%nat
      with (fuel - List.length ds)%nat by lia.
    replace (len pre + 1 + len ds) with (len pre + (len ds + 1)) by lia.
    reflexivity.
Qed.

Lemma u8_x00 : u8 x00 = 0.
Proof. reflexivity. Qed.

Lemma b58_dec_inner_extend (room : nat) :
  forall (pre : list byte) (c L : Z),
    0 <= c < 58 -> L = len pre ->
    Base58.Decode_inner room L
      (Base58.mkDconv c (pre ++ repeat x00 room) L) =
    Base58.mkDconv (snd (extend 256 room c))
      (pre ++ map to_u8 (fst (extend 256 room c)) ++
       repeat x00 (room - List.length (fst (extend 256 room c))))
      (L + len (fst (extend 256 room c))).
Proof.
  induction room as [|room IH]; intros pre c L Hc HL.
  - cbn [Base58.Decode_inner extend fst snd map List.length repeat app].
    change (len (@nil Z)) with 0. rewrite Z.add_0_r. reflexivity.
  - cbn [Base58.Decode_inner]. cbn [Base58.d_output_length Base58.d_carry
                                    Base58.d_output].
    rewrite Z.eqb_refl. cbn [andb extend].
    destruct (c =? 0) eqn:E.
    + apply Z.eqb_eq in E. subst c.
      cbn [fst snd map List.length app]. change (len (@nil Z)) with 0.
      rewrite Z.add_0_r, Nat.sub_0_r. reflexivity.
    + apply Z.eqb_neq in E.
      replace (Z.to_nat L) with (List.length pre)
        by (rewrite HL; unfold len; lia).
      cbn [repeat app]. rewrite nth_middle, set_nth_middle.
      rewrite u8_x00, Z.mul_0_r, Z.add_0_r.
      unfold wrap, uint32_bits. change (2 ^ 32) with 4294967296.
      rewrite (Z.mod_small c) by lia.
      assert (Ht : 0 <= c / 256 < 58).
      { split; [apply Z.div_pos; lia | apply Z.div_lt_upper_bound; lia]. }
      specialize (IH (pre ++ [to_u8 (c mod 256)]) (c / 256) (L + 1) Ht).
      rewrite <- !app_assoc in IH. cbn [app] in IH.
      rewrite IH by (rewrite len_app; change (len [_]) with 1; lia).
      destruct (extend 256 room (c / 256)) as [r c'].
      cbn [fst snd map List.length]. rewrite <- ?app_assoc. cbn [app].
      rewrite len_cons.
      replace (S room - S (List.length r))%nat
        with (room - List.length r)%nat by lia.
      replace (L + 1 + len r) with (L + (len r + 1)) by lia.
      reflexivity.
Qed.

Lemma b58_dec_inner_spec (ds : list Z) (room : nat) (c : Z) :
  digits_ok 256 ds -> 0 <= c < 58 ->
  let m := muladd 256 58 ds c in
  let e := extend 256 room (snd m) in
  Base58.Decode_inner (List.length ds + room) 0
    (Base58.mkDconv c (map to_u8 ds ++ repeat x00 room) (len ds)) =
  Base58.mkDconv (snd e)
    (map to_u8 (fst m ++ fst e) ++ repeat x00 (room - List.length (fst e)))
    (len (fst m ++ fst e)).
Proof.
  intros Hok Hc m e.
  pose proof (b58_dec_inner_digits ds [] (repeat x00 room) c
                (len ds) 0 (List.length ds + room) Hok Hc) as H1.
  cbn [app] in H1. rewrite H1; [| reflexivity | lia | lia].
  fold m. destruct (muladd_ok 256 58 ltac:(lia) ltac:(lia) ds c Hok Hc)
    as [Hok' Hc'].
  fold m in Hok', Hc'.
  replace (List.length ds + room - List.length ds)%nat with room by lia.
  pose proof (b58_dec_inner_extend room (map to_u8 (fst m)) (snd m)
                (len ds) Hc') as H2.
  rewrite Z.add_0_l, H2.
  - fold e. rewrite map_app, <- app_assoc, len_app.
    f_equal. unfold len, m. rewrite muladd_length. lia.
  - rewrite len_map. unfold len, m. rewrite muladd_length. lia.
Qed.

(** ** Base58: decoding an encoding *)

Lemma b58_table_inverse (i : Z) :
  0 <= i < 58 ->
  Base58.Base58ReverseTable (char_u8 (table_at Base58.Base58Table i)) = i /\
  Base58.isspace (table_at Base58.Base58Table i) = false /\
  (i <> 0 -> Ascii.eqb (table_at Base58.Base58Table i) "1" = false).
Proof.
  intros Hi.
  assert (H : forallb b58_symbol_ok (map Z.of_nat (seq 0 58)) = true)
    by reflexivity.
  pose proof (forall_below _ 58 H i Hi) as Hc. unfold b58_symbol_ok in Hc.
  apply andb_true_iff in Hc. destruct Hc as [Hc H3].
  apply andb_true_iff in Hc. destruct Hc as [H1 H2].
  apply Z.eqb_eq in H1. apply negb_true_iff in H2.
  split; [exact H1|]. split; [exact H2|]. intros Hne.
  apply orb_true_iff in H3. destruct H3 as [H3|H3].
  - apply Z.eqb_eq in H3. contradiction.
  - apply negb_true_iff in H3. exact H3.
Qed.

Lemma b58_decode_leading_ones (z : nat) (l : list ascii) (k : Z) :
  Base58.Decode_leading (repeat "1"%char z ++ l) k =
  Base58.Decode_leading l (k + Z.of_nat z).
Proof.
  revert k. induction z as [|z IH]; intros k.
  - cbn [repeat app Z.of_nat]. rewrite Z.add_0_r. reflexivity.
  - cbn [repeat app Base58.Decode_leading].
    change (Ascii.eqb "1" "1") with true. cbv iota.
    rewrite IH. f_equal. lia.
Qed.

Lemma b58_decode_leading_digits (ms : list Z) (k : Z) :
  digits_ok 58 ms ->
  match ms with [] => True | d :: _ => d <> 0 end ->
  Base58.Decode_leading (map (table_at Base58.Base58Table) ms) k =
  (k, map (table_at Base58.Base58Table) ms).
Proof.
  intros Hok Hfirst. destruct ms as [|d ms]; [reflexivity|].
  pose proof (Forall_inv Hok) as Hd. cbv beta in Hd.
  destruct (b58_table_inverse d Hd) as (_ & Hs & Hone).
  cbn [map Base58.Decode_leading]. rewrite (Hone Hfirst), Hs. reflexivity.
Qed.

Lemma b58_decode_loop_spec (ms : list Z) :
  forall (ds : list Z) (room : nat) (M : Z),
    digits_ok 58 ms -> canonical 256 ds ->
    (ds = [] -> match ms with [] => True | d :: _ => d <> 0 end) ->
    M = Z.of_nat (List.length ds + room) ->
    (digits_value 256 ds + 1) * 58 ^ len ms
      <= 256 ^ Z.of_nat (List.length ds + room) ->
    exists (ds' : list Z) (room' : nat),
      Base58.Decode_loop (map (table_at Base58.Base58Table) ms) M
        (map to_u8 ds ++ repeat x00 room) (len ds) =
      Some (map to_u8 ds' ++ repeat x00 room', len ds') /\
      (List.length ds' + room' = List.length ds + room)%nat /\
      canonical 256 ds' /\
      digits_value 256 ds' = horner 58 (digits_value 256 ds) ms.
Proof.
  induction ms as [|d ms IH]; intros ds room M Hms Hcan Hfirst HM Hcap.
  - exists ds, room. cbn [map Base58.Decode_loop horner fold_left].
    repeat split; try apply Hcan; reflexivity.
  - inversion Hms as [|? ? Hd Hms']; subst.
    destruct (b58_table_inverse d Hd) as (Hrev & Hs & _).
    cbn [map Base58.Decode_loop]. rewrite Hs, Hrev.
    unfold Base58.InvalidBase58Character.
    replace (d =? 255) with false by (symmetry; apply Z.eqb_neq; lia).
    rewrite Nat2Z.id.
    pose proof (proj1 Hcan) as Hok.
    pose proof (digits_value_bound 256 ltac:(lia) ds Hok) as Hvb.
    rewrite len_cons, Z.pow_add_r, Z.pow_1_r in Hcap
      by (try apply len_nonneg; lia).
    assert (P : 0 < 58 ^ len ms)
      by (apply Z.pow_pos_nonneg; [lia | apply len_nonneg]).
    rewrite b58_dec_inner_spec by (try assumption; lia).
    destruct (radix_step 256 58 ltac:(lia) ltac:(lia) ds room d Hcan Hd)
      as (Hzero & Hcan' & Hne' & Hval' & Hroom & Hlm).
    { intros ->. specialize (Hfirst eq_refl). exact Hfirst. }
    { rewrite Nat2Z.inj_add in Hcap. unfold len. nia. }
    set (m := muladd 256 58 ds d) in *.
    set (e := extend 256 room (snd m)) in *.
    cbn [Base58.d_carry Base58.d_output Base58.d_output_length].
    rewrite Hzero. change (0 <? 0) with false. cbv iota.
    destruct (IH (fst m ++ fst e) (room - List.length (fst e))%nat
                 (Z.of_nat (List.length ds + room)) Hms' Hcan')
      as (ds' & room' & E & Hl & Hc' & Hv).
    + intros Habs. contradiction.
    + rewrite length_app, Hlm. lia.
    + rewrite Hval', length_app, Hlm.
      replace (List.length ds + List.length (fst e)
               + (room - List.length (fst e)))%nat
        with (List.length ds + room)%nat by lia.
      nia.
    + exists ds', room'. rewrite E.
      repeat split; try apply Hc'; try reflexivity.
      * rewrite Hl, length_app, Hlm. lia.
      * rewrite Hv, Hval'. unfold horner. cbn [fold_left].
        f_equal. ring.
Qed.

Lemma digits_value_horner (B : Z) (ds : list Z) :
  digits_value B ds = horner B 0 (rev ds).
Proof.
  induction ds as [|d ds IH]; [reflexivity|].
  cbn [rev digits_value]. unfold horner in *.
  rewrite fold_left_app. cbn [fold_left]. rewrite <- IH. ring.
Qed.

Lemma be_value_digits (l : list byte) :
  be_value l = digits_value 256 (rev (map u8 l)).
Proof.
  rewrite digits_value_horner, rev_involutive. unfold be_value, horner.
  generalize 0. induction l as [|b l IH]; intros V; [reflexivity|].
  cbn [map fold_left]. apply IH.
Qed.

Lemma rev_head_last (ds r : list Z) (d : Z) :
  rev ds = d :: r -> last ds 1 = d.
Proof.
  intros H. rewrite <- (rev_involutive ds), H. cbn [rev]. apply last_last.
Qed.

Lemma canonical_octets (rest : list byte) :
  match rest with [] => True | o :: _ => u8 o <> 0 end ->
  canonical 256 (rev (map u8 rest)).
Proof.
  intros Hfirst. split.
  - apply Forall_rev, Forall_map, Forall_forall. intros b _. apply u8_range.
  - destruct rest as [|o rest]; [cbn; lia|].
    cbn [map rev]. rewrite last_last. exact Hfirst.
Qed.

Lemma map_to_u8_u8 (l : list byte) : map to_u8 (map u8 l) = l.
Proof.
  induction l as [|b l IH]; [reflexivity|].
  cbn [map]. rewrite to_u8_u8, IH. reflexivity.
Qed.

Lemma resize_to_grow {A} (l : list A) (k : nat) (x : A) :
  resize_to l (len l + Z.of_nat k) x = l ++ repeat x k.
Proof.
  unfold resize_to.
  replace (Z.to_nat (len l + Z.of_nat k)) with (List.length l + k)%nat
    by (unfold len; lia).
  rewrite firstn_all2 by lia. f_equal. f_equal. lia.
Qed.

Lemma pow_58_le_256 (n z : Z) : 0 <= n -> 0 <= z -> 58 ^ n <= 256 ^ (z + n).
Proof.
  intros Hn Hz. rewrite Z.pow_add_r by lia.
  assert (58 ^ n <= 256 ^ n) by (apply Z.pow_le_mono_l; lia).
  assert (0 < 58 ^ n) by (apply Z.pow_pos_nonneg; lia).
  assert (0 < 256 ^ z) by (apply Z.pow_pos_nonneg; lia).
  nia.
Qed.

Lemma b58_roundtrip (x : list byte) :
  137 * len x < 2 ^ 64 -> Base58.Decode (Base58.Encode x) = x.
Proof.
  intros Hsize. destruct x as [|b0 x0]; [reflexivity|].
  set (x := b0 :: x0) in *.
  destruct (b58_encode_run_spec x ltac:(discriminate) Hsize)
    as (ds & Hcan & Hv & Hne & E).
  destruct (b58_count_zeros_spec x) as (Hz & Hsplit & Hfirst).
  set (z := Z.to_nat (Base58.count_zeros x)) in *.
  set (rest := skipn z x) in *.
  unfold Base58.Encode. rewrite E.
  unfold Base58.Decode, Base58.Decode_run.
  rewrite list_ascii_of_string_of_list_ascii.
  set (l := repeat "1"%char z ++ rev (map (table_at Base58.Base58Table) ds)).
  assert (Hlen : len l = Z.of_nat z + len ds).
  { unfold l. rewrite len_app. unfold len.
    rewrite repeat_length, length_rev, length_map. reflexivity. }
  assert (Hpos : 0 < len l).
  { rewrite Hlen. pose proof (len_nonneg ds).
    destruct z as [|z'] eqn:Ez; [|lia].
    assert (Hr : rest <> []) by (unfold rest; cbn [skipn]; discriminate).
    specialize (Hne Hr). destruct ds; [congruence|].
    rewrite len_cons. pose proof (len_nonneg ds). lia. }
  replace (len l =? 0) with false by (symmetry; apply Z.eqb_neq; lia).
  unfold l at 1. rewrite b58_decode_leading_ones, <- map_rev.
  assert (Hms : digits_ok 58 (rev ds)) by (apply Forall_rev, Hcan).
  assert (Hms1 : match rev ds with [] => True | d :: _ => d <> 0 end).
  { destruct (rev ds) as [|d r] eqn:Er; [exact I|].
    rewrite <- (rev_head_last ds r d Er). apply Hcan. }
  rewrite b58_decode_leading_digits by assumption.
  destruct (b58_decode_loop_spec (rev ds) [] (Z.to_nat (len l)) (len l) Hms
              (canonical_nil 256))
    as (ds' & room' & E' & Hl' & Hcan' & Hv').
  - intros _. exact Hms1.
  - cbn [List.length]. lia.
  - cbn [digits_value List.length]. rewrite Z.mul_1_l.
    replace (Z.of_nat (0 + Z.to_nat (len l))) with (Z.of_nat z + len (rev ds))
      by (unfold len at 1; rewrite length_rev; fold (len ds); lia).
    apply pow_58_le_256; [apply len_nonneg | lia].
  - cbn [map app] in E'. change (len (@nil Z)) with 0 in E'. rewrite E'.
    assert (Hds' : ds' = rev (map u8 rest)).
    { apply (canonical_unique 256 ltac:(lia)).
      - exact Hcan'.
      - apply canonical_octets, Hfirst.
      - rewrite Hv'. cbn [digits_value].
        rewrite <- digits_value_horner, Hv. apply be_value_digits. }
    rewrite <- (app_nil_r (repeat x00 room')).
    change (@nil byte) with (repeat x00 0).
    rewrite resize_to_digits by (cbn [Z.of_nat]; rewrite len_map; lia).
    cbn [repeat]. rewrite app_nil_r.
    assert (Hcase :
      (if 0 <? 0 + Z.of_nat z
       then resize_to (map to_u8 ds') (len (map to_u8 ds') + (0 + Z.of_nat z)) x00
       else map to_u8 ds') = map to_u8 ds' ++ repeat x00 z).
    { destruct (0 <? 0 + Z.of_nat z) eqn:Ez.
      - rewrite Z.add_0_l. apply resize_to_grow.
      - apply Z.ltb_ge in Ez. replace z with 0%nat by lia.
        cbn [repeat]. rewrite app_nil_r. reflexivity. }
    rewrite Hcase, rev_app_distr, rev_repeat, Hds'.
    rewrite map_rev, rev_involutive, map_to_u8_u8.
    symmetry. exact Hsplit.
Qed.

(** ** Decoding an encoding gives the input back *)

(** C1: for each of the five codecs and every sequence of octets [x], the
    empty one and those that begin with zero octets included,
    [Decode(Encode(x)) = x].  For Base58 the sequence is one whose length
    times 137 does not leave the 64 bits of [std::size_t]; there the store of
    [Encode] at index [size()] is taken to leave the characters of the
    string as they are. *)
Theorem decode_encode_roundtrip (x : list byte) :
  Base16.Decode (Base16.Encode x) = x /\
  Base32.Decode (Base32.Encode x) = x /\
  Base45.Decode (Base45.Encode x) = x /\
  Base64.Decode (Base64.Encode x) = x /\
  (137 * len x < 2 ^ 64 -> Base58.Decode (Base58.Encode x) = x).
Proof.
  split; [apply b16_roundtrip|].
  split; [apply b32_roundtrip|].
  split; [apply b45_roundtrip|].
  split; [apply b64_roundtrip|].
  apply b58_roundtrip.
Qed.

(** [decode_encode_roundtrip] for the octets [00 00 28 7f b4 cd], which
    begin with two zero octets. *)
Lemma decode_encode_roundtrip_witness :
  Base58.Decode (Base58.Encode [x00; x00; x28; x7f; xb4; xcd]) =
  [x00; x00; x28; x7f; xb4; xcd].
Proof.
  apply (proj2 (proj2 (proj2 (proj2
           (decode_encode_roundtrip [x00; x00; x28; x7f; xb4; xcd]))))).
  vm_compute. reflexivity.
Defined.

(** ** Base32: the inner loop of [Encode] ends by its own test *)

Lemma b32_emit_exits (fuel : nat) (st : Base32.enc_state) :
  5 <= Base32.e_group_size st <= 5 * Z.of_nat fuel + 9 ->
  0 <= Base32.e_group_size (Base32.emit fuel st) < 5.
Proof.
  revert st. induction fuel as [|fuel IH]; intros st H.
  - cbn [Base32.emit Base32.e_group_size]. lia.
  - cbn [Base32.emit]. cbn [Base32.e_group_size].
    destruct (5 <=? Base32.e_group_size st - 5) eqn:E.
    + apply Z.leb_le in E. apply IH. cbn [Base32.e_group_size]. lia.
    + apply Z.leb_gt in E. cbn [Base32.e_group_size]. lia.
Qed.

Lemma b32_encode_step_exits (st : Base32.enc_state) (octet : byte) :
  0 <= Base32.e_group_size st ->
  0 <= Base32.e_group_size (Base32.Encode_step st octet) < 5.
Proof.
  intros H. unfold Base32.Encode_step.
  match goal with
  | |- context [Base32.emit ?f ?s] =>
      pose proof (b32_emit_exits f s) as He; set (r := Base32.emit f s) in *
  end.
  cbn [Base32.e_group_size] in He.
  destruct (Base32.e_quantum r =? 8); cbn [Base32.e_group_size]; apply He; lia.
Qed.

(** ** Base58: the traced string computes what the plain string computes *)

Lemma b58_traced_inner (fuel : nat) :
  forall (zeros j c L : Z) (t : str traced_string),
    let r := Base58.Encode_inner traced_string fuel zeros j
               (Base58.mkConv traced_string c t L) in
    Base58.Encode_inner plain_string fuel zeros j
      (Base58.mkConv plain_string c (fst t) L) =
    Base58.mkConv plain_string (Base58.carry traced_string r)
      (fst (Base58.c_output traced_string r))
      (Base58.c_output_length traced_string r).
Proof.
  induction fuel as [|fuel IH]; intros zeros j c L t; cbv zeta.
  - reflexivity.
  - cbn [Base58.Encode_inner]. cbn [Base58.carry Base58.c_output
                                    Base58.c_output_length].
    destruct ((j =? L) && (c =? 0)); [reflexivity|].
    cbn [at_ assign plain_string traced_string].
    match goal with
    | |- context [Base58.Encode_inner traced_string fuel zeros (j + 1)
                    (Base58.mkConv traced_string ?c' ?t' ?L')] =>
        specialize (IH zeros (j + 1) c' L' t')
    end.
    cbv zeta in IH. cbn [fst] in IH. exact IH.
Qed.

Lemma b58_traced_loop (input : list byte) :
  forall (zeros M L : Z) (t : str traced_string),
    b58_erase (Base58.Encode_loop traced_string input zeros M t L) =
    Base58.Encode_loop plain_string input zeros M (fst t) L.
Proof.
  induction input as [|o input IH]; intros zeros M L t.
  - reflexivity.
  - cbn [Base58.Encode_loop].
    pose proof (b58_traced_inner (Z.to_nat (M - zeros)) zeros zeros (u8 o) L t)
      as H.
    cbv zeta in H. rewrite H.
    cbn [Base58.carry Base58.c_output Base58.c_output_length].
    destruct (0 <? Base58.carry traced_string _); [reflexivity|].
    apply IH.
Qed.

Lemma b58_traced_substitute (count : nat) :
  forall (i : Z) (t : str traced_string),
    fst (Base58.substitute traced_string count i t) =
    Base58.substitute plain_string count i (fst t).
Proof.
  induction count as [|count IH]; intros i t; [reflexivity|].
  cbn [Base58.substitute]. rewrite IH. reflexivity.
Qed.

Lemma b58_traced_run (input : list byte) :
  option_map fst (Base58.Encode_run traced_string input) =
  Base58.Encode_run plain_string input.
Proof.
  unfold Base58.Encode_run.
  destruct (len input =? 0); [reflexivity|].
  match goal with
  | |- context [Base58.Encode_loop traced_string ?i ?z ?M ?t ?L] =>
      pose proof (b58_traced_loop i z M L t) as H;
      destruct (Base58.Encode_loop traced_string i z M t L) as [[t' L']|]
  end.
  - cbn [b58_erase] in H. cbn [make traced_string plain_string fst] in H |- *.
    rewrite <- H. cbn [option_map reverse resize traced_string plain_string fst].
    rewrite b58_traced_substitute. reflexivity.
  - cbn [b58_erase] in H. cbn [make traced_string plain_string fst] in H |- *.
    rewrite <- H. reflexivity.
Qed.

(** * Further properties of the codecs *)

(** ** Characters *)

Lemma forall_ascii (P : ascii -> bool) :
  forallb P all_ascii = true -> forall c, P c = true.
Proof.
  intros H c. rewrite forallb_forall in H. apply H.
  unfold all_ascii. rewrite <- (ascii_nat_embedding c).
  apply in_map. apply in_seq. pose proof (nat_ascii_bounded c). lia.
Qed.

Lemma string_of_list_ascii_app (l1 l2 : list ascii) :
  string_of_list_ascii (l1 ++ l2) =
  (string_of_list_ascii l1 ++ string_of_list_ascii l2)%string.
Proof.
  induction l1 as [|c l1 IH]; [reflexivity|]. simpl. rewrite IH. reflexivity.
Qed.

Lemma len_string (l : list ascii) :
  Z.of_nat (String.length (string_of_list_ascii l)) = len l.
Proof.
  rewrite string_of_list_ascii_length. reflexivity.
Qed.

(** ** Base16 *)

Lemma b16_encode_spec_eq (input : list byte) :
  Base16.Encode input = string_of_list_ascii (flat_map b16_chars input).
Proof.
  unfold Base16.Encode. destruct input as [|b x]; [reflexivity|].
  replace (len (b :: x) =? 0) with false
    by (symmetry; apply Z.eqb_neq; unfold len; simpl; lia).
  rewrite b16_encode_loop_spec. reflexivity.
Qed.

Lemma b16_accepts_valid (c : ascii) :
  b16_accepts c =
  negb (Base16.Base16ReverseTable (char_u8 c) =? Base16.InvalidBase16Character).
Proof.
  apply Bool.eqb_prop.
  revert c. apply forall_ascii. vm_compute. reflexivity.
Qed.

Lemma b16_reverse_toupper (c : ascii) :
  Base16.Base16ReverseTable (char_u8 (toupper c)) =
  Base16.Base16ReverseTable (char_u8 c).
Proof.
  apply Z.eqb_eq. revert c. apply forall_ascii. vm_compute. reflexivity.
Qed.

Lemma b16_valid_nibbles_filter (l : list ascii) :
  b16_valid_nibbles (filter b16_accepts l) = b16_valid_nibbles l.
Proof.
  induction l as [|c l IH]; [reflexivity|].
  rewrite b16_valid_nibbles_cons. simpl filter.
  destruct (b16_accepts c) eqn:E.
  - rewrite b16_valid_nibbles_cons, IH. reflexivity.
  - rewrite IH. rewrite b16_accepts_valid in E.
    unfold b16_valid_nibbles. simpl map. simpl filter.
    rewrite E. reflexivity.
Qed.

Lemma b16_valid_nibbles_toupper (l : list ascii) :
  b16_valid_nibbles (map toupper l) = b16_valid_nibbles l.
Proof.
  unfold b16_valid_nibbles. rewrite map_map. f_equal.
  apply map_ext. intros c. apply b16_reverse_toupper.
Qed.

Lemma b16_octets_of_nibbles_app (l1 l2 : list Z) :
  Z.odd (len l1) = false ->
  b16_octets_of_nibbles (l1 ++ l2) =
  (b16_octets_of_nibbles l1 ++ b16_octets_of_nibbles l2)%list.
Proof.
  revert l1. fix IH 1. intros [|a [|b l1]] H.
  - reflexivity.
  - discriminate H.
  - change (b16_octets_of_nibbles ((a :: b :: l1) ++ l2))
      with (to_u8 (16 * a + b) :: b16_octets_of_nibbles (l1 ++ l2)).
    rewrite IH; [reflexivity|].
    unfold len in *. simpl List.length in H. rewrite !Nat2Z.inj_succ in H.
    rewrite Z.odd_succ_succ in H. exact H.
Qed.

(** The characters of an octet, from its two nibbles. *)
Lemma b16_chars_of_nibbles (hi lo : Z) :
  0 <= hi < 16 -> 0 <= lo < 16 ->
  b16_chars (to_u8 (16 * hi + lo)) =
  [table_at Base16.Base16Table hi; table_at Base16.Base16Table lo].
Proof.
  intros Hhi Hlo. unfold b16_chars. rewrite u8_to_u8.
  rewrite (Z.mod_small (16 * hi + lo)) by lia.
  replace ((16 * hi + lo) / 16) with hi by (Z.div_mod_to_equations; lia).
  replace ((16 * hi + lo) mod 16) with lo by (Z.div_mod_to_equations; lia).
  reflexivity.
Qed.

Lemma b16_table_of_reverse (c : ascii) :
  b16_accepts c = true ->
  table_at Base16.Base16Table (Base16.Base16ReverseTable (char_u8 c)) =
  toupper c.
Proof.
  intros H.
  assert (A : forall c,
             implb (b16_accepts c)
               (Ascii.eqb
                  (table_at Base16.Base16Table
                     (Base16.Base16ReverseTable (char_u8 c)))
                  (toupper c)) = true).
  { apply forall_ascii. vm_compute. reflexivity. }
  specialize (A c). rewrite H in A. apply Ascii.eqb_eq. exact A.
Qed.

Lemma b16_valid_nibbles_accepted (l : list ascii) :
  Forall (fun c => b16_accepts c = true) l ->
  b16_valid_nibbles l =
  map (fun c => Base16.Base16ReverseTable (char_u8 c)) l.
Proof.
  induction 1 as [|c l Hc Hl IH]; [reflexivity|].
  rewrite b16_valid_nibbles_cons, IH.
  unfold b16_valid_nibbles. simpl map. simpl filter.
  rewrite b16_accepts_valid in Hc. rewrite Hc. reflexivity.
Qed.

Lemma b16_encode_of_nibbles (l : list ascii) :
  Forall (fun c => b16_accepts c = true) l ->
  Z.odd (len l) = false ->
  flat_map b16_chars
    (b16_octets_of_nibbles
       (map (fun c => Base16.Base16ReverseTable (char_u8 c)) l)) =
  map toupper l.
Proof.
  revert l. fix IH 1. intros [|a [|b l]] Hl Hodd.
  - reflexivity.
  - discriminate Hodd.
  - pose proof (Forall_inv Hl) as Ha.
    pose proof (Forall_inv (Forall_inv_tail Hl)) as Hb.
    pose proof (Forall_inv_tail (Forall_inv_tail Hl)) as Hl'.
    cbv beta in Ha, Hb. cbn [map].
    change (b16_octets_of_nibbles (?h :: ?m :: ?r))
      with (to_u8 (16 * h + m) :: b16_octets_of_nibbles r).
    cbn [flat_map].
    assert (Ra : 0 <= Base16.Base16ReverseTable (char_u8 a) < 16).
    { apply b16_nibble_range. rewrite b16_accepts_valid in Ha.
      apply negb_true_iff, Z.eqb_neq in Ha. exact Ha. }
    assert (Rb : 0 <= Base16.Base16ReverseTable (char_u8 b) < 16).
    { apply b16_nibble_range. rewrite b16_accepts_valid in Hb.
      apply negb_true_iff, Z.eqb_neq in Hb. exact Hb. }
    rewrite b16_chars_of_nibbles by assumption.
    rewrite !b16_table_of_reverse by assumption.
    rewrite IH; [reflexivity | exact Hl' |].
    unfold len in *. simpl List.length in Hodd.
    rewrite !Nat2Z.inj_succ in Hodd.
    rewrite Z.odd_succ_succ in Hodd. exact Hodd.
Qed.

Lemma len_flat_map_pair {A C} (f : A -> list C) (l : list A) :
  (forall a, List.length (f a) = 2%nat) ->
  len (flat_map f l) = 2 * len l.
Proof.
  intros Hf. induction l as [|a l IH]; [reflexivity|].
  cbn [flat_map]. rewrite len_app, IH. unfold len. rewrite Hf.
  simpl List.length. lia.
Qed.

Lemma b16_chars_in_table (o : byte) :
  Forall (fun c => in_table Base16.Base16Table c = true) (b16_chars o).
Proof.
  assert (H : forallb (fun i => in_table Base16.Base16Table
                                  (table_at Base16.Base16Table i))
                      (map Z.of_nat (seq 0 16)) = true) by reflexivity.
  pose proof (u8_range o) as Ho.
  unfold b16_chars. repeat constructor;
    apply (forall_below _ 16 H); Z.div_mod_to_equations; lia.
Qed.

(** X1: the output of [Base16::Encode] has two characters for every octet,
    each one of the sixteen of [Base16Table]: digits and upper-case letters. *)
Theorem b16_encode_shape (input : list byte) :
  Z.of_nat (String.length (Base16.Encode input)) = 2 * len input /\
  Forall (fun c => in_table Base16.Base16Table c = true)
         (list_ascii_of_string (Base16.Encode input)).
Proof.
  rewrite b16_encode_spec_eq, len_string, list_ascii_of_string_of_list_ascii.
  split.
  - apply len_flat_map_pair. reflexivity.
  - induction input as [|o input IH]; [constructor|].
    cbn [flat_map]. apply Forall_app. split; [apply b16_chars_in_table|exact IH].
Qed.

(** X2: [Base16::Encode] works octet by octet: the encoding of a concatenation
    is the concatenation of the encodings. *)
Theorem b16_encode_app (x y : list byte) :
  Base16.Encode (x ++ y) = (Base16.Encode x ++ Base16.Encode y)%string.
Proof.
  rewrite !b16_encode_spec_eq, flat_map_app. apply string_of_list_ascii_app.
Qed.

(** X3: [Base16::Decode] silently skips every character that is not a
    hexadecimal digit: the result, error or not, is that of the input with
    those characters removed. *)
Theorem b16_decode_skips_foreign (input : string) :
  Base16.Decode_run input =
  Base16.Decode_run (string_of_list_ascii (b16_filter input)).
Proof.
  rewrite !b16_decode_run_spec, list_ascii_of_string_of_list_ascii.
  unfold b16_filter. rewrite b16_valid_nibbles_filter. reflexivity.
Qed.

(** X4: [Base16::Decode] treats the alphabet case insensitively: putting the
    input in upper case changes nothing. *)
Theorem b16_decode_case_insensitive (input : string) :
  Base16.Decode_run
    (string_of_list_ascii (map toupper (list_ascii_of_string input))) =
  Base16.Decode_run input.
Proof.
  rewrite !b16_decode_run_spec, list_ascii_of_string_of_list_ascii.
  rewrite b16_valid_nibbles_toupper. reflexivity.
Qed.

(** X5: two inputs that [Base16::Decode] accepts can be decoded as one: the
    result is the concatenation of the two results. *)
Theorem b16_decode_app (a b : string) (x y : list byte) :
  Base16.Decode_run a = Some x -> Base16.Decode_run b = Some y ->
  Base16.Decode_run (a ++ b) = Some (x ++ y).
Proof.
  rewrite !b16_decode_run_spec, list_ascii_of_string_app, b16_valid_nibbles_app.
  set (na := b16_valid_nibbles (list_ascii_of_string a)).
  set (nb := b16_valid_nibbles (list_ascii_of_string b)).
  destruct (Z.odd (len na)) eqn:Ea; [discriminate|].
  destruct (Z.odd (len nb)) eqn:Eb; [discriminate|].
  intros Hx Hy. injection Hx as <-. injection Hy as <-.
  rewrite len_app, Z.odd_add, Ea, Eb. cbn [xorb].
  rewrite b16_octets_of_nibbles_app by exact Ea. reflexivity.
Qed.

(** [b16_decode_app] for the inputs ["4a"] and ["6F 6f"]. *)
Lemma b16_decode_app_witness :
  Base16.Decode_run ("4a" ++ "6F 6f") = Some (["J"%byte] ++ ["o"; "o"]%byte).
Proof.
  apply (b16_decode_app "4a" "6F 6f"); reflexivity.
Defined.

(** X6: encoding what [Base16::Decode] returned for an accepted input gives
    the input back in normal form: the hexadecimal digits of the input, in
    upper case. *)
Theorem b16_encode_decode_normalises (input : string) (x : list byte) :
  Base16.Decode_run input = Some x ->
  Base16.Encode x = string_of_list_ascii (map toupper (b16_filter input)).
Proof.
  rewrite b16_decode_run_spec, <- b16_valid_nibbles_filter.
  fold (b16_filter input).
  assert (Hf : Forall (fun c => b16_accepts c = true) (b16_filter input)).
  { apply Forall_forall. intros c Hc. apply filter_In in Hc. tauto. }
  rewrite (b16_valid_nibbles_accepted _ Hf), len_map.
  destruct (Z.odd (len (b16_filter input))) eqn:E; [discriminate|].
  intros Hx. injection Hx as <-.
  rewrite b16_encode_spec_eq, b16_encode_of_nibbles by assumption.
  reflexivity.
Qed.

(** [b16_encode_decode_normalises] for the input ["4a 6F:6f"]. *)
Lemma b16_encode_decode_normalises_witness :
  Base16.Encode ["J"; "o"; "o"]%byte =
  string_of_list_ascii (map toupper (b16_filter "4a 6F:6f")).
Proof.
  apply (b16_encode_decode_normalises "4a 6F:6f"). reflexivity.
Defined.

(** ** Base32 *)

Lemma b32_value_range (x : Z) :
  Base32.Base32ReverseTable x <> Base32.InvalidBase32Character ->
  0 <= Base32.Base32ReverseTable x < 32.
Proof.
  apply cond_chain_bound. reflexivity.
Qed.

Lemma b32_valid_values_range (l : list ascii) :
  Forall (fun v => 0 <= v < 32) (b32_valid_values l).
Proof.
  apply Forall_forall. intros v Hv. unfold b32_valid_values in Hv.
  apply filter_In in Hv. destruct Hv as [Hin Hne].
  apply in_map_iff in Hin. destruct Hin as [c [<- _]].
  apply b32_value_range. apply negb_true_iff, Z.eqb_neq in Hne. exact Hne.
Qed.

Lemma b32_valid_values_cons (c : ascii) (input : list ascii) :
  b32_valid_values (c :: input) =
  if Ascii.eqb c "=" then []
  else if Base32.Base32ReverseTable (char_u8 c)
          =? Base32.InvalidBase32Character
       then b32_valid_values input
       else Base32.Base32ReverseTable (char_u8 c) :: b32_valid_values input.
Proof.
  unfold b32_valid_values. simpl upto_pad.
  destruct (Ascii.eqb c "="); [reflexivity|].
  simpl. destruct (_ =? _); reflexivity.
Qed.

(** The decoding loop only sees the values of the accepted characters. *)
Lemma b32_decode_loop_values (input : list ascii) (st : Base32.state) :
  Base32.Decode_loop input st = fold_left b32_take (b32_valid_values input) st.
Proof.
  revert st. induction input as [|c input IH]; intros st; [reflexivity|].
  rewrite b32_valid_values_cons. simpl Base32.Decode_loop.
  unfold Base32.Base32PaddingCharacter.
  destruct (Ascii.eqb c "="); [reflexivity|].
  rewrite IH. unfold Base32.Decode_step.
  destruct (Base32.Base32ReverseTable (char_u8 c)
            =? Base32.InvalidBase32Character); reflexivity.
Qed.

Lemma b32_decode_run_values (input : string) :
  Base32.Decode_run input =
  b32_check (fold_left b32_take
               (b32_valid_values (list_ascii_of_string input))
               (Base32.mkState [] 0 0)).
Proof.
  rewrite b32_decode_run_check, b32_decode_loop_values.
  destruct (list_ascii_of_string input); reflexivity.
Qed.

Lemma b32_check_bits (out : list byte) (G g : Z) :
  0 <= g < 8 ->
  b32_check (Base32.mkState out G g) =
  if G mod 2 ^ g =? 0 then Some out else None.
Proof.
  intros Hg. unfold b32_check.
  cbn [Base32.group_size Base32.group Base32.output].
  destruct (Z.ltb_spec 0 g) as [Hp|Hz].
  - cbv zeta.
    assert (Hm : wrap uint_fast32_bits
                   (Z.lnot (shl uint_fast32_bits (2 ^ uint_fast32_bits - 1) g))
                 = Z.ones g).
    { assert (Hc : g = 1 \/ g = 2 \/ g = 3 \/ g = 4 \/ g = 5 \/ g = 6 \/ g = 7)
        by lia.
      destruct Hc as [->|[->|[->|[->|[->|[->| ->]]]]]]; reflexivity. }
    rewrite Hm, Z.land_ones by lia.
    destruct (G mod 2 ^ g =? 0); reflexivity.
  - replace g with 0 by lia. rewrite Z.mod_1_r. reflexivity.
Qed.

Lemma horner_snoc (B V : Z) (ms : list Z) (d : Z) :
  horner B V (ms ++ [d]) = horner B V ms * B + d.
Proof.
  unfold horner. rewrite fold_left_app. reflexivity.
Qed.

Lemma be_value_snoc (l : list byte) (b : byte) :
  be_value (l ++ [b]) = be_value l * 256 + u8 b.
Proof.
  unfold be_value. rewrite fold_left_app. reflexivity.
Qed.

Lemma horner_nonneg (B : Z) (ms : list Z) :
  0 <= B -> Forall (fun v => 0 <= v < B) ms -> 0 <= horner B 0 ms.
Proof.
  intros HB. induction ms as [|d ms IH] using rev_ind; intros H.
  - unfold horner. simpl. lia.
  - rewrite horner_snoc. apply Forall_app in H. destruct H as [H1 H2].
    pose proof (Forall_inv H2) as Hd. cbv beta in Hd.
    specialize (IH H1). nia.
Qed.

(** The state of the decoding loop after the symbols [vs]: with [V] the
    number whose base-32 digits they are, [group] holds the low bits of [V],
    [group_size] the number of bits not yet written, and [output] the bits
    above them. *)
Lemma b32_take_inv (vs : list Z) :
  Forall (fun v => 0 <= v < 32) vs ->
  let st := fold_left b32_take vs (Base32.mkState [] 0 0) in
  let V := horner 32 0 vs in
  Base32.group_size st = (5 * len vs) mod 8 /\
  Base32.group st = V mod 2 ^ 64 /\
  len (Base32.output st) = 5 * len vs / 8 /\
  be_value (Base32.output st) = V / 2 ^ ((5 * len vs) mod 8).
Proof.
  induction vs as [|v vs IH] using rev_ind; intros H.
  - cbv zeta. simpl. repeat split; reflexivity.
  - apply Forall_app in H. destruct H as [H1 H2].
    pose proof (Forall_inv H2) as Hv. cbv beta in Hv.
    specialize (IH H1). cbv zeta in IH. destruct IH as [I1 [I2 [I3 I4]]].
    pose proof (horner_nonneg 32 vs ltac:(lia) H1) as HV.
    cbv zeta. rewrite fold_left_app, horner_snoc, len_app.
    change (len [v]) with 1. cbn [fold_left].
    set (st := fold_left b32_take vs (Base32.mkState [] 0 0)) in *.
    set (V := horner 32 0 vs) in *.
    set (k := len vs) in *.
    assert (Hk : 0 <= k) by apply len_nonneg.
    set (r := (5 * k) mod 8) in *.
    assert (Hr : 0 <= r < 8) by (apply Z.mod_pos_bound; lia).
    assert (Hg : b32_dnext (Base32.group st) v = (V * 32 + v) mod 2 ^ 64).
    { rewrite b32_dnext_arith, I2 by lia.
      change 18446744073709551616 with (2 ^ 64).
      rewrite Z.mul_mod_idemp_l by lia.
      change (2 ^ 64) with 18446744073709551616.
      Z.div_mod_to_equations; lia. }
    assert (Hdiv : forall j, 0 <= j ->
               (V * 32 + v) / 2 ^ (j + 5) = V / 2 ^ j).
    { intros j Hj. rewrite Z.pow_add_r by lia. change (2 ^ 5) with 32.
      rewrite (Z.mul_comm (2 ^ j) 32), <- Z.div_div by
        (try apply Z.pow_pos_nonneg; lia).
      f_equal. Z.div_mod_to_equations; lia. }
    unfold b32_take. rewrite I1, Hg.
    destruct (Z.leb_spec 8 (r + 5)) as [Hge|Hlt].
    + cbn [Base32.group_size Base32.group Base32.output].
      assert (Er : (5 * (k + 1)) mod 8 = r + 5 - 8).
      { unfold r. Z.div_mod_to_equations; lia. }
      rewrite Er. split; [reflexivity|]. split; [reflexivity|].
      split.
      * rewrite len_app, I3. change (len [_]) with 1.
        unfold r in Hge. Z.div_mod_to_equations; lia.
      * rewrite be_value_snoc, I4, b32_oct_mod, u8_to_u8 by lia.
        rewrite mod_pow2_mod_pow2 by lia.
        rewrite <- extract_bits by lia. change (2 ^ 8) with 256.
        rewrite Z.mod_mod by lia.
        set (q := (V * 32 + v) / 2 ^ (r + 5 - 8)).
        assert (Eq : q / 256 = V / 2 ^ r).
        { unfold q. change 256 with (2 ^ 8).
          rewrite Z.div_div by (try apply Z.pow_pos_nonneg; lia).
          rewrite <- Z.pow_add_r by lia.
          replace (r + 5 - 8 + 8) with (r + 5) by lia.
          apply Hdiv. lia. }
        rewrite <- Eq. Z.div_mod_to_equations; lia.
    + cbn [Base32.group_size Base32.group Base32.output].
      assert (Er : (5 * (k + 1)) mod 8 = r + 5).
      { unfold r. Z.div_mod_to_equations; lia. }
      rewrite Er. split; [reflexivity|]. split; [reflexivity|].
      split.
      * rewrite I3. unfold r in Hlt. Z.div_mod_to_equations; lia.
      * rewrite I4. symmetry. apply Hdiv. lia.
Qed.

(** X7: [Base32::Decode] reads the accepted characters before the first ['=']
    as a string of 5-bit symbols, [k] of them with the value [V] in base 32.
    It returns the [5k/8] whole octets of these bits when the [5k mod 8] bits
    left over are all zero, and fails when one of them is set. *)
Theorem b32_decode_leftover_bits (input : string) :
  let vs := b32_valid_values (list_ascii_of_string input) in
  let V := horner 32 0 vs in
  let r := (5 * len vs) mod 8 in
  if V mod 2 ^ r =? 0
  then exists output,
         Base32.Decode_run input = Some output /\
         len output = 5 * len vs / 8 /\
         be_value output = V / 2 ^ r
  else Base32.Decode_run input = None.
Proof.
  cbv zeta. rewrite b32_decode_run_values.
  set (vs := b32_valid_values (list_ascii_of_string input)).
  destruct (b32_take_inv vs (b32_valid_values_range _)) as [I1 [I2 [I3 I4]]].
  set (st := fold_left b32_take vs (Base32.mkState [] 0 0)) in *.
  assert (Hr : 0 <= (5 * len vs) mod 8 < 8) by (apply Z.mod_pos_bound; lia).
  replace st with (Base32.mkState (Base32.output st) (Base32.group st)
                                  (Base32.group_size st))
    by (destruct st; reflexivity).
  rewrite b32_check_bits by (rewrite I1; exact Hr).
  rewrite I1, I2, mod_pow2_mod_pow2 by lia.
  destruct (_ =? 0).
  - exists (Base32.output st). repeat split; assumption.
  - reflexivity.
Qed.

Lemma upto_pad_app_pad (l1 l2 : list ascii) :
  upto_pad (l1 ++ "="%char :: l2) = upto_pad l1.
Proof.
  induction l1 as [|c l1 IH]; [reflexivity|].
  simpl. rewrite IH. reflexivity.
Qed.

Lemma upto_pad_idem (l : list ascii) : upto_pad (upto_pad l) = upto_pad l.
Proof.
  induction l as [|c l IH]; [reflexivity|].
  simpl. destruct (Ascii.eqb c "=") eqn:E; [reflexivity|].
  simpl. rewrite E, IH. reflexivity.
Qed.

Lemma upto_pad_filter (P : ascii -> bool) (l : list ascii) :
  P "="%char = true -> upto_pad (filter P l) = filter P (upto_pad l).
Proof.
  intros HP. induction l as [|c l IH]; [reflexivity|].
  simpl. destruct (Ascii.eqb c "=") eqn:E.
  - apply Ascii.eqb_eq in E. subst c. rewrite HP. reflexivity.
  - destruct (P c) eqn:Ec; simpl; rewrite ?E, ?Ec, IH; reflexivity.
Qed.

Lemma toupper_pad (c : ascii) :
  Ascii.eqb (toupper c) "=" = Ascii.eqb c "=".
Proof.
  apply Bool.eqb_prop. revert c. apply forall_ascii. vm_compute. reflexivity.
Qed.

Lemma upto_pad_toupper (l : list ascii) :
  upto_pad (map toupper l) = map toupper (upto_pad l).
Proof.
  induction l as [|c l IH]; [reflexivity|].
  simpl. rewrite toupper_pad. destruct (Ascii.eqb c "="); [reflexivity|].
  simpl. rewrite IH. reflexivity.
Qed.

Lemma b32_accepts_valid (c : ascii) :
  b32_accepts c =
  negb (Base32.Base32ReverseTable (char_u8 c) =? Base32.InvalidBase32Character).
Proof.
  apply Bool.eqb_prop.
  revert c. apply forall_ascii. vm_compute. reflexivity.
Qed.

Lemma b32_reverse_toupper (c : ascii) :
  Base32.Base32ReverseTable (char_u8 (toupper c)) =
  Base32.Base32ReverseTable (char_u8 c).
Proof.
  apply Z.eqb_eq. revert c. apply forall_ascii. vm_compute. reflexivity.
Qed.

Lemma b32_valid_values_filter (l : list ascii) :
  b32_valid_values (filter b32_keeps l) = b32_valid_values l.
Proof.
  induction l as [|c l IH]; [reflexivity|].
  rewrite (b32_valid_values_cons c l). simpl filter. unfold b32_keeps at 1.
  destruct (Ascii.eqb c "=") eqn:E.
  - rewrite orb_true_r, b32_valid_values_cons, E. reflexivity.
  - rewrite orb_false_r, b32_accepts_valid.
    destruct (_ =? _) eqn:Ev; simpl negb; cbv iota.
    + exact IH.
    + rewrite b32_valid_values_cons, E, Ev, IH. reflexivity.
Qed.

Lemma b32_valid_values_toupper (l : list ascii) :
  b32_valid_values (map toupper l) = b32_valid_values l.
Proof.
  unfold b32_valid_values. rewrite upto_pad_toupper, map_map. f_equal.
  apply map_ext. intros c. apply b32_reverse_toupper.
Qed.

Lemma b32_valid_values_upto_pad (l : list ascii) :
  b32_valid_values (upto_pad l) = b32_valid_values l.
Proof.
  unfold b32_valid_values. rewrite upto_pad_idem. reflexivity.
Qed.

(** X8: [Base32::Decode] stops at the first ['=']: whatever follows it, more
    padding or any other text, does not change the result. *)
Theorem b32_decode_stops_at_padding (input rest : string) :
  Base32.Decode_run (input ++ String "=" rest) = Base32.Decode_run input.
Proof.
  rewrite !b32_decode_run_values, list_ascii_of_string_app.
  unfold b32_valid_values. cbn [list_ascii_of_string].
  rewrite upto_pad_app_pad. reflexivity.
Qed.

(** X9: [Base32::Decode] silently skips every character that is neither in the
    alphabet nor the padding character. *)
Theorem b32_decode_skips_foreign (input : string) :
  Base32.Decode_run input =
  Base32.Decode_run
    (string_of_list_ascii (filter b32_keeps (list_ascii_of_string input))).
Proof.
  rewrite !b32_decode_run_values, list_ascii_of_string_of_list_ascii.
  rewrite b32_valid_values_filter. reflexivity.
Qed.

(** X10: [Base32::Decode] treats the alphabet case insensitively. *)
Theorem b32_decode_case_insensitive (input : string) :
  Base32.Decode_run
    (string_of_list_ascii (map toupper (list_ascii_of_string input))) =
  Base32.Decode_run input.
Proof.
  rewrite !b32_decode_run_values, list_ascii_of_string_of_list_ascii.
  rewrite b32_valid_values_toupper. reflexivity.
Qed.

(** X11: the padding of an encoding may be missing: [Base32::Decode] gives the
    octets back from the output of [Base32::Encode] cut at its first ['=']. *)
Theorem b32_decode_without_padding (x : list byte) :
  Base32.Decode
    (string_of_list_ascii
       (upto_pad (list_ascii_of_string (Base32.Encode x)))) = x.
Proof.
  transitivity (Base32.Decode (Base32.Encode x)); [|apply b32_roundtrip].
  unfold Base32.Decode.
  rewrite !b32_decode_run_values, list_ascii_of_string_of_list_ascii.
  rewrite b32_valid_values_upto_pad. reflexivity.
Qed.

Lemma b32_symbol_in_table (i : Z) :
  in_table Base32.Base32Table (table_at Base32.Base32Table (i mod 32)) = true.
Proof.
  assert (H : forallb (fun i => in_table Base32.Base32Table
                                  (table_at Base32.Base32Table i))
                      (map Z.of_nat (seq 0 32)) = true) by reflexivity.
  apply (forall_below _ 32 H). apply Z.mod_pos_bound. lia.
Qed.

Lemma b32_group_chars_shape (l : list byte) :
  exists syms,
    b32_group_chars l =
    syms ++ repeat "="%char (Z.to_nat (8 - b32_symbols (len l))) /\
    Forall (fun c => in_table Base32.Base32Table c = true) syms /\
    len syms = b32_symbols (len l).
Proof.
  unfold b32_group_chars. cbv zeta. fold (b32_symbols (len l)).
  eexists. split; [reflexivity|]. split.
  - apply Forall_forall. intros c Hc. apply in_map_iff in Hc.
    destruct Hc as [i [<- _]]. apply b32_symbol_in_table.
  - rewrite len_map. unfold len. rewrite length_seq, Z2Nat.id; [reflexivity|].
    unfold b32_symbols. pose proof (len_nonneg l).
    Z.div_mod_to_equations; lia.
Qed.

Lemma b32_encode_spec_shape (input : list byte) :
  exists syms,
    b32_encode_spec input =
    syms ++ repeat "="%char (Z.to_nat (b32_padding (len input))) /\
    Forall (fun c => in_table Base32.Base32Table c = true) syms /\
    len syms = b32_symbols (len input).
Proof.
  revert input. fix IH 1.
  assert (Short : forall l : list byte,
             1 <= len l <= 4 ->
             exists syms,
               b32_group_chars l =
               syms ++ repeat "="%char (Z.to_nat (b32_padding (len l))) /\
               Forall (fun c => in_table Base32.Base32Table c = true) syms /\
               len syms = b32_symbols (len l)).
  { intros l Hl. destruct (b32_group_chars_shape l) as [syms [E [F L]]].
    exists syms. split; [|split; assumption].
    rewrite E. do 2 f_equal. unfold b32_padding.
    replace ((len l + 4) / 5) with 1 by (Z.div_mod_to_equations; lia). lia. }
  intros [|a [|b [|c [|d [|e input]]]]].
  - exists []. repeat split; constructor.
  - apply (Short [a]). unfold len; simpl; lia.
  - apply (Short [a; b]). unfold len; simpl; lia.
  - apply (Short [a; b; c]). unfold len; simpl; lia.
  - apply (Short [a; b; c; d]). unfold len; simpl; lia.
  - destruct (IH input) as [syms [E [F L]]].
    destruct (b32_group_chars_shape [a; b; c; d; e]) as [s5 [E5 [F5 L5]]].
    change (len [a; b; c; d; e]) with 5 in *.
    change (Z.to_nat (8 - b32_symbols 5)) with 0%nat in E5.
    cbn [repeat] in E5. rewrite app_nil_r in E5.
    change (b32_symbols 5) with 8 in L5.
    change (b32_encode_spec (a :: b :: c :: d :: e :: input))
      with (b32_group_chars [a; b; c; d; e] ++ b32_encode_spec input).
    exists (s5 ++ syms).
    assert (Hn : len (a :: b :: c :: d :: e :: input) = len input + 5)
      by (unfold len; simpl List.length; lia).
    pose proof (len_nonneg input) as Hi.
    rewrite Hn, E5, E, app_assoc. split; [|split].
    + do 2 f_equal. unfold b32_padding, b32_symbols.
      Z.div_mod_to_equations; lia.
    + apply Forall_app. split; assumption.
    + rewrite len_app, L5, L. unfold b32_symbols.
      Z.div_mod_to_equations; lia.
Qed.

(** X12: the output of [Base32::Encode] for [n] octets is [(8n+4)/5]
    characters of [Base32Table] followed by the padding alone: 0, 6, 4, 3 or 1
    characters ['='] when [n mod 5] is 0, 1, 2, 3 or 4. *)
Theorem b32_encode_shape (input : list byte) :
  exists syms,
    list_ascii_of_string (Base32.Encode input) =
    syms ++ repeat "="%char (Z.to_nat (b32_padding (len input))) /\
    Forall (fun c => in_table Base32.Base32Table c = true) syms /\
    len syms = b32_symbols (len input) /\
    b32_padding (len input) =
    nth (Z.to_nat (len input mod 5)) [0; 6; 4; 3; 1] 0.
Proof.
  destruct (b32_encode_spec_shape input) as [syms [E [F L]]].
  exists syms. rewrite b32_encode_spec_eq, list_ascii_of_string_of_list_ascii.
  repeat split; try assumption.
  pose proof (len_nonneg input) as Hn.
  unfold b32_padding, b32_symbols.
  assert (Hc : len input mod 5 = 0 \/ len input mod 5 = 1 \/
               len input mod 5 = 2 \/ len input mod 5 = 3 \/
               len input mod 5 = 4)
    by (pose proof (Z.mod_pos_bound (len input) 5); lia).
  destruct Hc as [H|[H|[H|[H|H]]]]; rewrite H;
    match goal with
    | |- _ = nth ?i ?l ?d =>
        let v := eval compute in (nth i l d) in change (nth i l d) with v
    end; Z.div_mod_to_equations; lia.
Qed.

Lemma b32_encode_spec_app (x y : list byte) :
  len x mod 5 = 0 ->
  b32_encode_spec (x ++ y) = b32_encode_spec x ++ b32_encode_spec y.
Proof.
  revert x. fix IH 1.
  intros [|a [|b [|c [|d [|e x]]]]] H;
    try (exfalso; unfold len in H; simpl in H; discriminate H).
  - reflexivity.
  - change ((a :: b :: c :: d :: e :: x) ++ y)
      with (a :: b :: c :: d :: e :: (x ++ y)).
    change (b32_encode_spec (a :: b :: c :: d :: e :: ?r))
      with (b32_group_chars [a; b; c; d; e] ++ b32_encode_spec r).
    rewrite IH, app_assoc; [reflexivity|].
    assert (Hn : len (a :: b :: c :: d :: e :: x) = len x + 5)
      by (unfold len; simpl List.length; lia).
    rewrite Hn in H. pose proof (len_nonneg x).
    Z.div_mod_to_equations; lia.
Qed.

(** X13: [Base32::Encode] works in groups of five octets: after a whole number
    of groups the encoding of what follows is simply appended. *)
Theorem b32_encode_app (x y : list byte) :
  len x mod 5 = 0 ->
  Base32.Encode (x ++ y) = (Base32.Encode x ++ Base32.Encode y)%string.
Proof.
  intros H. rewrite !b32_encode_spec_eq, b32_encode_spec_app by exact H.
  apply string_of_list_ascii_app.
Qed.

(** [b32_encode_app] for the five octets of ["fooba"] followed by ["r"]. *)
Lemma b32_encode_app_witness :
  Base32.Encode (["f"; "o"; "o"; "b"; "a"] ++ ["r"])%byte =
  (Base32.Encode ["f"; "o"; "o"; "b"; "a"]%byte ++
   Base32.Encode ["r"]%byte)%string.
Proof.
  apply (b32_encode_app ["f"; "o"; "o"; "b"; "a"]%byte ["r"]%byte).
  reflexivity.
Defined.

(** ** Base64 *)

Lemma len_repeat {A} (x : A) (n : nat) : len (repeat x n) = Z.of_nat n.
Proof.
  unfold len. rewrite repeat_length. reflexivity.
Qed.

Lemma b64_accepts_valid (c : ascii) :
  b64_accepts c =
  negb (Base64.Base64ReverseTable (char_u8 c) =? Base64.InvalidBase64Character).
Proof.
  apply Bool.eqb_prop.
  revert c. apply forall_ascii. vm_compute. reflexivity.
Qed.

Lemma b64_valid_values_filter (l : list ascii) :
  b64_valid_values (filter b64_keeps l) = b64_valid_values l.
Proof.
  induction l as [|c l IH]; [reflexivity|].
  rewrite (b64_valid_values_cons c l). simpl filter. unfold b64_keeps at 1.
  destruct (Ascii.eqb c "=") eqn:E.
  - rewrite orb_true_r, b64_valid_values_cons, E. reflexivity.
  - rewrite orb_false_r, b64_accepts_valid.
    destruct (_ =? _) eqn:Ev; simpl negb; cbv iota.
    + exact IH.
    + rewrite b64_valid_values_cons, E, Ev, IH. reflexivity.
Qed.

(** X14: [Base64::Decode] stops at the first ['=']: whatever follows it, more
    padding or any other text, does not change the result. *)
Theorem b64_decode_stops_at_padding (input rest : string) :
  Base64.Decode (input ++ String "=" rest) = Base64.Decode input.
Proof.
  unfold Base64.Decode.
  rewrite !b64_decode_run_spec, list_ascii_of_string_app.
  unfold b64_valid_values. cbn [list_ascii_of_string].
  rewrite upto_pad_app_pad. reflexivity.
Qed.

(** X15: [Base64::Decode] silently skips every character that is neither in
    the alphabet nor the padding character. *)
Theorem b64_decode_skips_foreign (input : string) :
  Base64.Decode input =
  Base64.Decode
    (string_of_list_ascii (filter b64_keeps (list_ascii_of_string input))).
Proof.
  unfold Base64.Decode.
  rewrite !b64_decode_run_spec, list_ascii_of_string_of_list_ascii.
  rewrite b64_valid_values_filter. reflexivity.
Qed.

(** X16: the padding of an encoding may be missing: [Base64::Decode] gives the
    octets back from the output of [Base64::Encode] cut at its first ['=']. *)
Theorem b64_decode_without_padding (x : list byte) :
  Base64.Decode
    (string_of_list_ascii
       (upto_pad (list_ascii_of_string (Base64.Encode x)))) = x.
Proof.
  transitivity (Base64.Decode (Base64.Encode x)); [|apply b64_roundtrip].
  unfold Base64.Decode.
  rewrite !b64_decode_run_spec, list_ascii_of_string_of_list_ascii.
  unfold b64_valid_values. rewrite upto_pad_idem. reflexivity.
Qed.

Lemma b64_char_in_table (v : Z) :
  in_table Base64.Base64Table (b64_char v) = true.
Proof.
  assert (H : forallb (fun i => in_table Base64.Base64Table
                                  (table_at Base64.Base64Table i))
                      (map Z.of_nat (seq 0 64)) = true) by reflexivity.
  apply (forall_below _ 64 H). apply Z.mod_pos_bound. lia.
Qed.

Lemma b64_encode_spec_shape (input : list byte) :
  exists syms,
    b64_encode_spec input =
    syms ++ repeat "="%char (Z.to_nat (b64_padding (len input))) /\
    Forall (fun c => in_table Base64.Base64Table c = true) syms /\
    len syms = b64_symbols (len input).
Proof.
  revert input. fix IH 1. intros [|a [|b [|c input]]].
  - exists []. repeat split; constructor.
  - eexists [_; _]. split; [reflexivity|]. split; [|reflexivity].
    repeat constructor; apply b64_char_in_table.
  - eexists [_; _; _]. split; [reflexivity|]. split; [|reflexivity].
    repeat constructor; apply b64_char_in_table.
  - destruct (IH input) as [syms [E [F L]]].
    change (b64_encode_spec (a :: b :: c :: input))
      with (b64_chars_3 a b c ++ b64_encode_spec input).
    exists (b64_chars_3 a b c ++ syms).
    assert (Hn : len (a :: b :: c :: input) = len input + 3)
      by (unfold len; simpl List.length; lia).
    pose proof (len_nonneg input) as Hi.
    rewrite Hn, E, app_assoc. split; [|split].
    + do 2 f_equal. unfold b64_padding, b64_symbols.
      Z.div_mod_to_equations; lia.
    + apply Forall_app. split; [|exact F].
      repeat constructor; apply b64_char_in_table.
    + rewrite len_app, L. change (len (b64_chars_3 a b c)) with 4.
      unfold b64_symbols. Z.div_mod_to_equations; lia.
Qed.

(** X17: the output of [Base64::Encode] for [n] octets has [4 * ceil(n/3)]
    characters: [(4n+2)/3] characters of [Base64Table] followed by the padding
    alone, 0, 2 or 1 characters ['='] when [n mod 3] is 0, 1 or 2. *)
Theorem b64_encode_shape (input : list byte) :
  exists syms,
    list_ascii_of_string (Base64.Encode input) =
    syms ++ repeat "="%char (Z.to_nat (b64_padding (len input))) /\
    Forall (fun c => in_table Base64.Base64Table c = true) syms /\
    len syms = b64_symbols (len input) /\
    b64_padding (len input) = nth (Z.to_nat (len input mod 3)) [0; 2; 1] 0 /\
    Z.of_nat (String.length (Base64.Encode input)) = 4 * ((len input + 2) / 3).
Proof.
  destruct (b64_encode_spec_shape input) as [syms [E [F L]]].
  exists syms. rewrite b64_encode_spec_eq, list_ascii_of_string_of_list_ascii.
  pose proof (len_nonneg input) as Hn.
  assert (Hp : 0 <= b64_padding (len input))
    by (unfold b64_padding, b64_symbols; Z.div_mod_to_equations; lia).
  repeat split; try assumption.
  - unfold b64_padding, b64_symbols.
    assert (Hc : len input mod 3 = 0 \/ len input mod 3 = 1 \/
                 len input mod 3 = 2)
      by (pose proof (Z.mod_pos_bound (len input) 3); lia).
    destruct Hc as [H|[H|H]]; rewrite H;
      match goal with
      | |- _ = nth ?i ?l ?d =>
          let v := eval compute in (nth i l d) in change (nth i l d) with v
      end; Z.div_mod_to_equations; lia.
  - rewrite len_string, E, len_app, L, len_repeat, Z2Nat.id by exact Hp.
    unfold b64_padding. lia.
Qed.

Lemma b64_encode_spec_app (x y : list byte) :
  len x mod 3 = 0 ->
  b64_encode_spec (x ++ y) = b64_encode_spec x ++ b64_encode_spec y.
Proof.
  revert x. fix IH 1.
  intros [|a [|b [|c x]]] H;
    try (exfalso; unfold len in H; simpl in H; discriminate H).
  - reflexivity.
  - change ((a :: b :: c :: x) ++ y) with (a :: b :: c :: (x ++ y)).
    change (b64_encode_spec (a :: b :: c :: ?r))
      with (b64_chars_3 a b c ++ b64_encode_spec r).
    rewrite IH, app_assoc; [reflexivity|].
    assert (Hn : len (a :: b :: c :: x) = len x + 3)
      by (unfold len; simpl List.length; lia).
    rewrite Hn in H. pose proof (len_nonneg x).
    Z.div_mod_to_equations; lia.
Qed.

(** X18: [Base64::Encode] works in groups of three octets: after a whole
    number of groups the encoding of what follows is simply appended. *)
Theorem b64_encode_app (x y : list byte) :
  len x mod 3 = 0 ->
  Base64.Encode (x ++ y) = (Base64.Encode x ++ Base64.Encode y)%string.
Proof.
  intros H. rewrite !b64_encode_spec_eq, b64_encode_spec_app by exact H.
  apply string_of_list_ascii_app.
Qed.

(** [b64_encode_app] for the three octets of ["foo"] followed by ["ba"]. *)
Lemma b64_encode_app_witness :
  Base64.Encode (["f"; "o"; "o"] ++ ["b"; "a"])%byte =
  (Base64.Encode ["f"; "o"; "o"]%byte ++ Base64.Encode ["b"; "a"]%byte)%string.
Proof.
  apply (b64_encode_app ["f"; "o"; "o"]%byte ["b"; "a"]%byte). reflexivity.
Defined.

(** ** Base45 *)

Lemma b45_accepts_valid (c : ascii) :
  b45_accepts c =
  negb (Base45.Base45ReverseTable (char_u8 c) =? Base45.InvalidBase45Character).
Proof.
  apply Bool.eqb_prop.
  revert c. apply forall_ascii. vm_compute. reflexivity.
Qed.

Lemma b45_valid_values_filter (l : list ascii) :
  b45_valid_values (filter b45_accepts l) = b45_valid_values l.
Proof.
  induction l as [|c l IH]; [reflexivity|].
  rewrite (b45_valid_values_cons c l). simpl filter.
  destruct (b45_accepts c) eqn:E.
  - rewrite b45_valid_values_cons, IH. reflexivity.
  - rewrite IH. rewrite b45_accepts_valid in E.
    unfold b45_valid_values. simpl map. simpl filter.
    rewrite E. reflexivity.
Qed.

Lemma b45_lower_case_foreign (c : ascii) :
  implb ((97 <=? char_u8 c) && (char_u8 c <=? 122)) (negb (b45_accepts c))
  = true.
Proof.
  revert c. apply forall_ascii. vm_compute. reflexivity.
Qed.

(** X19: [Base45::Decode] silently skips every character that is not in
    [Base45Table]. The alphabet is case sensitive, so lower-case letters are
    skipped; the space is one of its characters, so it is not. *)
Theorem b45_decode_skips_foreign (input : string) :
  Base45.Decode_run input =
  Base45.Decode_run
    (string_of_list_ascii (filter b45_accepts (list_ascii_of_string input))) /\
  (forall c : ascii,
     97 <= char_u8 c <= 122 -> b45_accepts c = false) /\
  b45_accepts " " = true.
Proof.
  split; [|split].
  - rewrite !b45_decode_run_spec, list_ascii_of_string_of_list_ascii.
    rewrite b45_valid_values_filter. reflexivity.
  - intros c Hc. pose proof (b45_lower_case_foreign c) as H.
    replace (97 <=? char_u8 c) with true in H
      by (symmetry; apply Z.leb_le; lia).
    replace (char_u8 c <=? 122) with true in H
      by (symmetry; apply Z.leb_le; lia).
    simpl in H. apply negb_true_iff in H. exact H.
  - reflexivity.
Qed.

Lemma b45_symbol_in_table (i : Z) :
  in_table Base45.Base45Table (table_at Base45.Base45Table (i mod 45)) = true.
Proof.
  assert (H : forallb (fun i => in_table Base45.Base45Table
                                  (table_at Base45.Base45Table i))
                      (map Z.of_nat (seq 0 45)) = true) by reflexivity.
  apply (forall_below _ 45 H). apply Z.mod_pos_bound. lia.
Qed.

Lemma b45_encode_pairs_shape (input : list byte) :
  len (b45_encode_pairs input) =
    len input + len input / 2 + len input mod 2 /\
  Forall (fun c => in_table Base45.Base45Table c = true)
         (b45_encode_pairs input).
Proof.
  revert input. fix IH 1. intros [|a [|b input]].
  - split; [reflexivity|constructor].
  - split; [reflexivity|]. unfold b45_encode_pairs, b45_chars2.
    repeat constructor; apply b45_symbol_in_table.
  - destruct (IH input) as [L F].
    change (b45_encode_pairs (a :: b :: input))
      with (b45_chars3 (256 * u8 a + u8 b) ++ b45_encode_pairs input).
    split.
    + rewrite len_app, L. change (len (b45_chars3 _)) with 3.
      assert (Hn : len (a :: b :: input) = len input + 2)
        by (unfold len; simpl List.length; lia).
      rewrite Hn. pose proof (len_nonneg input).
      Z.div_mod_to_equations; lia.
    + apply Forall_app. split; [|exact F]. unfold b45_chars3.
      repeat constructor; apply b45_symbol_in_table.
Qed.

(** X20: the output of [Base45::Encode] for [n] octets has three characters
    for every pair of octets and two for a last single one, [n + n/2 + n mod
    2] in all, each one a character of [Base45Table]. *)
Theorem b45_encode_shape (input : list byte) :
  Z.of_nat (String.length (Base45.Encode input)) =
    len input + len input / 2 + len input mod 2 /\
  Forall (fun c => in_table Base45.Base45Table c = true)
         (list_ascii_of_string (Base45.Encode input)).
Proof.
  rewrite b45_encode_spec_eq, len_string, list_ascii_of_string_of_list_ascii.
  apply b45_encode_pairs_shape.
Qed.

Lemma b45_encode_pairs_app (x y : list byte) :
  len x mod 2 = 0 ->
  b45_encode_pairs (x ++ y) = b45_encode_pairs x ++ b45_encode_pairs y.
Proof.
  revert x. fix IH 1.
  intros [|a [|b x]] H;
    try (exfalso; unfold len in H; simpl in H; discriminate H).
  - reflexivity.
  - change ((a :: b :: x) ++ y) with (a :: b :: (x ++ y)).
    change (b45_encode_pairs (a :: b :: ?r))
      with (b45_chars3 (256 * u8 a + u8 b) ++ b45_encode_pairs r).
    rewrite IH, app_assoc; [reflexivity|].
    assert (Hn : len (a :: b :: x) = len x + 2)
      by (unfold len; simpl List.length; lia).
    rewrite Hn in H. pose proof (len_nonneg x).
    Z.div_mod_to_equations; lia.
Qed.

(** X21: [Base45::Encode] works in pairs of octets: after an even number of
    octets the encoding of what follows is simply appended. *)
Theorem b45_encode_app (x y : list byte) :
  len x mod 2 = 0 ->
  Base45.Encode (x ++ y) = (Base45.Encode x ++ Base45.Encode y)%string.
Proof.
  intros H. rewrite !b45_encode_spec_eq, b45_encode_pairs_app by exact H.
  apply string_of_list_ascii_app.
Qed.

(** [b45_encode_app] for the two octets of ["AB"] followed by ["C"]. *)
Lemma b45_encode_app_witness :
  Base45.Encode (["A"; "B"] ++ ["C"])%byte =
  (Base45.Encode ["A"; "B"]%byte ++ Base45.Encode ["C"]%byte)%string.
Proof.
  apply (b45_encode_app ["A"; "B"]%byte ["C"]%byte). reflexivity.
Defined.

(** ** Base58: decoding any text *)

Lemma b58_accepts_valid (c : ascii) :
  b58_accepts c =
  negb (Base58.Base58ReverseTable (char_u8 c) =? Base58.InvalidBase58Character).
Proof.
  apply Bool.eqb_prop.
  revert c. apply forall_ascii. vm_compute. reflexivity.
Qed.

Lemma b58_accepted (c : ascii) :
  b58_accepts c = true ->
  Base58.isspace c = false /\
  table_at Base58.Base58Table (Base58.Base58ReverseTable (char_u8 c)) = c /\
  (Base58.Base58ReverseTable (char_u8 c) = 0 <-> c = "1"%char) /\
  0 <= Base58.Base58ReverseTable (char_u8 c) < 58.
Proof.
  intros H.
  assert (A : forall c, b58_accepted_ok c = true)
    by (apply forall_ascii; vm_compute; reflexivity).
  specialize (A c). unfold b58_accepted_ok in A. rewrite H in A.
  cbn [implb] in A.
  apply andb_true_iff in A. destruct A as [A A5].
  apply andb_true_iff in A. destruct A as [A A4].
  apply andb_true_iff in A. destruct A as [A A3].
  apply andb_true_iff in A. destruct A as [A1 A2].
  apply negb_true_iff in A1. apply Ascii.eqb_eq in A2.
  apply Bool.eqb_prop in A3. apply Z.leb_le in A4. apply Z.ltb_lt in A5.
  split; [exact A1|]. split; [exact A2|]. split; [|lia].
  split; intros Hc.
  - apply Ascii.eqb_eq. rewrite <- A3. apply Z.eqb_eq. exact Hc.
  - apply Z.eqb_eq. rewrite A3. apply Ascii.eqb_eq. exact Hc.
Qed.

Lemma b58_leading_ones_nonneg (l : list ascii) : 0 <= b58_leading_ones l.
Proof.
  induction l as [|c l IH]; cbn [b58_leading_ones]; [lia|].
  destruct (Ascii.eqb c "1"); lia.
Qed.

(** The characters after the leading ['1']s of a text. *)
Lemma b58_leading_ones_split (t : list ascii) :
  t = repeat "1"%char (Z.to_nat (b58_leading_ones t)) ++
      skipn (Z.to_nat (b58_leading_ones t)) t.
Proof.
  induction t as [|c t IH]; [reflexivity|].
  cbn [b58_leading_ones]. destruct (Ascii.eqb c "1") eqn:E.
  - apply Ascii.eqb_eq in E. subst c.
    pose proof (b58_leading_ones_nonneg t).
    replace (Z.to_nat (1 + b58_leading_ones t))
      with (S (Z.to_nat (b58_leading_ones t))) by lia.
    cbn [repeat skipn app]. f_equal. exact IH.
  - reflexivity.
Qed.

(** The loop over the leading characters counts the ['1']s at the head of
    the text and stops at its first other character. *)
Lemma b58_decode_leading_text (l : list ascii) :
  forall k : Z,
    exists d : list ascii,
      Base58.Decode_leading l k = (k + b58_leading_ones (b58_text l), d) /\
      b58_text d =
        skipn (Z.to_nat (b58_leading_ones (b58_text l))) (b58_text l) /\
      match b58_text d with
      | [] => True
      | c :: _ => Ascii.eqb c "1" = false
      end.
Proof.
  induction l as [|c l IH]; intros k.
  - exists []. cbn. rewrite Z.add_0_r. repeat split.
  - cbn [Base58.Decode_leading]. destruct (Ascii.eqb c "1") eqn:E1.
    + apply Ascii.eqb_eq in E1. subst c.
      destruct (IH (k + 1)) as (d & E & Ht & Hh). exists d.
      change (b58_text ("1"%char :: l)) with ("1"%char :: b58_text l).
      cbn [b58_leading_ones]. change (Ascii.eqb "1" "1") with true. cbv iota.
      pose proof (b58_leading_ones_nonneg (b58_text l)).
      replace (Z.to_nat (1 + b58_leading_ones (b58_text l)))
        with (S (Z.to_nat (b58_leading_ones (b58_text l)))) by lia.
      cbn [skipn]. rewrite E. split; [f_equal; lia|]. split; assumption.
    + destruct (Base58.isspace c) eqn:E2.
      * destruct (IH k) as (d & E & Ht & Hh). exists d.
        assert (Hc : b58_text (c :: l) = b58_text l)
          by (unfold b58_text; cbn [filter]; rewrite E2; reflexivity).
        rewrite Hc. repeat split; assumption.
      * exists (c :: l).
        assert (Hc : b58_text (c :: l) = c :: b58_text l)
          by (unfold b58_text; cbn [filter]; rewrite E2; reflexivity).
        rewrite Hc. cbn [b58_leading_ones]. rewrite E1.
        cbn [Z.to_nat skipn]. rewrite Z.add_0_r. repeat split. 
Qed.

(** The conversion loop skips whitespace. *)
Lemma b58_decode_loop_text (d : list ascii) :
  forall (M : Z) (out : list byte) (L : Z),
    Base58.Decode_loop d M out L = Base58.Decode_loop (b58_text d) M out L.
Proof.
  induction d as [|c d IH]; intros M out L; [reflexivity|].
  cbn [Base58.Decode_loop]. unfold b58_text. cbn [filter].
  destruct (Base58.isspace c) eqn:E; cbn [negb].
  - apply IH.
  - cbn [Base58.Decode_loop]. rewrite E.
    destruct (_ =? Base58.InvalidBase58Character); [reflexivity|].
    destruct (0 <? _); [reflexivity|]. apply IH.
Qed.

(** A character that is neither whitespace nor in the alphabet ends the
    conversion loop with the error return, if nothing did before. *)
Lemma b58_decode_loop_invalid (t : list ascii) :
  forall (M : Z) (out : list byte) (L : Z),
    forallb b58_accepts (b58_text t) = false ->
    Base58.Decode_loop t M out L = None.
Proof.
  induction t as [|c t IH]; intros M out L H; [discriminate H|].
  cbn [Base58.Decode_loop]. unfold b58_text in H. cbn [filter] in H.
  destruct (Base58.isspace c) eqn:Es; cbn [negb] in H.
  - apply IH. exact H.
  - cbn [forallb] in H. rewrite b58_accepts_valid in H.
    destruct (_ =? Base58.InvalidBase58Character); [reflexivity|].
    cbn [negb andb] in H.
    destruct (0 <? _); [reflexivity|]. apply IH. exact H.
Qed.

Lemma b58_text_accepted (t : list ascii) :
  forallb b58_accepts t = true ->
  b58_text t = t /\
  map (table_at Base58.Base58Table) (b58_values t) = t /\
  digits_ok 58 (b58_values t).
Proof.
  induction t as [|c t IH]; intros H; [repeat split; constructor|].
  cbn [forallb] in H. apply andb_true_iff in H. destruct H as [Hc Ht].
  destruct (IH Ht) as (I1 & I2 & I3).
  destruct (b58_accepted c Hc) as (A1 & A2 & A3 & A4).
  unfold b58_text. cbn [filter]. rewrite A1. cbn [negb].
  fold (b58_text t). rewrite I1.
  unfold b58_values in *. cbn [map]. rewrite A2, I2.
  repeat split. constructor; assumption.
Qed.

Lemma b58_text_idem (l : list ascii) : b58_text (b58_text l) = b58_text l.
Proof.
  unfold b58_text. induction l as [|c l IH]; [reflexivity|].
  cbn [filter]. destruct (Base58.isspace c) eqn:E; cbn [negb]; [exact IH|].
  cbn [filter]. rewrite E. cbn [negb]. rewrite IH. reflexivity.
Qed.

Lemma len_filter_le {A} (P : A -> bool) (l : list A) :
  len (filter P l) <= len l.
Proof.
  induction l as [|a l IH]; [reflexivity|].
  cbn [filter]. destruct (P a); rewrite ?len_cons; lia.
Qed.

Lemma horner_zeros (B : Z) (z : nat) (ms : list Z) :
  horner B 0 (repeat 0 z ++ ms) = horner B 0 ms.
Proof.
  induction z as [|z IH]; [reflexivity|].
  cbn [repeat app]. unfold horner in *. cbn [fold_left].
  rewrite Z.mul_0_l, Z.add_0_r. exact IH.
Qed.

Lemma b58_values_ones (z : nat) (t : list ascii) :
  b58_values (repeat "1"%char z ++ t) = repeat 0 z ++ b58_values t.
Proof.
  unfold b58_values. rewrite map_app, map_repeat. reflexivity.
Qed.

Lemma forallb_repeat {A} (P : A -> bool) (x : A) (n : nat) :
  P x = true -> forallb P (repeat x n) = true.
Proof.
  intros H. induction n as [|n IH]; [reflexivity|].
  cbn [repeat forallb]. rewrite H, IH. reflexivity.
Qed.

Lemma len_skipn_le {A} (n : nat) (l : list A) : len (skipn n l) <= len l.
Proof.
  unfold len. rewrite length_skipn. lia.
Qed.

Lemma filter_id {A} (P : A -> bool) (l : list A) :
  Forall (fun a => P a = true) l -> filter P l = l.
Proof.
  induction 1 as [|a l Ha Hl IH]; [reflexivity|].
  cbn [filter]. rewrite Ha, IH. reflexivity.
Qed.

Lemma b58_text_skipn (n : nat) (l : list ascii) :
  b58_text (skipn n (b58_text l)) = skipn n (b58_text l).
Proof.
  apply filter_id. apply Forall_forall. intros c Hc.
  assert (Hin : In c (b58_text l)).
  { rewrite <- (firstn_skipn n (b58_text l)). apply in_or_app. right.
    exact Hc. }
  apply filter_In in Hin. tauto.
Qed.

(** [Base58::Decode] on any input, from its text [t] (the input without
    whitespace): when every character of [t] is in the alphabet the result
    is one zero octet for each leading ['1'], followed by the canonical
    base-256 digits, most significant first, of the number that the
    characters make in base 58; otherwise it is the error return. *)
Lemma b58_decode_run_text (input : string) :
  let t := b58_text (list_ascii_of_string input) in
  if forallb b58_accepts t then
    exists ds : list Z,
      canonical 256 ds /\
      digits_value 256 ds = horner 58 0 (b58_values t) /\
      Base58.Decode_run input =
      Some (repeat x00 (Z.to_nat (b58_leading_ones t)) ++ rev (map to_u8 ds))
  else Base58.Decode_run input = None.
Proof.
  cbv zeta. set (l := list_ascii_of_string input).
  unfold Base58.Decode_run. fold l.
  destruct (Z.eqb_spec (len l) 0) as [H0|Hpos].
  - apply len_zero_nil in H0. rewrite H0. cbn [b58_text filter forallb].
    exists []. split; [apply canonical_nil|]. split; reflexivity.
  - destruct (b58_decode_leading_text l 0) as (d & E & Ht & Hh).
    rewrite E, Z.add_0_l, b58_decode_loop_text, Ht.
    rewrite Ht in Hh. clear E Ht d.
    set (t := b58_text l) in *.
    set (z := Z.to_nat (b58_leading_ones t)) in *.
    set (t' := skipn z t) in *.
    assert (Hsplit : t = repeat "1"%char z ++ t')
      by apply b58_leading_ones_split.
    assert (Hz : b58_leading_ones t = Z.of_nat z)
      by (unfold z; pose proof (b58_leading_ones_nonneg t); lia).
    assert (Hall : forallb b58_accepts t = forallb b58_accepts t').
    { rewrite Hsplit at 1. rewrite forallb_app, forallb_repeat; reflexivity. }
    rewrite Hall. destruct (forallb b58_accepts t') eqn:Hacc.
    + destruct (b58_text_accepted t' Hacc) as (T1 & T2 & T3).
      set (ms := b58_values t') in *.
      assert (Hlen : len ms <= len l).
      { unfold ms, b58_values. rewrite len_map. unfold t'.
        pose proof (len_skipn_le z t).
        pose proof (len_filter_le (fun c => negb (Base58.isspace c)) l).
        unfold t, b58_text in *. lia. }
      destruct (b58_decode_loop_spec ms [] (Z.to_nat (len l)) (len l) T3
                  (canonical_nil 256))
        as (ds' & room' & E' & Hl' & Hcan' & Hv').
      * intros _. unfold ms. destruct t' as [|c t'']; [exact I|].
        cbn [b58_values map]. cbn [forallb] in Hacc.
        apply andb_true_iff in Hacc. destruct Hacc as [Hc _].
        destruct (b58_accepted c Hc) as (_ & _ & A3 & _).
        intros Habs. apply A3 in Habs. subst c. discriminate Hh.
      * cbn [List.length]. pose proof (len_nonneg l). lia.
      * cbn [digits_value List.length]. rewrite Z.mul_1_l.
        pose proof (len_nonneg l). pose proof (len_nonneg ms).
        replace (Z.of_nat (0 + Z.to_nat (len l)))
          with ((len l - len ms) + len ms) by lia.
        apply pow_58_le_256; lia.
      * cbn [map app] in E'. change (len (@nil Z)) with 0 in E'.
        replace (Base58.Decode_loop t')
          with (Base58.Decode_loop (map (table_at Base58.Base58Table) ms))
          by (rewrite T2; reflexivity).
        rewrite E'.
        exists ds'. split; [exact Hcan'|]. split.
        { rewrite Hv'. cbn [digits_value]. rewrite Hsplit, b58_values_ones.
          rewrite horner_zeros. reflexivity. }
        rewrite <- (app_nil_r (repeat x00 room')).
        change (@nil byte) with (repeat x00 0).
        rewrite resize_to_digits by (cbn [Z.of_nat]; rewrite len_map; lia).
        cbn [repeat]. rewrite app_nil_r. rewrite Hz.
        assert (Hcase :
          (if 0 <? Z.of_nat z
           then resize_to (map to_u8 ds')
                          (len (map to_u8 ds') + Z.of_nat z) x00
           else map to_u8 ds') = map to_u8 ds' ++ repeat x00 z).
        { destruct (0 <? Z.of_nat z) eqn:Ez.
          - apply resize_to_grow.
          - apply Z.ltb_ge in Ez. replace z with 0%nat by lia.
            cbn [repeat]. rewrite app_nil_r. reflexivity. }
        rewrite Hcase, rev_app_distr, rev_repeat. reflexivity.
    + rewrite b58_decode_loop_invalid; [reflexivity|].
      unfold t', t. rewrite b58_text_skipn. exact Hacc.
Qed.

Lemma forallb_false_exists {A} (P : A -> bool) (l : list A) :
  forallb P l = false <-> exists a, In a l /\ P a = false.
Proof.
  induction l as [|a l IH]; cbn [forallb].
  - split; [discriminate | intros (a & [] & _)].
  - rewrite andb_false_iff, IH. split.
    + intros [H|(b & Hb & Pb)]; [exists a | exists b]; cbn [In]; auto.
    + intros (b & [<-|Hb] & Pb); [left; exact Pb | right; exists b; auto].
Qed.

(** X22: [Base58::Decode] fails exactly when its input holds a character that
    is neither whitespace nor in the alphabet: that is its only error, the
    carry of the conversion never is one. *)
Theorem b58_decode_fails_on_foreign_only (input : string) :
  Base58.Decode_run input = None <->
  exists c : ascii,
    In c (list_ascii_of_string input) /\
    Base58.isspace c = false /\ b58_accepts c = false.
Proof.
  pose proof (b58_decode_run_text input) as H. cbv zeta in H.
  destruct (forallb b58_accepts (b58_text (list_ascii_of_string input)))
    eqn:E.
  - destruct H as (ds & _ & _ & Hr). rewrite Hr. split; [discriminate|].
    intros (c & Hin & Hs & Ha). exfalso.
    rewrite forallb_forall in E. specialize (E c).
    rewrite Ha in E. enough (true = false) by discriminate.
    symmetry. apply E. apply filter_In. rewrite Hs. auto.
  - split; [intros _ | intros _; exact H].
    apply forallb_false_exists in E. destruct E as (c & Hin & Ha).
    apply filter_In in Hin. destruct Hin as [Hin Hs].
    apply negb_true_iff in Hs. exists c. auto.
Qed.

Lemma digits_value_zeros (B : Z) (ds : list Z) (z : nat) :
  digits_value B (ds ++ repeat 0 z) = digits_value B ds.
Proof.
  rewrite digits_value_app.
  assert (H : digits_value B (repeat 0 z) = 0).
  { induction z as [|z IH]; [reflexivity|].
    cbn [repeat digits_value]. rewrite IH. lia. }
  rewrite H. lia.
Qed.

Lemma map_u8_to_u8 (ds : list Z) :
  digits_ok 256 ds -> map u8 (map to_u8 ds) = ds.
Proof.
  induction 1 as [|d ds Hd Hds IH]; [reflexivity|].
  cbn [map]. rewrite u8_to_u8, Z.mod_small, IH by lia. reflexivity.
Qed.

(** The octets [Decode] returns, as a number and by their leading zeros. *)
Lemma b58_octets_value (z : nat) (ds : list Z) :
  canonical 256 ds ->
  be_value (repeat x00 z ++ rev (map to_u8 ds)) = digits_value 256 ds /\
  Base58.count_zeros (repeat x00 z ++ rev (map to_u8 ds)) = Z.of_nat z /\
  skipn z (repeat x00 z ++ rev (map to_u8 ds)) = rev (map to_u8 ds) /\
  len (repeat x00 z ++ rev (map to_u8 ds)) = Z.of_nat z + len ds.
Proof.
  intros [Hok Hlast]. split; [|split; [|split]].
  - rewrite be_value_digits, map_app, rev_app_distr, map_rev, rev_involutive.
    rewrite map_u8_to_u8 by exact Hok.
    rewrite map_repeat, rev_repeat. change (u8 x00) with 0.
    apply digits_value_zeros.
  - induction z as [|z IH].
    + cbn [repeat app Z.of_nat].
      destruct ds as [|d ds' _] using rev_ind; [reflexivity|].
      rewrite map_app, rev_app_distr. cbn [map rev app].
      cbn [Base58.count_zeros].
      rewrite last_last in Hlast.
      apply Forall_app in Hok. destruct Hok as [_ Hd].
      pose proof (Forall_inv Hd) as Hd'. cbv beta in Hd'.
      rewrite u8_to_u8, Z.mod_small by lia.
      replace (d =? 0) with false by (symmetry; apply Z.eqb_neq; exact Hlast).
      reflexivity.
    + cbn [repeat app Base58.count_zeros]. change (u8 x00 =? 0) with true.
      cbv iota. rewrite IH. lia.
  - induction z as [|z IH]; [reflexivity|]. exact IH.
  - rewrite len_app, len_repeat. unfold len.
    rewrite length_rev, length_map. reflexivity.
Qed.

(** X23: what [Base58::Decode] returns holds the number that the characters of
    the text make in base 58, big-endian, after as many zero octets as the
    text has leading ['1']s. *)
Theorem b58_decode_value (input : string) (output : list byte) :
  Base58.Decode_run input = Some output ->
  let t := b58_text (list_ascii_of_string input) in
  be_value output = horner 58 0 (b58_values t) /\
  Base58.count_zeros output = b58_leading_ones t /\
  len output <= len t.
Proof.
  intros Hrun t. pose proof (b58_decode_run_text input) as H.
  cbv zeta in H. fold t in H.
  destruct (forallb b58_accepts t) eqn:Hacc; [|congruence].
  destruct H as (ds & Hcan & Hv & Hr). rewrite Hr in Hrun.
  injection Hrun as <-.
  destruct (b58_octets_value (Z.to_nat (b58_leading_ones t)) ds Hcan)
    as (V1 & V2 & _ & V4).
  pose proof (b58_leading_ones_nonneg t) as Hz.
  split; [rewrite V1; exact Hv|]. split; [rewrite V2; lia|].
  rewrite V4, Z2Nat.id by exact Hz.
  (* the digits fit the characters after the leading ones *)
  pose proof (b58_leading_ones_split t) as Hsplit.
  set (z := Z.to_nat (b58_leading_ones t)) in *.
  set (t' := skipn z t) in *.
  assert (Ht : len t = Z.of_nat z + len t')
    by (rewrite Hsplit at 1; rewrite len_app, len_repeat; reflexivity).
  rewrite Ht. replace (b58_leading_ones t) with (Z.of_nat z) by lia.
  enough (len ds <= len t') by lia.
  destruct ds as [|d0 ds0] eqn:Eds; [apply len_nonneg|]. rewrite <- Eds in *.
  assert (Hne : ds <> []) by (rewrite Eds; discriminate).
  pose proof (canonical_lower 256 ltac:(lia) ds Hcan Hne) as Hlow.
  rewrite Hv, Hsplit, b58_values_ones, horner_zeros in Hlow.
  assert (Hacc' : forallb b58_accepts t' = true).
  { rewrite Hsplit, forallb_app in Hacc.
    apply andb_true_iff in Hacc. tauto. }
  destruct (b58_text_accepted t' Hacc') as (_ & _ & Hok).
  assert (Hup : horner 58 0 (b58_values t') < 58 ^ len t').
  { rewrite <- (rev_involutive (b58_values t')), <- digits_value_horner.
    pose proof (digits_value_bound 58 ltac:(lia) (rev (b58_values t'))
                  (Forall_rev Hok)) as Hb.
    assert (Hlv : len (rev (b58_values t')) = len t')
      by (unfold len, b58_values; rewrite length_rev, length_map;
          reflexivity).
    rewrite Hlv in Hb. lia. }
  assert (H58 : 58 ^ len t' <= 256 ^ len t')
    by (apply Z.pow_le_mono_l; lia).
  pose proof (len_nonneg ds). pose proof (len_nonneg t').
  destruct (Z.le_gt_cases (len ds) (len t')) as [Hle|Hgt]; [exact Hle|].
  exfalso.
  assert (256 ^ len t' <= 256 ^ (len ds - 1))
    by (apply Z.pow_le_mono_r; lia).
  lia.
Qed.

(** [b58_decode_value] for an input with whitespace and two leading ones. *)
Lemma b58_decode_value_witness :
  let t := b58_text (list_ascii_of_string " 11 2g ") in
  be_value [x00; x00; x61] = horner 58 0 (b58_values t) /\
  Base58.count_zeros [x00; x00; x61] = b58_leading_ones t /\
  len [x00; x00; x61] <= len t.
Proof.
  apply (b58_decode_value " 11 2g " [x00; x00; x61]). reflexivity.
Defined.

(** X24: [Base58::Decode] silently skips whitespace wherever it stands: the
    result, error or not, is that of the input without it. *)
Theorem b58_decode_skips_whitespace (input : string) :
  Base58.Decode_run input =
  Base58.Decode_run
    (string_of_list_ascii (b58_text (list_ascii_of_string input))).
Proof.
  pose proof (b58_decode_run_text input) as H1.
  pose proof (b58_decode_run_text
                (string_of_list_ascii
                   (b58_text (list_ascii_of_string input)))) as H2.
  cbv zeta in H1, H2.
  rewrite list_ascii_of_string_of_list_ascii, b58_text_idem in H2.
  destruct (forallb b58_accepts (b58_text (list_ascii_of_string input))).
  - destruct H1 as (ds1 & C1 & V1 & R1). destruct H2 as (ds2 & C2 & V2 & R2).
    rewrite R1, R2.
    rewrite (canonical_unique 256 ltac:(lia) ds1 ds2 C1 C2) by congruence.
    reflexivity.
  - congruence.
Qed.

(** ** Base58: the digits of an encoding *)

Lemma canonical_rev (B : Z) (ms : list Z) :
  digits_ok B ms ->
  match ms with [] => True | d :: _ => d <> 0 end ->
  canonical B (rev ms).
Proof.
  intros Hok Hhead. split; [apply Forall_rev; exact Hok|].
  destruct ms as [|d ms]; [cbn; lia|].
  cbn [rev]. rewrite last_last. exact Hhead.
Qed.

(** Digits without a leading zero are determined by their value. *)
Lemma horner_unique (B : Z) (ms1 ms2 : list Z) :
  2 <= B ->
  digits_ok B ms1 -> match ms1 with [] => True | d :: _ => d <> 0 end ->
  digits_ok B ms2 -> match ms2 with [] => True | d :: _ => d <> 0 end ->
  horner B 0 ms1 = horner B 0 ms2 -> ms1 = ms2.
Proof.
  intros HB O1 H1 O2 H2 Hv.
  rewrite <- (rev_involutive ms1), <- (rev_involutive ms2). f_equal.
  apply (canonical_unique B HB); try (apply canonical_rev; assumption).
  rewrite !digits_value_horner, !rev_involutive. exact Hv.
Qed.

Lemma be_value_bound (l : list byte) : 0 <= be_value l < 256 ^ len l.
Proof.
  rewrite be_value_digits.
  assert (Hok : digits_ok 256 (rev (map u8 l))).
  { apply Forall_rev, Forall_map, Forall_forall. intros b _. apply u8_range. }
  pose proof (digits_value_bound 256 ltac:(lia) _ Hok) as H.
  unfold len in H. rewrite length_rev, length_map in H. exact H.
Qed.

(** [Base58::Encode] in digits: one ['1'] for each leading zero octet, then
    the characters of the base-58 digits, most significant first and without
    a leading zero digit, of the number that the other octets make. *)
Lemma b58_encode_digits (input : list byte) :
  137 * len input < 2 ^ 64 ->
  let z := Z.to_nat (Base58.count_zeros input) in
  exists ms : list Z,
    digits_ok 58 ms /\
    match ms with [] => True | d :: _ => d <> 0 end /\
    horner 58 0 ms = be_value (skipn z input) /\
    Z.of_nat z + len ms <= 137 * len input / 100 + 1 /\
    Base58.Encode input =
    string_of_list_ascii
      (repeat "1"%char z ++ map (table_at Base58.Base58Table) ms).
Proof.
  intros Hsize z. destruct input as [|b0 x0].
  - exists []. repeat split; try constructor. cbn. lia.
  - set (x := b0 :: x0) in *.
    destruct (b58_encode_run_spec x ltac:(discriminate) Hsize)
      as (ds & Hcan & Hv & Hne & E).
    destruct (b58_count_zeros_spec x) as (Hz & Hsplit & Hfirst).
    fold z in Hv, Hne, E, Hsplit, Hfirst.
    exists (rev ds). split; [apply Forall_rev, Hcan|]. split.
    { destruct (rev ds) as [|d r] eqn:Er; [exact I|].
      rewrite <- (rev_head_last ds r d Er). apply Hcan. }
    split; [rewrite <- digits_value_horner; exact Hv|]. split.
    + assert (Hrest : len (skipn z x) = len x - Z.of_nat z).
      { rewrite Hsplit at 2. rewrite len_app, len_repeat. lia. }
      unfold len at 1. rewrite length_rev. fold (len ds).
      destruct ds as [|d0 ds0] eqn:Eds.
      * change (len (@nil Z)) with 0. pose proof (len_nonneg x).
        assert (Z.of_nat z <= len x) by lia.
        Z.div_mod_to_equations; lia.
      * rewrite <- Eds in *.
        assert (Hds : ds <> []) by (rewrite Eds; discriminate).
        pose proof (canonical_lower 58 ltac:(lia) ds Hcan Hds) as Hlow.
        pose proof (be_value_bound (skipn z x)) as Hup.
        rewrite Hrest in Hup. rewrite Hv in Hlow.
        pose proof (b58_room (len x) (Z.of_nat z) ltac:(lia)) as Hroom.
        pose proof (len_nonneg ds).
        destruct (Z.le_gt_cases (Z.of_nat z + len ds)
                    (137 * len x / 100 + 1)) as [Hle|Hgt]; [exact Hle|].
        exfalso.
        assert (58 ^ (137 * len x / 100 + 1 - Z.of_nat z)
                <= 58 ^ (len ds - 1)).
        { apply Z.pow_le_mono_r; [lia|]. lia. }
        lia.
    + unfold Base58.Encode. rewrite E, map_rev. reflexivity.
Qed.

Lemma b58_symbol_in_table (i : Z) :
  0 <= i < 58 ->
  in_table Base58.Base58Table (table_at Base58.Base58Table i) = true.
Proof.
  assert (H : forallb (fun i => in_table Base58.Base58Table
                                  (table_at Base58.Base58Table i))
                      (map Z.of_nat (seq 0 58)) = true) by reflexivity.
  apply (forall_below _ 58 H).
Qed.

Lemma be_value_zeros (z : nat) (l : list byte) :
  be_value (repeat x00 z ++ l) = be_value l.
Proof.
  unfold be_value. rewrite fold_left_app.
  assert (H : fold_left (fun acc b => acc * 256 + u8 b) (repeat x00 z) 0 = 0).
  { induction z as [|z IH]; [reflexivity|]. cbn [repeat fold_left].
    change (0 * 256 + u8 x00) with 0. exact IH. }
  rewrite H. reflexivity.
Qed.

(** X25: the output of [Base58::Encode] is one ['1'] for each leading zero
    octet of the input followed by the characters of the base-58 digits of the
    input read as a big-endian number: characters of [Base58Table] only, no
    leading zero digit, the same number, and at most [137 n / 100 + 1]
    characters for [n] octets. *)
Theorem b58_encode_shape (input : list byte) :
  137 * len input < 2 ^ 64 ->
  let z := Z.to_nat (Base58.count_zeros input) in
  exists ms : list Z,
    list_ascii_of_string (Base58.Encode input) =
      repeat "1"%char z ++ map (table_at Base58.Base58Table) ms /\
    Forall (fun d => 0 <= d < 58) ms /\
    match ms with [] => True | d :: _ => d <> 0 end /\
    horner 58 0 ms = be_value input /\
    Forall (fun c => in_table Base58.Base58Table c = true)
           (list_ascii_of_string (Base58.Encode input)) /\
    Z.of_nat (String.length (Base58.Encode input))
      <= 137 * len input / 100 + 1.
Proof.
  intros Hsize z.
  destruct (b58_encode_digits input Hsize) as (ms & Hok & Hhead & Hv & Hl & E).
  fold z in Hv, Hl, E. exists ms.
  rewrite E, list_ascii_of_string_of_list_ascii, len_string.
  split; [reflexivity|]. split; [exact Hok|]. split; [exact Hhead|].
  split; [|split].
  - rewrite Hv. destruct (b58_count_zeros_spec input) as (_ & Hsplit & _).
    fold z in Hsplit. rewrite Hsplit at 2. symmetry. apply be_value_zeros.
  - apply Forall_app. split.
    + apply Forall_forall. intros c Hc. apply repeat_spec in Hc. subst c.
      reflexivity.
    + apply Forall_map. apply Forall_forall. intros d Hd.
      apply b58_symbol_in_table.
      unfold digits_ok in Hok. rewrite Forall_forall in Hok. auto.
  - rewrite len_app, len_repeat, len_map. exact Hl.
Qed.

(** [b58_encode_shape] for the octets [00 00 61]. *)
Lemma b58_encode_shape_witness :
  exists ms : list Z,
    list_ascii_of_string (Base58.Encode [x00; x00; x61]) =
      repeat "1"%char (Z.to_nat (Base58.count_zeros [x00; x00; x61])) ++
      map (table_at Base58.Base58Table) ms /\
    Forall (fun d => 0 <= d < 58) ms /\
    match ms with [] => True | d :: _ => d <> 0 end /\
    horner 58 0 ms = be_value [x00; x00; x61] /\
    Forall (fun c => in_table Base58.Base58Table c = true)
           (list_ascii_of_string (Base58.Encode [x00; x00; x61])) /\
    Z.of_nat (String.length (Base58.Encode [x00; x00; x61]))
      <= 137 * len [x00; x00; x61] / 100 + 1.
Proof.
  apply (b58_encode_shape [x00; x00; x61]). vm_compute. reflexivity.
Defined.

(** X26: a zero octet in front of the input puts a ['1'] in front of the
    output of [Base58::Encode] and changes nothing else. *)
Theorem b58_encode_zero_octet (x : list byte) :
  137 * len (x00 :: x) < 2 ^ 64 ->
  Base58.Encode (x00 :: x) = String "1" (Base58.Encode x).
Proof.
  intros Hsize.
  assert (Hx : 137 * len x < 2 ^ 64) by (rewrite len_cons in Hsize; lia).
  destruct (b58_encode_digits (x00 :: x) Hsize)
    as (ms1 & O1 & H1 & V1 & _ & E1).
  destruct (b58_encode_digits x Hx) as (ms2 & O2 & H2 & V2 & _ & E2).
  destruct (b58_count_zeros_spec x) as (Hz & _ & _).
  assert (Hc : Z.to_nat (Base58.count_zeros (x00 :: x)) =
               S (Z.to_nat (Base58.count_zeros x))).
  { cbn [Base58.count_zeros]. change (u8 x00 =? 0) with true. cbv iota. lia. }
  rewrite Hc in V1, E1. cbn [skipn] in V1.
  rewrite E1, E2.
  rewrite (horner_unique 58 ms1 ms2 ltac:(lia) O1 H1 O2 H2) by congruence.
  reflexivity.
Qed.

(** [b58_encode_zero_octet] for the octet [61]. *)
Lemma b58_encode_zero_octet_witness :
  Base58.Encode [x00; x61] = String "1" (Base58.Encode [x61]).
Proof.
  apply (b58_encode_zero_octet [x61]). vm_compute. reflexivity.
Defined.

Lemma b58_leading_ones_rest (t : list ascii) :
  match skipn (Z.to_nat (b58_leading_ones t)) t with
  | [] => True
  | c :: _ => Ascii.eqb c "1" = false
  end.
Proof.
  induction t as [|c t IH]; [exact I|].
  cbn [b58_leading_ones]. destruct (Ascii.eqb c "1") eqn:E.
  - pose proof (b58_leading_ones_nonneg t).
    replace (Z.to_nat (1 + b58_leading_ones t))
      with (S (Z.to_nat (b58_leading_ones t))) by lia.
    exact IH.
  - exact E.
Qed.

(** X27: encoding what [Base58::Decode] returned gives the text of its input
    back: the input without its whitespace. *)
Theorem b58_encode_decode (input : string) (x : list byte) :
  Base58.Decode_run input = Some x ->
  137 * len x < 2 ^ 64 ->
  Base58.Encode x =
  string_of_list_ascii (b58_text (list_ascii_of_string input)).
Proof.
  intros Hrun Hsize. pose proof (b58_decode_run_text input) as H.
  cbv zeta in H. set (t := b58_text (list_ascii_of_string input)) in *.
  destruct (forallb b58_accepts t) eqn:Hacc; [|congruence].
  destruct H as (ds & Hcan & Hv & Hr). rewrite Hr in Hrun.
  injection Hrun as <-.
  pose proof (b58_leading_ones_nonneg t) as Hz.
  set (z := Z.to_nat (b58_leading_ones t)) in *.
  destruct (b58_octets_value z ds Hcan) as (_ & V2 & V3 & _).
  destruct (b58_octets_value 0 ds Hcan) as (V1 & _ & _ & _).
  cbn [repeat app] in V1.
  destruct (b58_encode_digits _ Hsize) as (ms & O1 & H1 & W1 & _ & E).
  rewrite V2, Nat2Z.id in W1, E. rewrite V3, V1, Hv in W1.
  pose proof (b58_leading_ones_split t) as Hsplit.
  pose proof (b58_leading_ones_rest t) as Hrest.
  fold z in Hsplit, Hrest. set (t' := skipn z t) in *.
  assert (Hacc' : forallb b58_accepts t' = true).
  { rewrite Hsplit, forallb_app in Hacc.
    apply andb_true_iff in Hacc. tauto. }
  destruct (b58_text_accepted t' Hacc') as (_ & T2 & T3).
  assert (Hhead : match b58_values t' with [] => True | d :: _ => d <> 0 end).
  { destruct t' as [|c t'']; [exact I|]. cbn [b58_values map].
    cbn [forallb] in Hacc'. apply andb_true_iff in Hacc'.
    destruct Hacc' as [Hc _].
    destruct (b58_accepted c Hc) as (_ & _ & A3 & _).
    intros Habs. apply A3 in Habs. subst c. discriminate Hrest. }
  rewrite Hsplit, b58_values_ones, horner_zeros in W1.
  rewrite (horner_unique 58 ms (b58_values t') ltac:(lia) O1 H1 T3 Hhead W1)
    in E.
  rewrite E, T2, <- Hsplit. reflexivity.
Qed.

(** [b58_encode_decode] for an input with whitespace and two leading ones. *)
Lemma b58_encode_decode_witness :
  Base58.Encode [x00; x00; x61] =
  string_of_list_ascii (b58_text (list_ascii_of_string " 11 2g ")).
Proof.
  apply (b58_encode_decode " 11 2g " [x00; x00; x61]).
  - reflexivity.
  - vm_compute. reflexivity.
Defined.

(** ** Base64: decoding in pieces *)

Lemma upto_pad_app (a b : list ascii) :
  forallb (fun c => negb (Ascii.eqb c "=")) a = true ->
  upto_pad (a ++ b) = a ++ upto_pad b.
Proof.
  induction a as [|c a IH]; intros H; [reflexivity|].
  cbn [forallb] in H. apply andb_true_iff in H. destruct H as [Hc Ha].
  apply negb_true_iff in Hc. cbn [app upto_pad]. rewrite Hc, IH by exact Ha.
  reflexivity.
Qed.

Lemma b64_groups_app (l1 l2 : list Z) :
  len l1 mod 4 = 0 ->
  b64_full_groups (l1 ++ l2) = b64_full_groups l1 ++ b64_full_groups l2 /\
  b64_tail (l1 ++ l2) = b64_tail l2 /\
  b64_tail l1 = [].
Proof.
  revert l1. fix IH 1. intros [|s0 [|s1 [|s2 [|s3 l1]]]] H;
    try discriminate H.
  - repeat split; reflexivity.
  - assert (H' : len l1 mod 4 = 0).
    { unfold len in *. simpl List.length in H. rewrite !Nat2Z.inj_succ in H.
      Z.div_mod_to_equations. lia. }
    destruct (IH l1 H') as (E1 & E2 & E3).
    change (b64_full_groups ((s0 :: s1 :: s2 :: s3 :: l1) ++ l2))
      with (b64_octets3 s0 s1 s2 s3 ++ b64_full_groups (l1 ++ l2)).
    change (b64_tail ((s0 :: s1 :: s2 :: s3 :: l1) ++ l2))
      with (b64_tail (l1 ++ l2)).
    change (b64_full_groups (s0 :: s1 :: s2 :: s3 :: l1))
      with (b64_octets3 s0 s1 s2 s3 ++ b64_full_groups l1).
    change (b64_tail (s0 :: s1 :: s2 :: s3 :: l1)) with (b64_tail l1).
    rewrite E1, E2, E3, <- app_assoc. repeat split; reflexivity.
Qed.

(** X28: an input of [Base64::Decode] can be cut after any whole number of
    groups of four accepted characters, before the padding: the result is the
    concatenation of the results for the two pieces. *)
Theorem b64_decode_app (a b : string) :
  forallb (fun c => negb (Ascii.eqb c "=")) (list_ascii_of_string a) = true ->
  len (b64_valid_values (list_ascii_of_string a)) mod 4 = 0 ->
  Base64.Decode (a ++ b) = Base64.Decode a ++ Base64.Decode b.
Proof.
  intros Hpad Hlen. unfold Base64.Decode.
  rewrite !b64_decode_run_spec, list_ascii_of_string_app.
  assert (Hv : b64_valid_values
                 (list_ascii_of_string a ++ list_ascii_of_string b) =
               b64_valid_values (list_ascii_of_string a) ++
               b64_valid_values (list_ascii_of_string b)).
  { unfold b64_valid_values. rewrite upto_pad_app by exact Hpad.
    rewrite map_app, filter_app. f_equal. f_equal. f_equal.
    symmetry. rewrite <- (app_nil_r (list_ascii_of_string a)) at 1.
    rewrite upto_pad_app by exact Hpad. apply app_nil_r. }
  rewrite Hv.
  destruct (b64_groups_app _ (b64_valid_values (list_ascii_of_string b)) Hlen)
    as (E1 & E2 & E3).
  rewrite E1, E2, E3. cbn [b64_trailing]. rewrite app_nil_r, app_assoc.
  reflexivity.
Qed.

(** [b64_decode_app] for an input cut after its first group. *)
Lemma b64_decode_app_witness :
  Base64.Decode ("Zm 9v" ++ "Yg==") =
  Base64.Decode "Zm 9v" ++ Base64.Decode "Yg==".
Proof.
  apply (b64_decode_app "Zm 9v" "Yg=="); reflexivity.
Defined.

(** ** Base58: the reverse table as the source writes it *)

(** The entry at index 245 of [Base58ReverseTable] is written [B58ToInt(258)];
    its value is that of [B58ToInt(245)], the invalid character. *)
Lemma b58_reverse_table_245 :
  Base58.B58ToInt 258 = Base58.Base58ReverseTable 245.
Proof. reflexivity. Qed.

(** ** Base32: the state of the encoding loop *)

(** X29: after [k] octets the loop of [Base32::Encode] has written the
    [8k/5] whole 5-bit symbols of the bits read, keeps the [8k mod 5] bits
    left in [group], fewer than five, and has in [quantum] the number of
    symbols written since the last multiple of eight: the inner [do]/[while]
    loop ends by its own test, after one or two rounds. *)
Theorem b32_encode_loop_invariant (input : list byte) :
  let st := Base32.Encode_loop input (Base32.mkEnc [] 0 0 0) in
  Base32.e_group_size st = (8 * len input) mod 5 /\
  Base32.e_quantum st = (8 * len input / 5) mod 8 /\
  len (Base32.e_output st) = 8 * len input / 5.
Proof.
  induction input as [|o input IH] using rev_ind.
  - cbv zeta. repeat split; reflexivity.
  - cbv zeta in *. rewrite b32_encode_loop_app, len_app.
    change (len [o]) with 1.
    set (st0 := Base32.Encode_loop input (Base32.mkEnc [] 0 0 0)) in *.
    unfold Base32.Encode_loop. cbn [fold_left].
    destruct st0 as [out G gs q].
    cbn [Base32.e_group_size Base32.e_quantum Base32.e_output] in IH.
    destruct IH as (I1 & I2 & I3).
    pose proof (len_nonneg input) as Hk.
    assert (Hc : len input mod 5 = 0 \/ len input mod 5 = 1 \/
                 len input mod 5 = 2 \/ len input mod 5 = 3 \/
                 len input mod 5 = 4)
      by (pose proof (Z.mod_pos_bound (len input) 5); lia).
    destruct Hc as [H|[H|[H|[H|H]]]].
    + replace gs with 0 by (rewrite I1; Z.div_mod_to_equations; lia).
      replace q with 0 by (rewrite I2; Z.div_mod_to_equations; lia).
      rewrite b32_enc_step_0.
      cbn [Base32.e_group_size Base32.e_quantum Base32.e_output].
      rewrite len_app, I3. change (len [_]) with 1.
      repeat split; Z.div_mod_to_equations; lia.
    + replace gs with 3 by (rewrite I1; Z.div_mod_to_equations; lia).
      replace q with 1 by (rewrite I2; Z.div_mod_to_equations; lia).
      rewrite b32_enc_step_1.
      cbn [Base32.e_group_size Base32.e_quantum Base32.e_output].
      rewrite !len_app, I3. change (len [_]) with 1.
      repeat split; Z.div_mod_to_equations; lia.
    + replace gs with 1 by (rewrite I1; Z.div_mod_to_equations; lia).
      replace q with 3 by (rewrite I2; Z.div_mod_to_equations; lia).
      rewrite b32_enc_step_2.
      cbn [Base32.e_group_size Base32.e_quantum Base32.e_output].
      rewrite len_app, I3. change (len [_]) with 1.
      repeat split; Z.div_mod_to_equations; lia.
    + replace gs with 4 by (rewrite I1; Z.div_mod_to_equations; lia).
      replace q with 4 by (rewrite I2; Z.div_mod_to_equations; lia).
      rewrite b32_enc_step_3.
      cbn [Base32.e_group_size Base32.e_quantum Base32.e_output].
      rewrite !len_app, I3. change (len [_]) with 1.
      repeat split; Z.div_mod_to_equations; lia.
    + replace gs with 2 by (rewrite I1; Z.div_mod_to_equations; lia).
      replace q with 6 by (rewrite I2; Z.div_mod_to_equations; lia).
      rewrite b32_enc_step_4.
      cbn [Base32.e_group_size Base32.e_quantum Base32.e_output].
      rewrite !len_app, I3. change (len [_]) with 1.
      repeat split; Z.div_mod_to_equations; lia.
Qed.

(** ** The overloads for [std::string_view] *)

Lemma ascii_of_byte_of_ascii_list (l : list ascii) :
  map ascii_of_byte (map byte_of_ascii l) = l.
Proof.
  induction l as [|c l IH]; [reflexivity|].
  cbn [map]. rewrite ascii_of_byte_of_ascii, IH. reflexivity.
Qed.

Lemma len_map_byte_of_ascii (s : string) :
  len (map byte_of_ascii (list_ascii_of_string s)) =
  Z.of_nat (String.length s).
Proof.
  rewrite len_map. unfold len. f_equal.
  induction s as [|c s IH]; [reflexivity|]. cbn. rewrite IH. reflexivity.
Qed.

(** X30: [Encode(std::string_view)] of each codec reads the characters of
    the string as octets: [Decode] gives them back, the characters of the
    string, whatever they are.  For Base58 the string is one whose length
    times 137 does not leave the 64 bits of [std::size_t]. *)
Theorem encode_string_view_roundtrip (s : string) :
  map ascii_of_byte (Base16.Decode (Base16.Encode_sv s)) =
    list_ascii_of_string s /\
  map ascii_of_byte (Base32.Decode (Base32.Encode_sv s)) =
    list_ascii_of_string s /\
  map ascii_of_byte (Base45.Decode (Base45.Encode_sv s)) =
    list_ascii_of_string s /\
  map ascii_of_byte (Base64.Decode (Base64.Encode_sv s)) =
    list_ascii_of_string s /\
  (137 * Z.of_nat (String.length s) < 2 ^ 64 ->
   map ascii_of_byte (Base58.Decode (Base58.Encode_sv s)) =
     list_ascii_of_string s).
Proof.
  unfold Base16.Encode_sv, Base32.Encode_sv, Base45.Encode_sv,
    Base64.Encode_sv, Base58.Encode_sv.
  rewrite b16_roundtrip, b32_roundtrip, b45_roundtrip, b64_roundtrip.
  rewrite ascii_of_byte_of_ascii_list.
  repeat split. intros H.
  rewrite b58_roundtrip by (rewrite len_map_byte_of_ascii; exact H).
  apply ascii_of_byte_of_ascii_list.
Qed.

(** [encode_string_view_roundtrip] for a string of twelve characters. *)
Lemma encode_string_view_roundtrip_witness :
  map ascii_of_byte (Base58.Decode (Base58.Encode_sv "Hello World!")) =
  list_ascii_of_string "Hello World!".
Proof.
  apply (proj2 (proj2 (proj2 (proj2
           (encode_string_view_roundtrip "Hello World!"))))).
  vm_compute. reflexivity.
Defined.
